(** * Reviva: ledger synchronisation and leak detection

    A shallow embedding of
      - [backend/services/quickbooks.service.js] (token lifecycle, ledger
        client, ingestion pipeline),
      - the leak detection service (four detectors and the scoring helpers),
      - the Mongoose schemas they write through ([Invoice], [Payment],
        [Leak], [Company], [Contract]): field defaults, enum and range
        validators, and the [pre('save')] hooks.

    Conventions.
      - A JavaScript [Number] that is stored in a document is a rational
        ([Q]): the double it is.  Comparisons are exact.  Sums,
        differences, products and quotients are rounded to the nearest
        double ([Js.round64]); magnitudes stay below 2^1024.  The places
        where the source can produce [NaN] or an infinity are modelled
        explicitly ([jsnum]).  Quotients of integers that go through
        [Math.floor] or [Math.ceil] are taken exactly (below 2^53 the
        rounding of the quotient does not reach the next integer).
      - A [Date] is its epoch time in milliseconds ([Z]); an invalid date is
        [None].
      - A possibly [undefined] string is an [option string]; a query on
        such a value matches documents whose field is absent (null
        matching).
      - Collections are lists in insertion order; [findOne] returns the
        first match.
      - Awaited calls run one after the other; a rejected promise is an
        [Err] result and the store keeps what was written before it.
      - One call observes one clock reading.
      - An update through [findOneAndUpdate] or [findByIdAndUpdate] drops
        the paths whose value is [undefined]: the stored value stays.
      - The Invoice and Payment collections carry their unique index
        ([invoiceNumber], [paymentId]) and the [createdAt]/[updatedAt]
        stamps of [timestamps: true]; fresh ObjectIds (documents and line
        items) come from one counter.
      - Query indexes, failures of the storage itself, the stamps of the
        other collections and the free-text fields built with [toFixed]
        ([rootCause], [description]) are not modelled. *)

From Stdlib Require Import ZArith QArith Qabs List String Ascii Bool Lia.
Import ListNotations.

#[local] Set Warnings "-register-all".

Local Open Scope string_scope.
Local Open Scope list_scope.
Local Open Scope Z_scope.

(** ** Results of awaited operations *)

Inductive Error : Type :=
| CastError (path : string)
| ValidationError (path : string)
| DuplicateKey (path : string)
| AuthError
| LedgerError.

Inductive Res (A : Type) : Type :=
| Ok (a : A)
| Err (e : Error).

Arguments Ok {A} a.
Arguments Err {A} e.

Definition message (e : Error) : string :=
  match e with
  | CastError p => ("Cast failed at path " ++ p)%string
  | ValidationError p => ("Validation failed at path " ++ p)%string
  | DuplicateKey p => ("E11000 duplicate key error at path " ++ p)%string
  | AuthError => "Token exchange failed"
  | LedgerError => "Request failed"
  end.

Definition is_ok {A} (r : Res A) : bool :=
  match r with Ok _ => true | Err _ => false end.

(** ** JavaScript values *)

Module Js.

(** [a > b], [a < b] and [a <= b] on finite numbers. *)
Definition gt (a b : Q) : bool := negb (Qle_bool a b).
Definition lt (a b : Q) : bool := negb (Qle_bool b a).
Definition le (a b : Q) : bool := Qle_bool a b.

(** The result of an arithmetic expression that may leave the finite
    numbers. *)
Inductive jsnum : Type :=
| Fin (q : Q)
| PInf
| NInf
| NaN.

(** [x > k] for a finite [k]; any comparison with [NaN] is false. *)
Definition gt_num (x : jsnum) (k : Q) : bool :=
  match x with
  | Fin q => gt q k
  | PInf => true
  | NInf => false
  | NaN => false
  end.

(** [parseFloat(x || 0)] on a wire number. *)
Definition parseFloat_or0 (x : option Q) : Q :=
  match x with Some q => q | None => 0%Q end.

(** [parseFloat(x)] on a wire number: [NaN] when the field is absent. *)
Definition parseFloat (x : option Q) : jsnum :=
  match x with Some q => Fin q | None => NaN end.

(** [a / d >= 2^e] for positive [a] and [d]. *)
Definition at_least_pow2 (a d e : Z) : bool :=
  if 0 <=? e then d * 2 ^ e <=? a else d <=? a * 2 ^ (- e).

(** [num / den] rounded to the nearest integer, ties to even. *)
Definition half_even (num den : Z) : Z :=
  let q := num / den in
  match 2 * (num mod den) ?= den with
  | Lt => q
  | Gt => q + 1
  | Eq => if Z.even q then q else q + 1
  end.

(** The double nearest to a rational (IEEE 754 binary64, round to nearest,
    ties to even): 53 significant bits, exponent of the last bit at least
    -1074.  The result is in lowest terms. *)
Definition round64 (q : Q) : Q :=
  let n := Qnum q in
  let d := Z.pos (Qden q) in
  if n =? 0 then 0%Q
  else
    let a := Z.abs n in
    let e0 := Z.log2 a - Z.log2 d in
    let e := if at_least_pow2 a d e0 then e0 else e0 - 1 in
    let s := Z.max (e - 52) (-1074) in
    let m := if 0 <=? s then half_even a (d * 2 ^ s)
             else half_even (a * 2 ^ (- s)) d in
    Qred (if 0 <=? s then inject_Z (Z.sgn n * m * 2 ^ s)
          else Qmake (Z.sgn n * m) (Z.to_pos (2 ^ (- s)))).

(** [a + b], [a - b] and [a * b] on finite numbers: the double nearest to
    the exact result. *)
Definition add (a b : Q) : Q := round64 (a + b).
Definition sub (a b : Q) : Q := round64 (a - b).
Definition mul (a b : Q) : Q := round64 (a * b).

(** [x - b] for a finite [b]. *)
Definition minus (x : jsnum) (b : Q) : jsnum :=
  match x with
  | Fin q => Fin (round64 (q - b))
  | other => other
  end.

(** [a / b] for finite [a] and [b]. *)
Definition div (a b : Q) : jsnum :=
  if Qeq_bool b 0 then
    match (a ?= 0)%Q with
    | Gt => PInf
    | Lt => NInf
    | Eq => NaN
    end
  else Fin (round64 (a / b)).

(** [x * k] for a finite positive [k]. *)
Definition scale (x : jsnum) (k : Q) : jsnum :=
  match x with
  | Fin q => Fin (mul q k)
  | other => other
  end.

(** A path of an update whose value is [undefined] is dropped: the stored
    value stays. *)
Definition set_if_defined {A : Type} (new old : option A) : option A :=
  match new with
  | Some v => Some v
  | None => old
  end.

(** [Math.floor(a / b)] and [Math.ceil(a / b)] on integers, [b > 0]. *)
Definition floor_div (a b : Z) : Z := a / b.
Definition ceil_div (a b : Z) : Z := - ((- a) / b).

(** Equality of possibly undefined strings, as a query filter sees it. *)
Definition ostring_eqb (a b : option string) : bool :=
  match a, b with
  | Some x, Some y => String.eqb x y
  | None, None => true
  | _, _ => false
  end.

(** [s || d] on a possibly undefined string. *)
Definition or_default (s : option string) (d : string) : string :=
  match s with
  | Some x => if String.eqb x "" then d else x
  | None => d
  end.

Definition lower_ascii (c : ascii) : ascii :=
  let n := nat_of_ascii c in
  if (Nat.leb 65 n && Nat.leb n 90)%bool then ascii_of_nat (n + 32) else c.

Fixpoint toLowerCase (s : string) : string :=
  match s with
  | EmptyString => EmptyString
  | String c rest => String (lower_ascii c) (toLowerCase rest)
  end.

(** [hay.includes(needle)]. *)
Fixpoint includes (needle hay : string) : bool :=
  if String.prefix needle hay then true
  else match hay with
       | EmptyString => false
       | String _ rest => includes needle rest
       end.

(** Plain objects returned to callers. *)
Inductive value : Type :=
| Undefined
| Bool (b : bool)
| Num (n : Z)
| Str (s : string)
| Obj (fields : list (string * value)).

Fixpoint get_field (k : string) (fields : list (string * value)) : option value :=
  match fields with
  | [] => None
  | (k', v) :: rest => if String.eqb k k' then Some v else get_field k rest
  end.

Definition get (k : string) (v : value) : option value :=
  match v with
  | Obj fields => get_field k fields
  | _ => None
  end.

Definition values (v : value) : list value :=
  match v with
  | Obj fields => map snd fields
  | _ => []
  end.

End Js.

Definition day_ms : Z := 1000 * 60 * 60 * 24.

(** ** Schemas *)

Inductive InvoiceStatus : Type :=
| IS_draft | IS_sent | IS_viewed | IS_partial | IS_paid | IS_overdue | IS_cancelled.

Inductive ContractStatus : Type :=
| CS_draft | CS_active | CS_expired | CS_renewed | CS_cancelled.

Inductive BillingFrequency : Type :=
| monthly | quarterly | annually.

Inductive LeakType : Type :=
| missing_payment | under_billing | failed_renewal | uncollected_receivable
| duplicate_credit | pricing_mismatch | contract_violation.

Inductive LeakStatus : Type :=
| detected | investigating | in_recovery | recovered | written_off.

Inductive Priority : Type :=
| low | medium | high | critical.

Inductive PaymentMethod : Type :=
| ach | wire | check | other.

Inductive PaymentStatus : Type :=
| pending | completed | failed | refunded.

Definition LeakType_eqb (a b : LeakType) : bool :=
  match a, b with
  | missing_payment, missing_payment | under_billing, under_billing
  | failed_renewal, failed_renewal
  | uncollected_receivable, uncollected_receivable
  | duplicate_credit, duplicate_credit | pricing_mismatch, pricing_mismatch
  | contract_violation, contract_violation => true
  | _, _ => false
  end.

Module Company.

(** [integrations.quickbooks]. *)
Record QuickBooks : Type := mkQuickBooks {
  connected : bool;
  realmId : option string;
  accessToken : option string;
  refreshToken : option string;
  tokenExpiresAt : option Z;
  lastSync : option Z
}.

Record t : Type := mk {
  _id : Z;
  name : string;
  quickbooks : QuickBooks;
  isActive : bool
}.

End Company.

Module Invoice.

Record LineItem : Type := mkLineItem {
  description : option string;
  quantity : option Q;
  unitPrice : option Q;
  line_amount : Q;
  line_id : Z
}.

Record t : Type := mk {
  _id : Z;
  company : Z;
  invoiceNumber : option string;
  customerId : option string;
  customerName : option string;
  amount : Q;
  currency : string;
  issueDate : Z;
  dueDate : Z;
  paidDate : option Z;
  status : InvoiceStatus;
  lineItems : list LineItem;
  totalPaid : Q;
  balance : Q;
  sourceSystem : string;
  quickbooksId : option string;
  reconciled : bool;
  notes : option string;
  createdAt : Z;
  updatedAt : Z
}.

(** [enum: ['quickbooks', 'manual', 'api']]. *)
Definition sourceSystem_enum : list string := ["quickbooks"; "manual"; "api"].

(** [invoiceSchema.pre('save')]: recompute the balance and derive the
    status.  Runs on [save] only. *)
Definition pre_save (now : Z) (d : t) : t :=
  let bal := Js.sub (amount d) (totalPaid d) in
  let st :=
    if Js.le bal 0 then IS_paid
    else if (Js.gt (totalPaid d) 0 && Js.gt bal 0)%bool then IS_partial
    else if ((dueDate d <? now) && Js.gt bal 0)%bool then IS_overdue
    else status d in
  let pd :=
    if Js.le bal 0 then
      match paidDate d with Some p => Some p | None => Some now end
    else paidDate d in
  mk (_id d) (company d) (invoiceNumber d) (customerId d) (customerName d)
     (amount d) (currency d) (issueDate d) (dueDate d) pd st (lineItems d)
     (totalPaid d) bal (sourceSystem d) (quickbooksId d) (reconciled d)
     (notes d) (createdAt d) (updatedAt d).

End Invoice.

Module Payment.

Record t : Type := mk {
  _id : Z;
  company : Z;
  paymentId : string;
  invoiceId : option Z;
  customerId : option string;
  customerName : option string;
  amount : Q;
  currency : string;
  paymentDate : Z;
  paymentMethod : option PaymentMethod;
  status : PaymentStatus;
  reference : option string;
  sourceSystem : option string;
  quickbooksId : option string;
  reconciled : bool;
  notes : option string;
  createdAt : Z;
  updatedAt : Z
}.

End Payment.

Module Contract.

Record Pricing : Type := mkPricing {
  baseFee : Q;
  commissionPercentage : Q
}.

Record t : Type := mk {
  _id : Z;
  company : Z;
  contractNumber : string;
  clientCompanyName : string;
  status : ContractStatus;
  startDate : Z;
  endDate : Z;
  pricing : Pricing;
  billingFrequency : BillingFrequency
}.

End Contract.

Module Leak.

Record SourceReference : Type := mkRef {
  invoiceId : option string;
  customerId : option string;
  transactionId : option string;
  contractId : option string
}.

Record t : Type := mk {
  _id : Z;
  company : Z;
  leakType : LeakType;
  status : LeakStatus;
  priority : Priority;
  amount : Q;
  currency : string;
  confidence : Z;
  sourceSystem : option string;
  sourceReference : SourceReference;
  detectedAt : Z;
  aging : Z;
  recommendedAction : option string;
  recoveredAmount : Q
}.

(** The object literal handed to [Leak.create]. *)
Record input : Type := mkInput {
  in_company : Z;
  in_leakType : LeakType;
  in_status : LeakStatus;
  in_priority : Priority;
  in_amount : Q;
  in_currency : string;
  in_confidence : Z;
  in_sourceSystem : string;
  in_sourceReference : SourceReference;
  in_recommendedAction : string;
  in_aging : option Z
}.

(** [enum: ['quickbooks', 'manual_upload', 'erp', 'crm']]. *)
Definition sourceSystem_enum : list string :=
  ["quickbooks"; "manual_upload"; "erp"; "crm"].

Definition in_enum (s : string) (enum : list string) : bool :=
  existsb (String.eqb s) enum.

(** The collection together with the next free document id. *)
Record Store : Type := mkStore {
  docs : list t;
  nextId : Z
}.

(** Schema validation of a new document: the [sourceSystem] enum and the
    [min: 0]/[max: 100] range of [confidence].  The required paths and the
    other enums hold by typing. *)
Definition validate (i : input) : Res unit :=
  if negb (in_enum (in_sourceSystem i) sourceSystem_enum)
  then Err (ValidationError "sourceSystem")
  else if (in_confidence i <? 0) || (100 <? in_confidence i)
  then Err (ValidationError "confidence")
  else Ok tt.

(** The document built from the literal and the schema defaults
    ([detectedAt: Date.now], [aging: 0], [recoveredAmount: 0]). *)
Definition construct (now id : Z) (i : input) : t :=
  mk id (in_company i) (in_leakType i) (in_status i) (in_priority i)
     (in_amount i) (in_currency i) (in_confidence i)
     (Some (in_sourceSystem i)) (in_sourceReference i) now
     (match in_aging i with Some a => a | None => 0 end)
     (Some (in_recommendedAction i)) 0%Q.

(** [leakSchema.pre('save')]: aging is the number of whole days since
    detection. *)
Definition pre_save (now : Z) (d : t) : t :=
  mk (_id d) (company d) (leakType d) (status d) (priority d) (amount d)
     (currency d) (confidence d) (sourceSystem d) (sourceReference d)
     (detectedAt d) (Js.floor_div (now - detectedAt d) day_ms)
     (recommendedAction d) (recoveredAmount d).

(** [Leak.create(literal)]: construct, validate, run the save hook,
    insert. *)
Definition create (now : Z) (i : input) (s : Store) : Res Store :=
  match validate i with
  | Err e => Err e
  | Ok _ =>
      let d := pre_save now (construct now (nextId s) i) in
      Ok (mkStore (docs s ++ [d]) (nextId s + 1))
  end.

(** [status: { $nin: ['recovered', 'written_off'] }]. *)
Definition is_open (d : t) : bool :=
  match status d with
  | recovered | written_off => false
  | _ => true
  end.

(** Which path of [sourceReference] a query names. *)
Inductive RefPath : Type := by_invoiceId | by_contractId.

Definition ref_at (p : RefPath) (d : t) : option string :=
  match p with
  | by_invoiceId => invoiceId (sourceReference d)
  | by_contractId => contractId (sourceReference d)
  end.

(** The filter of the dedup query: the key part and the status part. *)
Definition matches_key (c : Z) (ty : LeakType) (p : RefPath)
           (r : option string) (d : t) : bool :=
  (company d =? c) && LeakType_eqb (leakType d) ty
  && Js.ostring_eqb (ref_at p d) r.

Definition matches_open (c : Z) (ty : LeakType) (p : RefPath)
           (r : option string) (d : t) : bool :=
  matches_key c ty p r d && is_open d.

(** [Leak.findOne({company, leakType, 'sourceReference.<path>': r,
    status: {$nin: [...]}})]. *)
Definition findOne_open (c : Z) (ty : LeakType) (p : RefPath)
           (r : option string) (s : Store) : option t :=
  find (matches_open c ty p r) (docs s).

Definition set_aging_amount (a : Z) (amt : Q) (d : t) : t :=
  mk (_id d) (company d) (leakType d) (status d) (priority d) amt
     (currency d) (confidence d) (sourceSystem d) (sourceReference d)
     (detectedAt d) a (recommendedAction d) (recoveredAmount d).

Fixpoint update_by_id (id : Z) (f : t -> t) (l : list t) : list t :=
  match l with
  | [] => []
  | d :: rest =>
      if _id d =? id then f d :: rest else d :: update_by_id id f rest
  end.

(** [Leak.findByIdAndUpdate(id, {aging, amount})]: no hook runs. *)
Definition findByIdAndUpdate (id : Z) (a : Z) (amt : Q) (s : Store) : Store :=
  mkStore (update_by_id id (set_aging_amount a amt) (docs s)) (nextId s).

End Leak.


(** ** Leak detection service *)

Module LeakDetection.

(** What a detection run reads besides the Leak collection: the clock and
    the Invoice and Contract collections. *)
Record World : Type := mkWorld {
  now : Z;
  invoices : list Invoice.t;
  contracts : list Contract.t
}.

(** [{ success, count }] or [{ success: false, error, count: 0 }]. *)
Record Result : Type := mkResult {
  success : bool;
  error : option string;
  count : Z
}.

Definition Result_value (r : Result) : Js.value :=
  match error r with
  | None => Js.Obj [("success", Js.Bool (success r)); ("count", Js.Num (count r))]
  | Some m =>
      Js.Obj [("success", Js.Bool (success r)); ("error", Js.Str m);
              ("count", Js.Num (count r))]
  end.

(** [r.count] on a returned result object. *)
Definition count_of (v : Js.value) : Z :=
  match Js.get "count" v with
  | Some (Js.Num n) => n
  | _ => 0
  end.

Inductive LogEntry : Type :=
| info_starting (companyId : Z)
| info_detected_total (totalLeaks : Z) (companyId : Z)
| error_detection (detector : string) (msg : string).

(** *** Scoring helpers *)

Definition calculatePriority (amount : Q) (daysOverdue : Z) : Priority :=
  if Js.gt amount 50000 || (90 <? daysOverdue) then critical
  else if Js.gt amount 10000 || (60 <? daysOverdue) then high
  else if Js.gt amount 5000 || (30 <? daysOverdue) then medium
  else low.

Definition calculateConfidence (leakType : LeakType) (daysOverdue : Z) : Z :=
  if 90 <? daysOverdue then 95
  else if 60 <? daysOverdue then 90
  else if 30 <? daysOverdue then 85
  else if 15 <? daysOverdue then 80
  else 70.

Definition calculateExpectedBilling (contract : Contract.t) : Q :=
  let monthsInContract :=
    Js.ceil_div (Contract.endDate contract - Contract.startDate contract)
                (30 * 24 * 60 * 60 * 1000) in
  let baseFee := Contract.baseFee (Contract.pricing contract) in
  match Contract.billingFrequency contract with
  | monthly => Js.mul baseFee (inject_Z monthsInContract)
  | quarterly => Js.mul baseFee (inject_Z (Js.ceil_div monthsInContract 3))
  | annually => baseFee
  end.

(** The ordering [low < medium < high < critical]. *)
Definition Priority_rank (p : Priority) : Z :=
  match p with
  | low => 0
  | medium => 1
  | high => 2
  | critical => 3
  end.

Definition Priority_le (p q : Priority) : Prop :=
  Priority_rank p <= Priority_rank q.

(** *** The detector loops *)

(** [for (const x of xs) { ... }] inside [try]: the body either moves the
    store on and says how much [detectedCount] grows, or throws; what was
    written before the throw stays. *)
Fixpoint for_each {A : Type} (body : A -> Leak.Store -> Res (Leak.Store * Z))
         (xs : list A) (s : Leak.Store) (detectedCount : Z)
  : Leak.Store * Res Z :=
  match xs with
  | [] => (s, Ok detectedCount)
  | x :: rest =>
      match body x s with
      | Ok (s', n) => for_each body rest s' (detectedCount + n)
      | Err e => (s, Err e)
      end
  end.

(** The [return] of the [try] block and of the [catch] block. *)
Definition finish (r : Leak.Store * Res Z) : Result * Leak.Store :=
  match snd r with
  | Ok n => (mkResult true None n, fst r)
  | Err e => (mkResult false (Some (message e)) 0, fst r)
  end.

(** [if (!existingLeak) { await Leak.create(...); detectedCount++ }]. *)
Definition create_counted (now : Z) (i : Leak.input) (s : Leak.Store)
  : Res (Leak.Store * Z) :=
  match Leak.create now i s with
  | Ok s' => Ok (s', 1)
  | Err e => Err e
  end.

Definition is_receivable (st : InvoiceStatus) : bool :=
  match st with
  | IS_sent | IS_viewed | IS_partial | IS_overdue => true
  | _ => false
  end.

(** *** Algorithm 1: missing or delayed payments *)

Definition missingPayments_query (companyId : Z) (w : World) : list Invoice.t :=
  filter (fun inv => (Invoice.company inv =? companyId)
                     && is_receivable (Invoice.status inv)
                     && Js.gt (Invoice.balance inv) 0)
         (invoices w).

Definition missingPayment_literal (companyId : Z) (invoice : Invoice.t)
           (daysOverdue : Z) : Leak.input :=
  Leak.mkInput companyId missing_payment detected
    (calculatePriority (Invoice.balance invoice) daysOverdue)
    (Invoice.balance invoice) (Invoice.currency invoice)
    (calculateConfidence missing_payment daysOverdue)
    (Invoice.sourceSystem invoice)
    (Leak.mkRef (Invoice.invoiceNumber invoice) (Invoice.customerId invoice)
                None None)
    (if 60 <? daysOverdue
     then "Escalate to collections or legal team"
     else "Send payment reminder and follow up with customer")
    (Some daysOverdue).

Definition missingPayments_body (w : World) (companyId : Z)
           (invoice : Invoice.t) (s : Leak.Store) : Res (Leak.Store * Z) :=
  let daysOverdue := Js.floor_div (now w - Invoice.dueDate invoice) day_ms in
  if 0 <? daysOverdue then
    match Leak.findOne_open companyId missing_payment Leak.by_invoiceId
                            (Invoice.invoiceNumber invoice) s with
    | None =>
        create_counted (now w)
          (missingPayment_literal companyId invoice daysOverdue) s
    | Some existingLeak =>
        Ok (Leak.findByIdAndUpdate (Leak._id existingLeak) daysOverdue
              (Invoice.balance invoice) s, 0)
    end
  else Ok (s, 0).

Definition detectMissingPayments (w : World) (companyId : Z) (s : Leak.Store)
  : Result * Leak.Store :=
  finish (for_each (missingPayments_body w companyId)
                   (missingPayments_query companyId w) s 0).

(** *** Algorithm 2: under-billing *)

Definition activeContracts_query (companyId : Z) (w : World) : list Contract.t :=
  filter (fun c => (Contract.company c =? companyId)
                   && match Contract.status c with CS_active => true | _ => false end)
         (contracts w).

Definition periodInvoices_query (companyId : Z) (contract : Contract.t)
           (w : World) : list Invoice.t :=
  filter (fun inv => (Invoice.company inv =? companyId)
                     && (Contract.startDate contract <=? Invoice.issueDate inv)
                     && (Invoice.issueDate inv <=? Contract.endDate contract))
         (invoices w).

Definition totalBilled (invs : list Invoice.t) : Q :=
  fold_left (fun sum inv => Js.add sum (Invoice.amount inv)) invs 0%Q.

Definition underBilledAmount (w : World) (companyId : Z) (contract : Contract.t) : Q :=
  Js.sub (calculateExpectedBilling contract)
         (totalBilled (periodInvoices_query companyId contract w)).

Definition underBilledPercent (w : World) (companyId : Z) (contract : Contract.t)
  : Js.jsnum :=
  Js.scale (Js.div (underBilledAmount w companyId contract)
                   (calculateExpectedBilling contract)) 100.

Definition underBilling_literal (companyId : Z) (contract : Contract.t)
           (underBilled : Q) : Leak.input :=
  Leak.mkInput companyId under_billing detected
    (if Js.gt underBilled 10000 then high else medium)
    underBilled "USD" 85 "manual"
    (Leak.mkRef None None None (Some (Contract.contractNumber contract)))
    "Review contract terms and issue corrective invoice"
    None.

Definition underBilling_body (w : World) (companyId : Z)
           (contract : Contract.t) (s : Leak.Store) : Res (Leak.Store * Z) :=
  if Js.gt_num (underBilledPercent w companyId contract) 5 then
    match Leak.findOne_open companyId under_billing Leak.by_contractId
                            (Some (Contract.contractNumber contract)) s with
    | None =>
        create_counted (now w)
          (underBilling_literal companyId contract
             (underBilledAmount w companyId contract)) s
    | Some _ => Ok (s, 0)
    end
  else Ok (s, 0).

Definition detectUnderBilling (w : World) (companyId : Z) (s : Leak.Store)
  : Result * Leak.Store :=
  finish (for_each (underBilling_body w companyId)
                   (activeContracts_query companyId w) s 0).

(** *** Algorithm 3: failed renewals *)

Definition expiredContracts_query (companyId : Z) (w : World) : list Contract.t :=
  let thirtyDaysAgo := now w - 30 * 24 * 60 * 60 * 1000 in
  filter (fun c => (Contract.company c =? companyId)
                   && match Contract.status c with CS_active => true | _ => false end
                   && (thirtyDaysAgo <=? Contract.endDate c)
                   && (Contract.endDate c <=? now w))
         (contracts w).

Definition renewalExists (companyId : Z) (contract : Contract.t) (w : World) : bool :=
  existsb (fun c => (Contract.company c =? companyId)
                    && String.eqb (Contract.clientCompanyName c)
                                  (Contract.clientCompanyName contract)
                    && (Contract.endDate contract <=? Contract.startDate c))
          (contracts w).

Definition failedRenewal_literal (companyId : Z) (contract : Contract.t)
  : Leak.input :=
  Leak.mkInput companyId failed_renewal detected high
    (Contract.baseFee (Contract.pricing contract)) "USD" 70 "manual"
    (Leak.mkRef None None None (Some (Contract.contractNumber contract)))
    "Contact client immediately to discuss renewal terms"
    None.

Definition failedRenewals_body (w : World) (companyId : Z)
           (contract : Contract.t) (s : Leak.Store) : Res (Leak.Store * Z) :=
  if negb (renewalExists companyId contract w) then
    match Leak.findOne_open companyId failed_renewal Leak.by_contractId
                            (Some (Contract.contractNumber contract)) s with
    | None => create_counted (now w) (failedRenewal_literal companyId contract) s
    | Some _ => Ok (s, 0)
    end
  else Ok (s, 0).

Definition detectFailedRenewals (w : World) (companyId : Z) (s : Leak.Store)
  : Result * Leak.Store :=
  finish (for_each (failedRenewals_body w companyId)
                   (expiredContracts_query companyId w) s 0).

(** *** Algorithm 4: aging receivables *)

Definition agingReceivables_query (companyId : Z) (w : World) : list Invoice.t :=
  let sixtyDaysAgo := now w - 60 * 24 * 60 * 60 * 1000 in
  filter (fun inv => (Invoice.company inv =? companyId)
                     && is_receivable (Invoice.status inv)
                     && Js.gt (Invoice.balance inv) 0
                     && (Invoice.dueDate inv <=? sixtyDaysAgo))
         (invoices w).

Definition agingReceivable_literal (companyId : Z) (invoice : Invoice.t)
           (daysAging : Z) : Leak.input :=
  Leak.mkInput companyId uncollected_receivable detected critical
    (Invoice.balance invoice) (Invoice.currency invoice) 90
    (Invoice.sourceSystem invoice)
    (Leak.mkRef (Invoice.invoiceNumber invoice) (Invoice.customerId invoice)
                None None)
    "Immediate escalation to legal/collections team"
    (Some daysAging).

Definition agingReceivables_body (w : World) (companyId : Z)
           (invoice : Invoice.t) (s : Leak.Store) : Res (Leak.Store * Z) :=
  match Leak.findOne_open companyId uncollected_receivable Leak.by_invoiceId
                          (Invoice.invoiceNumber invoice) s with
  | None =>
      let daysAging := Js.floor_div (now w - Invoice.dueDate invoice) day_ms in
      create_counted (now w)
        (agingReceivable_literal companyId invoice daysAging) s
  | Some _ => Ok (s, 0)
  end.

Definition detectAgingReceivables (w : World) (companyId : Z) (s : Leak.Store)
  : Result * Leak.Store :=
  finish (for_each (agingReceivables_body w companyId)
                   (agingReceivables_query companyId w) s 0).

(** *** Orchestration *)

Record Detection : Type := mkDetection {
  returned : Js.value;
  logged : list LogEntry;
  store : Leak.Store
}.

Definition error_log (detector : string) (r : Result) : list LogEntry :=
  match error r with
  | Some m => [error_detection detector m]
  | None => []
  end.

Definition detectLeaks (w : World) (companyId : Z) (s : Leak.Store) : Detection :=
  let '(r1, s1) := detectMissingPayments w companyId s in
  let '(r2, s2) := detectUnderBilling w companyId s1 in
  let '(r3, s3) := detectFailedRenewals w companyId s2 in
  let '(r4, s4) := detectAgingReceivables w companyId s3 in
  let results :=
    Js.Obj [("missingPayments", Result_value r1);
            ("underBilling", Result_value r2);
            ("failedRenewals", Result_value r3);
            ("agingReceivables", Result_value r4)] in
  let totalLeaks :=
    fold_left (fun sum r => sum + count_of r) (Js.values results) 0 in
  mkDetection results
    (info_starting companyId
     :: error_log "Missing payment" r1 ++ error_log "Under-billing" r2
     ++ error_log "Failed renewal" r3 ++ error_log "Aging receivable" r4
     ++ [info_detected_total totalLeaks companyId])
    s4.

(** A sequence of [detectLeaks] calls; each call sees its own snapshot of
    the clock, the invoices and the contracts. *)
Fixpoint detectLeaks_seq (calls : list (World * Z)) (s : Leak.Store) : Leak.Store :=
  match calls with
  | [] => s
  | (w, companyId) :: rest => detectLeaks_seq rest (store (detectLeaks w companyId s))
  end.

End LeakDetection.


(** ** Upsert by key

    [Model.findOneAndUpdate(filter, data, { upsert: true, new: true })] on a
    collection with its id counter: the first document matching the filter
    takes the update; when none matches, a document is built from the
    filter and the schema defaults, takes the update and is appended.  No
    [pre('save')] hook runs on this path. *)

Section FindOneAndUpdate.

Context {Doc Key Upd : Type}.
Variable matches : Key -> Doc -> bool.
Variable apply : Upd -> Doc -> Doc.
Variable fresh : Z -> Key -> Doc.

Fixpoint update_first (k : Key) (u : Upd) (docs : list Doc) : option (list Doc) :=
  match docs with
  | [] => None
  | d :: rest =>
      if matches k d then Some (apply u d :: rest)
      else match update_first k u rest with
           | Some rest' => Some (d :: rest')
           | None => None
           end
  end.

Definition upsert (k : Key) (u : Upd) (c : list Doc * Z) : list Doc * Z :=
  match update_first k u (fst c) with
  | Some docs' => (docs', snd c)
  | None => (fst c ++ [apply u (fresh (snd c) k)], snd c + 1)
  end.

(** A batch of upserts, in order. *)
Definition upsert_all (key_of : Upd -> Key) (us : list Upd) (c : list Doc * Z)
  : list Doc * Z :=
  fold_left (fun acc u => upsert (key_of u) u acc) us c.

End FindOneAndUpdate.

(** ** Wire records of the ledger *)

Module Wire.

(** [CustomerRef], [CurrencyRef], [PaymentMethodRef]. *)
Record Ref : Type := mkRef {
  value : option string;
  name : option string
}.

Definition ref_value (r : option Ref) : option string :=
  match r with Some x => value x | None => None end.

Definition ref_name (r : option Ref) : option string :=
  match r with Some x => name x | None => None end.

Record SalesItemLineDetail : Type := mkDetail {
  Qty : option Q;
  UnitPrice : option Q
}.

Record InvoiceLine : Type := mkInvoiceLine {
  Description : option string;
  Detail : option SalesItemLineDetail;
  Amount : option Q
}.

Record LinkedTxn : Type := mkLinkedTxn {
  TxnId : option string
}.

Record PaymentLine : Type := mkPaymentLine {
  LinkedTxns : option (list LinkedTxn)
}.

End Wire.

(** A wire date is carried as what [new Date(...)] makes of it: [None] is an
    invalid date. *)
Module QbInvoice.

Record t : Type := mk {
  Id : option string;
  DocNumber : option string;
  CustomerRef : option Wire.Ref;
  TotalAmt : option Q;
  CurrencyRef : option Wire.Ref;
  TxnDate : option Z;
  DueDate : option Z;
  Balance : option Q;
  Line : option (list Wire.InvoiceLine)
}.

End QbInvoice.

Module QbPayment.

Record t : Type := mk {
  Id : option string;
  CustomerRef : option Wire.Ref;
  TotalAmt : option Q;
  CurrencyRef : option Wire.Ref;
  TxnDate : option Z;
  PaymentMethodRef : option Wire.Ref;
  PaymentRefNum : option string;
  Line : option (list Wire.PaymentLine)
}.

End QbPayment.

(** ** QuickBooks service *)

Module QuickBooks.

Inductive Endpoint : Type := query_Invoice | query_Payment.

(** [response.data.QueryResponse]. *)
Record QueryResponse : Type := mkResponse {
  Invoice_rows : option (list QbInvoice.t);
  Payment_rows : option (list QbPayment.t)
}.

(** [authResponse.getJson()]. *)
Record Token : Type := mkToken {
  access_token : string;
  refresh_token : string;
  expires_in : option Z
}.

(** The outside world of one call: the clock, the OAuth client, the HTTP
    transport (which may fail, depending on realm and token) and the data
    the ledger holds. *)
Record Env : Type := mkEnv {
  now : Z;
  oauth_refresh : option string -> Res Token;
  transport : option string -> option string -> Endpoint -> option Error;
  ledger : Endpoint -> QueryResponse
}.

(** The three collections and the next fresh ObjectId. *)
Record Db : Type := mkDb {
  companies : list Company.t;
  invoices : list Invoice.t;
  payments : list Payment.t;
  nextId : Z
}.

Record SyncResult : Type := mkSyncResult {
  success : bool;
  count : Z
}.

(** *** Company.findByIdAndUpdate *)

Fixpoint Company_update_by_id (id : Z) (f : Company.QuickBooks -> Company.QuickBooks)
         (l : list Company.t) : list Company.t :=
  match l with
  | [] => []
  | c :: rest =>
      if Company._id c =? id
      then Company.mk (Company._id c) (Company.name c) (f (Company.quickbooks c))
                      (Company.isActive c) :: rest
      else c :: Company_update_by_id id f rest
  end.

Definition set_tokens (a r : string) (expires : Z) (q : Company.QuickBooks)
  : Company.QuickBooks :=
  Company.mkQuickBooks (Company.connected q) (Company.realmId q) (Some a) (Some r)
                       (Some expires) (Company.lastSync q).

Definition set_lastSync (t : Z) (q : Company.QuickBooks) : Company.QuickBooks :=
  Company.mkQuickBooks (Company.connected q) (Company.realmId q)
                       (Company.accessToken q) (Company.refreshToken q)
                       (Company.tokenExpiresAt q) (Some t).

Definition with_companies (cs : list Company.t) (db : Db) : Db :=
  mkDb cs (invoices db) (payments db) (nextId db).

(** *** Token lifecycle *)

(** [refreshAccessToken(company)].  The three token paths go to the store in
    one [findByIdAndUpdate]; its cast rejects an invalid expiry date before
    anything is written. *)
Definition refreshAccessToken (env : Env) (company : Company.t) (db : Db)
  : Res (option string) * Db :=
  let qbConfig := Company.quickbooks company in
  if match Company.tokenExpiresAt qbConfig with
     | Some expires => now env <? expires
     | None => false
     end
  then (Ok (Company.accessToken qbConfig), db)
  else
    match oauth_refresh env (Company.refreshToken qbConfig) with
    | Err e => (Err e, db)
    | Ok token =>
        match expires_in token with
        | None => (Err (CastError "integrations.quickbooks.tokenExpiresAt"), db)
        | Some secs =>
            (Ok (Some (access_token token)),
             with_companies
               (Company_update_by_id (Company._id company)
                  (set_tokens (access_token token) (refresh_token token)
                              (now env + secs * 1000))
                  (companies db)) db)
        end
    end.

(** [makeRequest(company, endpoint)]. *)
Definition makeRequest (env : Env) (company : Company.t) (endpoint : Endpoint)
           (db : Db) : Res QueryResponse * Db :=
  match refreshAccessToken env company db with
  | (Err e, db') => (Err e, db')
  | (Ok accessToken, db') =>
      match transport env (Company.realmId (Company.quickbooks company))
                      accessToken endpoint with
      | Some e => (Err e, db')
      | None => (Ok (ledger env endpoint), db')
      end
  end.

(** *** Mapping helpers *)

Definition mapQBStatus (balance total : option Q) : InvoiceStatus :=
  let bal := Js.parseFloat_or0 balance in
  let tot := Js.parseFloat_or0 total in
  if Js.le bal 0 then IS_paid
  else if Js.lt bal tot then IS_partial
  else IS_sent.

Definition mapPaymentMethod (qbMethod : option string) : PaymentMethod :=
  let method := Js.toLowerCase (match qbMethod with Some m => m | None => "" end) in
  if Js.includes "ach" method || Js.includes "bank" method then ach
  else if Js.includes "wire" method then wire
  else if Js.includes "check" method then check
  else other.

(** *** Invoices *)

(** One element of the [lineItems] literal. *)
Record lineData : Type := mkLineData {
  l_description : option string;
  l_quantity : option Q;
  l_unitPrice : option Q;
  l_amount : Q
}.

(** The [invoiceData] literal. *)
Record invoiceData : Type := mkInvoiceData {
  i_company : Z;
  i_invoiceNumber : option string;
  i_customerId : option string;
  i_customerName : option string;
  i_amount : Q;
  i_currency : string;
  i_issueDate : option Z;
  i_dueDate : option Z;
  i_status : InvoiceStatus;
  i_totalPaid : Js.jsnum;
  i_balance : Q;
  i_sourceSystem : string;
  i_quickbooksId : option string;
  i_lineItems : list lineData
}.

Definition map_line (line : Wire.InvoiceLine) : lineData :=
  mkLineData (Wire.Description line)
    (match Wire.Detail line with Some d => Wire.Qty d | None => None end)
    (match Wire.Detail line with Some d => Wire.UnitPrice d | None => None end)
    (Js.parseFloat_or0 (Wire.Amount line)).

Definition build_invoiceData (company : Company.t) (qbInv : QbInvoice.t)
  : invoiceData :=
  mkInvoiceData
    (Company._id company)
    (QbInvoice.DocNumber qbInv)
    (Wire.ref_value (QbInvoice.CustomerRef qbInv))
    (Wire.ref_name (QbInvoice.CustomerRef qbInv))
    (Js.parseFloat_or0 (QbInvoice.TotalAmt qbInv))
    (Js.or_default (Wire.ref_value (QbInvoice.CurrencyRef qbInv)) "USD")
    (QbInvoice.TxnDate qbInv)
    (QbInvoice.DueDate qbInv)
    (mapQBStatus (QbInvoice.Balance qbInv) (QbInvoice.TotalAmt qbInv))
    (Js.minus (Js.parseFloat (QbInvoice.TotalAmt qbInv))
              (Js.parseFloat_or0 (QbInvoice.Balance qbInv)))
    (Js.parseFloat_or0 (QbInvoice.Balance qbInv))
    "quickbooks"
    (QbInvoice.Id qbInv)
    (map map_line (match QbInvoice.Line qbInv with Some l => l | None => [] end)).

(** The literal after the schema cast of its [Date] and [Number] paths. *)
Record InvoiceSet : Type := mkInvoiceSet {
  is_data : invoiceData;
  is_issueDate : Z;
  is_dueDate : Z;
  is_totalPaid : Q
}.

(** The cast rejects an invalid date and a [NaN]. *)
Definition cast_invoiceData (d : invoiceData) : Res InvoiceSet :=
  match i_issueDate d with
  | None => Err (CastError "issueDate")
  | Some issue =>
      match i_dueDate d with
      | None => Err (CastError "dueDate")
      | Some due =>
          match i_totalPaid d with
          | Js.Fin paid => Ok (mkInvoiceSet d issue due paid)
          | _ => Err (CastError "totalPaid")
          end
      end
  end.

(** The cast of the [lineItems] array makes a subdocument of every element,
    each with a fresh [_id]. *)
Fixpoint number_lines (first : Z) (lines : list lineData) : list Invoice.LineItem :=
  match lines with
  | [] => []
  | l :: rest =>
      Invoice.mkLineItem (l_description l) (l_quantity l) (l_unitPrice l)
                         (l_amount l) first
      :: number_lines (first + 1) rest
  end.

Definition InvoiceKey : Type := (option string * Z)%type.

Definition Invoice_matches (k : InvoiceKey) (d : Invoice.t) : bool :=
  Js.ostring_eqb (Invoice.quickbooksId d) (fst k) && (Invoice.company d =? snd k).

Definition Invoice_key (u : InvoiceSet) : InvoiceKey :=
  (i_quickbooksId (is_data u), i_company (is_data u)).

(** What the update does to a document, at clock [now] and with the line
    ids starting at [first]: the paths of the literal are set (an
    [undefined] one is dropped), [updatedAt] is stamped, all other paths
    stay. *)
Definition Invoice_apply (now first : Z) (u : InvoiceSet) (d : Invoice.t)
  : Invoice.t :=
  let x := is_data u in
  Invoice.mk (Invoice._id d) (i_company x)
    (Js.set_if_defined (i_invoiceNumber x) (Invoice.invoiceNumber d))
    (Js.set_if_defined (i_customerId x) (Invoice.customerId d))
    (Js.set_if_defined (i_customerName x) (Invoice.customerName d))
    (i_amount x) (i_currency x) (is_issueDate u)
    (is_dueDate u) (Invoice.paidDate d) (i_status x)
    (number_lines first (i_lineItems x))
    (is_totalPaid u) (i_balance x) (i_sourceSystem x)
    (Js.set_if_defined (i_quickbooksId x) (Invoice.quickbooksId d))
    (Invoice.reconciled d) (Invoice.notes d) (Invoice.createdAt d) now.

(** The document an upsert starts from: filter fields, schema defaults and
    the [createdAt] stamp. *)
Definition Invoice_fresh (now : Z) (id : Z) (k : InvoiceKey) : Invoice.t :=
  Invoice.mk id (snd k) None None None 0%Q "USD" 0 0 None IS_draft [] 0%Q 0%Q
             "manual" (fst k) false None now now.

Definition with_invoices (c : list Invoice.t * Z) (db : Db) : Db :=
  mkDb (companies db) (fst c) (payments db) (snd c).

(** The unique index on [invoiceNumber]; a document without the path is
    indexed under null.  A write that gives a document a number it did not
    hold before is rejected when some document holds that number. *)
Definition Invoice_number_rejected (existing : option Invoice.t)
           (written : Invoice.t) (docs : list Invoice.t) : bool :=
  let n := Invoice.invoiceNumber written in
  negb (match existing with
        | Some d0 => Js.ostring_eqb (Invoice.invoiceNumber d0) n
        | None => false
        end)
  && existsb (fun e => Js.ostring_eqb (Invoice.invoiceNumber e) n) docs.

(** [Invoice.findOneAndUpdate({quickbooksId, company}, invoiceData,
    {upsert: true, new: true})] at clock [now]. *)
Definition Invoice_findOneAndUpdate (now : Z) (k : InvoiceKey) (d : invoiceData)
           (db : Db) : Res Db :=
  match cast_invoiceData d with
  | Err e => Err e
  | Ok u =>
      let first := nextId db in
      let next := first + Z.of_nat (List.length (i_lineItems d)) in
      let existing := find (Invoice_matches k) (invoices db) in
      let written :=
        Invoice_apply now first u
          (match existing with
           | Some d0 => d0
           | None => Invoice_fresh now next k
           end) in
      if Invoice_number_rejected existing written (invoices db)
      then Err (DuplicateKey "invoiceNumber")
      else Ok (with_invoices
                 (upsert Invoice_matches (Invoice_apply now first)
                         (Invoice_fresh now) k u (invoices db, next)) db)
  end.

Fixpoint syncInvoices_loop (now : Z) (company : Company.t)
         (qbInvoices : list QbInvoice.t) (db : Db) (syncedCount : Z)
  : Db * Res Z :=
  match qbInvoices with
  | [] => (db, Ok syncedCount)
  | qbInv :: rest =>
      match Invoice_findOneAndUpdate now
              (QbInvoice.Id qbInv, Company._id company)
              (build_invoiceData company qbInv) db with
      | Ok db' => syncInvoices_loop now company rest db' (syncedCount + 1)
      | Err e => (db, Err e)
      end
  end.

Definition syncInvoices (env : Env) (company : Company.t) (db : Db)
  : Res SyncResult * Db :=
  match makeRequest env company query_Invoice db with
  | (Err e, db1) => (Err e, db1)
  | (Ok response, db1) =>
      let qbInvoices :=
        match Invoice_rows response with Some l => l | None => [] end in
      match syncInvoices_loop (now env) company qbInvoices db1 0 with
      | (db2, Err e) => (Err e, db2)
      | (db2, Ok syncedCount) =>
          (Ok (mkSyncResult true syncedCount),
           with_companies
             (Company_update_by_id (Company._id company)
                                   (set_lastSync (now env)) (companies db2)) db2)
      end
  end.

(** *** Payments *)

(** The [paymentData] literal; [p_invoiceId] is present only when the linked
    invoice was found. *)
Record paymentData : Type := mkPaymentData {
  p_company : Z;
  p_paymentId : string;
  p_customerId : option string;
  p_customerName : option string;
  p_amount : Q;
  p_currency : string;
  p_paymentDate : option Z;
  p_paymentMethod : PaymentMethod;
  p_status : PaymentStatus;
  p_reference : option string;
  p_sourceSystem : string;
  p_quickbooksId : option string;
  p_invoiceId : option Z
}.

(** [Invoice.findOne({ quickbooksId: linkedInvoiceId })]. *)
Definition Invoice_findOne_by_quickbooksId (linkedInvoiceId : option string)
           (db : Db) : option Invoice.t :=
  find (fun inv => Js.ostring_eqb (Invoice.quickbooksId inv) linkedInvoiceId)
       (invoices db).

(** [if (qbPmt.Line && qbPmt.Line[0]?.LinkedTxn) { ... }]. *)
Definition linked_invoice (qbPmt : QbPayment.t) (db : Db) : option Z :=
  match QbPayment.Line qbPmt with
  | Some (line0 :: _) =>
      match Wire.LinkedTxns line0 with
      | Some txns =>
          let linkedInvoiceId :=
            match txns with
            | txn :: _ => Wire.TxnId txn
            | [] => None
            end in
          match Invoice_findOne_by_quickbooksId linkedInvoiceId db with
          | Some invoice => Some (Invoice._id invoice)
          | None => None
          end
      | None => None
      end
  | _ => None
  end.

Definition build_paymentData (company : Company.t) (qbPmt : QbPayment.t) (db : Db)
  : paymentData :=
  mkPaymentData
    (Company._id company)
    ("QB-" ++ match QbPayment.Id qbPmt with Some i => i | None => "undefined" end)%string
    (Wire.ref_value (QbPayment.CustomerRef qbPmt))
    (Wire.ref_name (QbPayment.CustomerRef qbPmt))
    (Js.parseFloat_or0 (QbPayment.TotalAmt qbPmt))
    (Js.or_default (Wire.ref_value (QbPayment.CurrencyRef qbPmt)) "USD")
    (QbPayment.TxnDate qbPmt)
    (mapPaymentMethod (Wire.ref_name (QbPayment.PaymentMethodRef qbPmt)))
    completed
    (QbPayment.PaymentRefNum qbPmt)
    "quickbooks"
    (QbPayment.Id qbPmt)
    (linked_invoice qbPmt db).

Record PaymentSet : Type := mkPaymentSet {
  ps_data : paymentData;
  ps_paymentDate : Z
}.

Definition cast_paymentData (d : paymentData) : Res PaymentSet :=
  match p_paymentDate d with
  | None => Err (CastError "paymentDate")
  | Some date => Ok (mkPaymentSet d date)
  end.

Definition PaymentKey : Type := (option string * Z)%type.

Definition Payment_matches (k : PaymentKey) (d : Payment.t) : bool :=
  Js.ostring_eqb (Payment.quickbooksId d) (fst k) && (Payment.company d =? snd k).

Definition Payment_key (u : PaymentSet) : PaymentKey :=
  (p_quickbooksId (ps_data u), p_company (ps_data u)).

Definition Payment_apply (now : Z) (u : PaymentSet) (d : Payment.t) : Payment.t :=
  let x := ps_data u in
  Payment.mk (Payment._id d) (p_company x) (p_paymentId x)
    (Js.set_if_defined (p_invoiceId x) (Payment.invoiceId d))
    (Js.set_if_defined (p_customerId x) (Payment.customerId d))
    (Js.set_if_defined (p_customerName x) (Payment.customerName d))
    (p_amount x) (p_currency x)
    (ps_paymentDate u) (Some (p_paymentMethod x)) (p_status x)
    (Js.set_if_defined (p_reference x) (Payment.reference d))
    (Some (p_sourceSystem x))
    (Js.set_if_defined (p_quickbooksId x) (Payment.quickbooksId d))
    (Payment.reconciled d) (Payment.notes d) (Payment.createdAt d) now.

Definition Payment_fresh (now : Z) (id : Z) (k : PaymentKey) : Payment.t :=
  Payment.mk id (snd k) "" None None None 0%Q "USD" 0 None completed None None
             (fst k) false None now now.

Definition with_payments (c : list Payment.t * Z) (db : Db) : Db :=
  mkDb (companies db) (invoices db) (fst c) (snd c).

(** The unique index on [paymentId]. *)
Definition Payment_id_rejected (existing : option Payment.t)
           (written : Payment.t) (docs : list Payment.t) : bool :=
  let n := Payment.paymentId written in
  negb (match existing with
        | Some d0 => String.eqb (Payment.paymentId d0) n
        | None => false
        end)
  && existsb (fun e => String.eqb (Payment.paymentId e) n) docs.

(** [Payment.findOneAndUpdate({quickbooksId, company}, paymentData,
    {upsert: true, new: true})] at clock [now]. *)
Definition Payment_findOneAndUpdate (now : Z) (k : PaymentKey) (d : paymentData)
           (db : Db) : Res Db :=
  match cast_paymentData d with
  | Err e => Err e
  | Ok u =>
      let existing := find (Payment_matches k) (payments db) in
      let written :=
        Payment_apply now u
          (match existing with
           | Some d0 => d0
           | None => Payment_fresh now (nextId db) k
           end) in
      if Payment_id_rejected existing written (payments db)
      then Err (DuplicateKey "paymentId")
      else Ok (with_payments
                 (upsert Payment_matches (Payment_apply now) (Payment_fresh now)
                         k u (payments db, nextId db)) db)
  end.

Fixpoint syncPayments_loop (now : Z) (company : Company.t)
         (qbPayments : list QbPayment.t) (db : Db) (syncedCount : Z)
  : Db * Res Z :=
  match qbPayments with
  | [] => (db, Ok syncedCount)
  | qbPmt :: rest =>
      match Payment_findOneAndUpdate now
              (QbPayment.Id qbPmt, Company._id company)
              (build_paymentData company qbPmt db) db with
      | Ok db' => syncPayments_loop now company rest db' (syncedCount + 1)
      | Err e => (db, Err e)
      end
  end.

Definition syncPayments (env : Env) (company : Company.t) (db : Db)
  : Res SyncResult * Db :=
  match makeRequest env company query_Payment db with
  | (Err e, db1) => (Err e, db1)
  | (Ok response, db1) =>
      let qbPayments :=
        match Payment_rows response with Some l => l | None => [] end in
      match syncPayments_loop (now env) company qbPayments db1 0 with
      | (db2, Err e) => (Err e, db2)
      | (db2, Ok syncedCount) => (Ok (mkSyncResult true syncedCount), db2)
      end
  end.

(** *** Full sync *)

Definition fullSync (env : Env) (company : Company.t) (db : Db)
  : Res (SyncResult * SyncResult) * Db :=
  match syncInvoices env company db with
  | (Err e, db1) => (Err e, db1)
  | (Ok invoices_result, db1) =>
      match syncPayments env company db1 with
      | (Err e, db2) => (Err e, db2)
      | (Ok payments_result, db2) => (Ok (invoices_result, payments_result), db2)
      end
  end.

End QuickBooks.


(** ** Vocabulary of the properties *)

Module Spec.

(** The status rule of the data model, as the specification words it: paid
    if the balance is at most zero; partial if the balance lies strictly
    between zero and the amount and something was paid; overdue if past due
    with a positive balance; otherwise the status is left as it was. *)
Definition derived_status (unchanged : InvoiceStatus) (amount totalPaid balance : Q)
           (dueDate now : Z) : InvoiceStatus :=
  if Js.le balance 0 then IS_paid
  else if Js.lt 0 balance && Js.lt balance amount && Js.gt totalPaid 0 then IS_partial
  else if (dueDate <? now) && Js.gt balance 0 then IS_overdue
  else unchanged.

(** The status an ingestion upsert stores: paid, partial or sent. *)
Definition ingested_status (amount balance : Q) : InvoiceStatus :=
  if Js.le balance 0 then IS_paid
  else if Js.lt balance amount then IS_partial
  else IS_sent.

(** The path of [sourceReference] on which the engine keys each of the leak
    types it produces. *)
Definition path_of (ty : LeakType) : option Leak.RefPath :=
  match ty with
  | missing_payment | uncollected_receivable => Some Leak.by_invoiceId
  | under_billing | failed_renewal => Some Leak.by_contractId
  | _ => None
  end.

(** The dedup key of a leak: tenant, leak type and the source reference the
    detector of that type queries on (the invoice number for the two
    invoice detectors, the contract number for the two contract detectors;
    the whole reference for a type no detector produces). *)
Definition same_dedup_key (a b : Leak.t) : Prop :=
  Leak.company a = Leak.company b
  /\ Leak.leakType a = Leak.leakType b
  /\ match path_of (Leak.leakType a) with
     | Some p => Leak.ref_at p a = Leak.ref_at p b
     | None => Leak.sourceReference a = Leak.sourceReference b
     end.

(** At most one open leak per dedup key. *)
Definition dedup_invariant (s : Leak.Store) : Prop :=
  forall (i j : nat) (a b : Leak.t),
    nth_error (Leak.docs s) i = Some a ->
    nth_error (Leak.docs s) j = Some b ->
    i <> j ->
    Leak.is_open a = true -> Leak.is_open b = true ->
    ~ same_dedup_key a b.

Definition no_open_leaks (s : Leak.Store) : bool :=
  forallb (fun d => negb (Leak.is_open d)) (Leak.docs s).

Definition open_count (c : Z) (ty : LeakType) (p : Leak.RefPath)
           (r : option string) (s : Leak.Store) : nat :=
  List.length (filter (Leak.matches_open c ty p r) (Leak.docs s)).

(** The invariant the guards maintain: per tenant, type and keyed reference
    at most one open leak, and every open leak is of a produced type. *)
Definition guarded (s : Leak.Store) : Prop :=
  (forall c ty p r, path_of ty = Some p -> (open_count c ty p r s <= 1)%nat)
  /\ (forall d, In d (Leak.docs s) -> Leak.is_open d = true ->
                path_of (Leak.leakType d) <> None).

(** [Company.findById]. *)
Definition Company_findById (id : Z) (db : QuickBooks.Db) : option Company.t :=
  find (fun c => Company._id c =? id) (QuickBooks.companies db).

Definition lastSync_of (db : QuickBooks.Db) : list (Z * option Z) :=
  map (fun c => (Company._id c, Company.lastSync (Company.quickbooks c)))
      (QuickBooks.companies db).

(** The sum of the per-detector counts of a returned result object. *)
Definition total_of (results : Js.value) : Z :=
  fold_left (fun sum r => sum + LeakDetection.count_of r) (Js.values results) 0.

(** A returned object carries the total when one of its properties holds
    that number. *)
Definition carries_total (results : Js.value) : Prop :=
  exists k, Js.get k results = Some (Js.Num (total_of results)).

(** The stored expiry lies in the future. *)
Definition expiry_in_future (env : QuickBooks.Env) (company : Company.t) : Prop :=
  exists expires,
    Company.tokenExpiresAt (Company.quickbooks company) = Some expires
    /\ QuickBooks.now env < expires.

(** The credential block after a token rotation. *)
Definition rotated (token : QuickBooks.Token) (expires : Z) (c : Company.t)
  : Company.t :=
  let q := Company.quickbooks c in
  Company.mk (Company._id c) (Company.name c)
    (Company.mkQuickBooks (Company.connected q) (Company.realmId q)
       (Some (QuickBooks.access_token token))
       (Some (QuickBooks.refresh_token token))
       (Some expires) (Company.lastSync q))
    (Company.isActive c).


(** The keyed reference of a literal. *)
Definition ref_in (p : Leak.RefPath) (i : Leak.input) : option string :=
  match p with
  | Leak.by_invoiceId => Leak.invoiceId (Leak.in_sourceReference i)
  | Leak.by_contractId => Leak.contractId (Leak.in_sourceReference i)
  end.

(** The three ways in which a detector body moves the Leak collection: not
    at all, by refreshing aging and amount of one document, or by creating a
    [detected] leak of a produced type after its dedup query found none. *)
Definition guarded_step (s s' : Leak.Store) : Prop :=
  s' = s
  \/ (exists id a amt, s' = Leak.findByIdAndUpdate id a amt s)
  \/ (exists now i p,
        path_of (Leak.in_leakType i) = Some p
        /\ Leak.in_status i = detected
        /\ Leak.findOne_open (Leak.in_company i) (Leak.in_leakType i) p
                             (ref_in p i) s = None
        /\ Leak.create now i s = Ok s').

(** The rows of a ledger answer. *)
Definition invoice_rows (env : QuickBooks.Env) : list QbInvoice.t :=
  match QuickBooks.Invoice_rows (QuickBooks.ledger env QuickBooks.query_Invoice) with
  | Some l => l
  | None => []
  end.

Definition payment_rows (env : QuickBooks.Env) : list QbPayment.t :=
  match QuickBooks.Payment_rows (QuickBooks.ledger env QuickBooks.query_Payment) with
  | Some l => l
  | None => []
  end.

(** A stored invoice without what every ingestion write renews: the
    [updatedAt] stamp and the ids of the line items. *)
Definition line_content (l : Invoice.LineItem) : Invoice.LineItem :=
  Invoice.mkLineItem (Invoice.description l) (Invoice.quantity l)
                     (Invoice.unitPrice l) (Invoice.line_amount l) 0.

Definition Invoice_content (d : Invoice.t) : Invoice.t :=
  Invoice.mk (Invoice._id d) (Invoice.company d) (Invoice.invoiceNumber d)
    (Invoice.customerId d) (Invoice.customerName d) (Invoice.amount d)
    (Invoice.currency d) (Invoice.issueDate d) (Invoice.dueDate d)
    (Invoice.paidDate d) (Invoice.status d)
    (map line_content (Invoice.lineItems d)) (Invoice.totalPaid d)
    (Invoice.balance d) (Invoice.sourceSystem d) (Invoice.quickbooksId d)
    (Invoice.reconciled d) (Invoice.notes d) (Invoice.createdAt d) 0.

(** A stored payment without its [updatedAt] stamp. *)
Definition Payment_content (d : Payment.t) : Payment.t :=
  Payment.mk (Payment._id d) (Payment.company d) (Payment.paymentId d)
    (Payment.invoiceId d) (Payment.customerId d) (Payment.customerName d)
    (Payment.amount d) (Payment.currency d) (Payment.paymentDate d)
    (Payment.paymentMethod d) (Payment.status d) (Payment.reference d)
    (Payment.sourceSystem d) (Payment.quickbooksId d) (Payment.reconciled d)
    (Payment.notes d) (Payment.createdAt d) 0.

(** A mapped path that the ledger row may lack: the row's value if it has
    one, else what was stored before (nothing, in a new document). *)
Definition carried {A B : Type} (row : option A) (before : option B)
           (stored : B -> option A) : option A :=
  match row, before with
  | Some v, _ => Some v
  | None, Some d0 => stored d0
  | None, None => None
  end.

(** The lines of a ledger invoice as stored, ids apart. *)
Definition row_lines (r : QbInvoice.t) : list Invoice.LineItem :=
  map (fun line =>
         Invoice.mkLineItem (Wire.Description line)
           (match Wire.Detail line with Some x => Wire.Qty x | None => None end)
           (match Wire.Detail line with Some x => Wire.UnitPrice x | None => None end)
           (Js.parseFloat_or0 (Wire.Amount line)) 0)
      (match QbInvoice.Line r with Some l => l | None => [] end).

(** What the upsert of the ledger invoice [r] for tenant [c] at clock [now]
    leaves in the document [d] of its key; [before] is the document of that
    key before the write, if there was one, and [free] an ObjectId below
    which no new document lies.  The mapped paths hold the row's values
    (those the row lacks hold what was stored); [updatedAt] is the clock;
    the document id and the paths outside the mapping are the stored ones,
    or the schema defaults in a new document. *)
Definition Invoice_upserted (now c : Z) (r : QbInvoice.t)
           (before : option Invoice.t) (free : Z) (d : Invoice.t) : Prop :=
  Invoice.company d = c
  /\ Invoice.quickbooksId d = QbInvoice.Id r
  /\ Invoice.amount d = Js.parseFloat_or0 (QbInvoice.TotalAmt r)
  /\ Invoice.balance d = Js.parseFloat_or0 (QbInvoice.Balance r)
  /\ Invoice.totalPaid d = Js.round64 (Invoice.amount d - Invoice.balance d)
  /\ Invoice.currency d
     = Js.or_default (Wire.ref_value (QbInvoice.CurrencyRef r)) "USD"
  /\ Some (Invoice.issueDate d) = QbInvoice.TxnDate r
  /\ Some (Invoice.dueDate d) = QbInvoice.DueDate r
  /\ Invoice.status d = ingested_status (Invoice.amount d) (Invoice.balance d)
  /\ Invoice.sourceSystem d = "quickbooks"
  /\ map line_content (Invoice.lineItems d) = row_lines r
  /\ Invoice.updatedAt d = now
  /\ Invoice.invoiceNumber d
     = carried (QbInvoice.DocNumber r) before Invoice.invoiceNumber
  /\ Invoice.customerId d
     = carried (Wire.ref_value (QbInvoice.CustomerRef r)) before Invoice.customerId
  /\ Invoice.customerName d
     = carried (Wire.ref_name (QbInvoice.CustomerRef r)) before Invoice.customerName
  /\ match before with
     | Some d0 =>
         Invoice._id d = Invoice._id d0
         /\ Invoice.paidDate d = Invoice.paidDate d0
         /\ Invoice.reconciled d = Invoice.reconciled d0
         /\ Invoice.notes d = Invoice.notes d0
         /\ Invoice.createdAt d = Invoice.createdAt d0
     | None =>
         free <= Invoice._id d
         /\ Invoice.paidDate d = None
         /\ Invoice.reconciled d = false
         /\ Invoice.notes d = None
         /\ Invoice.createdAt d = now
     end.

(** The same for the ledger payment [r]; [link] is what the lookup of the
    linked invoice gave. *)
Definition Payment_upserted (now c : Z) (r : QbPayment.t) (link : option Z)
           (before : option Payment.t) (free : Z) (d : Payment.t) : Prop :=
  Payment.company d = c
  /\ Payment.quickbooksId d = QbPayment.Id r
  /\ Payment.paymentId d
     = ("QB-" ++ match QbPayment.Id r with Some i => i | None => "undefined" end)%string
  /\ Payment.amount d = Js.parseFloat_or0 (QbPayment.TotalAmt r)
  /\ Payment.currency d
     = Js.or_default (Wire.ref_value (QbPayment.CurrencyRef r)) "USD"
  /\ Some (Payment.paymentDate d) = QbPayment.TxnDate r
  /\ Payment.paymentMethod d
     = Some (QuickBooks.mapPaymentMethod
               (Wire.ref_name (QbPayment.PaymentMethodRef r)))
  /\ Payment.status d = completed
  /\ Payment.sourceSystem d = Some "quickbooks"
  /\ Payment.updatedAt d = now
  /\ Payment.invoiceId d = carried link before Payment.invoiceId
  /\ Payment.customerId d
     = carried (Wire.ref_value (QbPayment.CustomerRef r)) before Payment.customerId
  /\ Payment.customerName d
     = carried (Wire.ref_name (QbPayment.CustomerRef r)) before Payment.customerName
  /\ Payment.reference d
     = carried (QbPayment.PaymentRefNum r) before Payment.reference
  /\ match before with
     | Some d0 =>
         Payment._id d = Payment._id d0
         /\ Payment.reconciled d = Payment.reconciled d0
         /\ Payment.notes d = Payment.notes d0
         /\ Payment.createdAt d = Payment.createdAt d0
     | None =>
         free <= Payment._id d
         /\ Payment.reconciled d = false
         /\ Payment.notes d = None
         /\ Payment.createdAt d = now
     end.

(** The keys under which the rows of a ledger answer are upserted. *)
Definition Invoice_find (c : Z) (r : QbInvoice.t) (db : QuickBooks.Db)
  : option Invoice.t :=
  find (QuickBooks.Invoice_matches (QbInvoice.Id r, c)) (QuickBooks.invoices db).

Definition Payment_find (c : Z) (r : QbPayment.t) (db : QuickBooks.Db)
  : option Payment.t :=
  find (QuickBooks.Payment_matches (QbPayment.Id r, c)) (QuickBooks.payments db).

End Spec.


(** ** Concrete data *)

Module Scenario.

Definition days (n : Z) : Z := n * day_ms.

Definition acme : Company.t :=
  Company.mk 1 "Acme"
    (Company.mkQuickBooks true (Some "realm-1") (Some "access-1")
                          (Some "refresh-1") (Some (days 101)) None)
    true.

Definition expired_acme : Company.t :=
  Company.mk 1 "Acme"
    (Company.mkQuickBooks true (Some "realm-1") (Some "access-1")
                          (Some "refresh-1") (Some (days 99)) None)
    true.

Definition new_token : QuickBooks.Token :=
  QuickBooks.mkToken "access-2" "refresh-2" (Some 3600).

(** A ledger payment of 250 applied to the ledger invoice with id 77. *)
Definition payment_P1 : QbPayment.t :=
  QbPayment.mk (Some "P1") (Some (Wire.mkRef (Some "C7") (Some "Customer 7")))
    (Some 250%Q) None (Some (days 90))
    (Some (Wire.mkRef None (Some "Bank transfer"))) (Some "REF-1")
    (Some [Wire.mkPaymentLine (Some [Wire.mkLinkedTxn (Some "77")])]).

(** A ledger invoice of 1000, nothing paid, due on day 35. *)
Definition invoice_77 : QbInvoice.t :=
  QbInvoice.mk (Some "77") (Some "INV-77")
    (Some (Wire.mkRef (Some "C7") (Some "Customer 7")))
    (Some 1000%Q) None (Some (days 5)) (Some (days 35)) (Some 1000%Q) None.

(** A ledger invoice of 100.1 with an open balance of 0.3, as the doubles
    the wire format gives for them. *)
Definition invoice_drift : QbInvoice.t :=
  QbInvoice.mk (Some "78") (Some "INV-78")
    (Some (Wire.mkRef (Some "C7") (Some "Customer 7")))
    (Some (Js.round64 (1001 # 10))) None (Some (days 5)) (Some (days 35))
    (Some (Js.round64 (3 # 10))) None.

(** The ledger invoice 77 without its document number and customer. *)
Definition invoice_77_bare : QbInvoice.t :=
  QbInvoice.mk (Some "77") None None (Some 1000%Q) None (Some (days 5))
               (Some (days 35)) (Some 1000%Q) None.

(** The ledger invoice 77 with one line. *)
Definition invoice_77_lines : QbInvoice.t :=
  QbInvoice.mk (Some "77") (Some "INV-77")
    (Some (Wire.mkRef (Some "C7") (Some "Customer 7")))
    (Some 1000%Q) None (Some (days 5)) (Some (days 35)) (Some 1000%Q)
    (Some [Wire.mkInvoiceLine (Some "Services")
             (Some (Wire.mkDetail (Some 1%Q) (Some 1000%Q))) (Some 1000%Q)]).

(** A ledger invoice with the given id and document number. *)
Definition numbered (id number : string) : QbInvoice.t :=
  QbInvoice.mk (Some id) (Some number) None (Some 100%Q) None (Some (days 5))
               (Some (days 35)) (Some 100%Q) None.

(** A ledger answer that lists the records 1, 2 and 3 twice each, with
    different document numbers. *)
Definition relisted : list QbInvoice.t :=
  [numbered "1" "A"; numbered "2" "B"; numbered "3" "C"; numbered "2" "D";
   numbered "3" "B"; numbered "1" "E"].

Definition ledger_of (invs : option (list QbInvoice.t))
           (pmts : option (list QbPayment.t)) (ep : QuickBooks.Endpoint)
  : QuickBooks.QueryResponse :=
  match ep with
  | QuickBooks.query_Invoice => QuickBooks.mkResponse invs None
  | QuickBooks.query_Payment => QuickBooks.mkResponse None pmts
  end.

(** Day 100; the token exchange answers [new_token]; the transport works. *)
Definition env_100 (invs : option (list QbInvoice.t))
           (pmts : option (list QbPayment.t)) : QuickBooks.Env :=
  QuickBooks.mkEnv (days 100) (fun _ => Ok new_token) (fun _ _ _ => None)
                   (ledger_of invs pmts).

(** The next day. *)
Definition env_101 (invs : option (list QbInvoice.t))
           (pmts : option (list QbPayment.t)) : QuickBooks.Env :=
  QuickBooks.mkEnv (days 101) (fun _ => Ok new_token) (fun _ _ _ => None)
                   (ledger_of invs pmts).

(** The same day with a failing token exchange. *)
Definition env_100_revoked : QuickBooks.Env :=
  QuickBooks.mkEnv (days 100) (fun _ => Err AuthError) (fun _ _ _ => None)
                   (ledger_of None None).

(** Another tenant (id 2) owns a stored invoice whose ledger id is 77. *)
Definition foreign_invoice : Invoice.t :=
  Invoice.mk 500 2 (Some "INV-500") None None 400%Q "USD" (days 1) (days 31)
             None IS_sent [] 0%Q 400%Q "quickbooks" (Some "77") false None
             (days 1) (days 1).

Definition db_acme : QuickBooks.Db :=
  QuickBooks.mkDb [acme] [] [] 1000.

Definition db_foreign : QuickBooks.Db :=
  QuickBooks.mkDb [acme] [foreign_invoice] [] 1000.

(** What the ingestion stores for [invoice_77] on day 100 in a store
    without it. *)
Definition stored_77 : Invoice.t :=
  Invoice.mk 1000 1 (Some "INV-77") (Some "C7") (Some "Customer 7") 1000%Q "USD"
             (days 5) (days 35) None IS_sent [] (1000 - 1000)%Q 1000%Q
             "quickbooks" (Some "77") false None (days 100) (days 100).

(** An invoice of 1 on which 1e-30 was paid, not yet due on day 10. *)
Definition invoice_dust : Invoice.t :=
  Invoice.mk 404 1 (Some "INV-1") (Some "C7") (Some "Customer 7") 1%Q "USD"
             (days 5) (days 35) None IS_sent [] (Js.round64 (1 # 10 ^ 30)) 1%Q
             "manual" None false None (days 5) (days 5).

Definition no_leaks : Leak.Store := Leak.mkStore [] 1.

(** Scenario B: a monthly contract with base fee 1000 over 90 days, two
    invoices of 1000 issued inside the period. *)
Definition contract_B : Contract.t :=
  Contract.mk 300 1 "CT-1" "Client A" CS_active (days 0) (days 90)
              (Contract.mkPricing 1000%Q 10%Q) monthly.

Definition billed (id : Z) (number : string) (issued : Z) : Invoice.t :=
  Invoice.mk id 1 (Some number) (Some "C1") (Some "Client A") 1000%Q "USD"
             issued (issued + days 30) (Some (issued + days 10)) IS_paid []
             1000%Q 0%Q "quickbooks" None false None issued issued.

Definition world_B : LeakDetection.World :=
  LeakDetection.mkWorld (days 80)
    [billed 401 "INV-1" (days 1); billed 402 "INV-2" (days 31)] [contract_B].

(** Scenario E: a yearly contract with fee 3000 and three invoices whose
    decimal amounts, 1421.06, 1229.30 and 199.64, add up to 2850: 5% short
    of the fee, to the cent. *)
Definition contract_E : Contract.t :=
  Contract.mk 302 1 "CT-3" "Client A" CS_active (days 0) (days 90)
              (Contract.mkPricing 3000%Q 10%Q) annually.

Definition billed_E (id : Z) (number : string) (issued : Z) (amount : Q)
  : Invoice.t :=
  Invoice.mk id 1 (Some number) (Some "C1") (Some "Client A") amount "USD"
             issued (issued + days 30) (Some (issued + days 10)) IS_paid []
             amount 0%Q "quickbooks" None false None issued issued.

Definition world_E : LeakDetection.World :=
  LeakDetection.mkWorld (days 80)
    [billed_E 411 "INV-11" (days 1) (Js.round64 (142106 # 100));
     billed_E 412 "INV-12" (days 31) (Js.round64 (122930 # 100));
     billed_E 413 "INV-13" (days 61) (Js.round64 (19964 # 100))]
    [contract_E].

(** Scenario C: a ledger invoice with balance 2000, 65 days past due. *)
Definition invoice_C (sourceSystem : string) : Invoice.t :=
  Invoice.mk 403 1 (Some "INV-42") (Some "C2") (Some "Client B") 2000%Q "USD"
             (days 5) (days 35) None IS_sent [] 0%Q 2000%Q sourceSystem
             (Some "42") false None (days 5) (days 5).

Definition world_C (sourceSystem : string) : LeakDetection.World :=
  LeakDetection.mkWorld (days 100) [invoice_C sourceSystem] [].

(** The leak the aging-receivables detector stores for [invoice_C]. *)
Definition leak_C (id : Z) : Leak.t :=
  Leak.mk id 1 uncollected_receivable detected critical 2000%Q "USD" 90
          (Some "quickbooks") (Leak.mkRef (Some "INV-42") (Some "C2") None None)
          (days 100) 0 (Some "Immediate escalation to legal/collections team")
          0%Q.

(** A closed (recovered) missing-payment leak for the same invoice. *)
Definition recovered_leak : Leak.t :=
  Leak.mk 1 1 missing_payment recovered high 2000%Q "USD" 90
          (Some "quickbooks") (Leak.mkRef (Some "INV-42") (Some "C2") None None)
          (days 40) 0 (Some "Send payment reminder and follow up with customer")
          2000%Q.

Definition store_recovered : Leak.Store := Leak.mkStore [recovered_leak] 2.

(** An open under-billing leak for contract CT-1, entered by an analyst. *)
Definition open_underbilling : Leak.t :=
  Leak.mk 1 1 under_billing investigating medium 1000%Q "USD" 85
          (Some "manual_upload") (Leak.mkRef None None None (Some "CT-1"))
          (days 60) 0 (Some "Review contract terms and issue corrective invoice")
          0%Q.

Definition store_underbilled : Leak.Store := Leak.mkStore [open_underbilling] 2.

End Scenario.


(** ** OAuth callback *)

Module Connect.

Definition set_connection (realmId : option string) (a r : string) (expires t : Z)
           (q : Company.QuickBooks) : Company.QuickBooks :=
  Company.mkQuickBooks true (Js.set_if_defined realmId (Company.realmId q))
                       (Some a) (Some r) (Some expires) (Some t).

(** [handleCallback(code, realmId, companyId)]; [createToken] is the
    authorization-code exchange of the OAuth client.  The six paths go to
    the store in one [findByIdAndUpdate]. *)
Definition handleCallback (now : Z) (createToken : string -> Res QuickBooks.Token)
           (code : string) (realmId : option string) (companyId : Z)
           (db : QuickBooks.Db) : Res bool * QuickBooks.Db :=
  match createToken code with
  | Err e => (Err e, db)
  | Ok token =>
      match QuickBooks.expires_in token with
      | None => (Err (CastError "integrations.quickbooks.tokenExpiresAt"), db)
      | Some secs =>
          (Ok true,
           QuickBooks.with_companies
             (QuickBooks.Company_update_by_id companyId
                (set_connection realmId (QuickBooks.access_token token)
                   (QuickBooks.refresh_token token) (now + secs * 1000) now)
                (QuickBooks.companies db)) db)
      end
  end.

End Connect.

(** ** Role-based access control middleware *)

Module Rbac.

Definition admin_permissions : list string := ["*"].

Definition finance_manager_permissions : list string :=
  ["dashboard:view"; "dashboard:export";
   "leaks:view"; "leaks:create"; "leaks:update"; "leaks:delete";
   "recovery:view"; "recovery:create"; "recovery:update"; "recovery:assign";
   "contracts:view"; "contracts:create"; "contracts:update";
   "billing:view"; "billing:create"; "billing:update";
   "reports:view"; "reports:export";
   "users:view";
   "integrations:view"; "integrations:sync"].

Definition analyst_permissions : list string :=
  ["dashboard:view";
   "leaks:view"; "leaks:create";
   "recovery:view"; "recovery:update";
   "contracts:view";
   "billing:view";
   "reports:view"].

(** The property names every object literal inherits; under such a name
    [PERMISSIONS[userRole]] is a function or the prototype object, not an
    array. *)
Definition inherited_names : list string :=
  ["constructor"; "__proto__"; "hasOwnProperty"; "isPrototypeOf";
   "propertyIsEnumerable"; "toLocaleString"; "toString"; "valueOf";
   "__defineGetter__"; "__defineSetter__"; "__lookupGetter__";
   "__lookupSetter__"].

(** [array.includes(x)] on strings. *)
Definition includes (x : string) (l : list string) : bool :=
  existsb (String.eqb x) l.

Inductive Lookup : Type :=
| an_array (l : list string)
| not_an_array
| undefined.

(** [PERMISSIONS[userRole]]. *)
Definition PERMISSIONS (userRole : string) : Lookup :=
  if String.eqb userRole "admin" then an_array admin_permissions
  else if String.eqb userRole "finance_manager" then an_array finance_manager_permissions
  else if String.eqb userRole "analyst" then an_array analyst_permissions
  else if includes userRole inherited_names then not_an_array
  else undefined.

(** A call either returns or throws a [TypeError]. *)
Inductive Outcome (A : Type) : Type :=
| Returns (a : A)
| Throws.

Arguments Returns {A} a.
Arguments Throws {A}.

(** [hasPermission(userRole, requiredPermission)]. *)
Definition hasPermission (userRole requiredPermission : string) : Outcome bool :=
  match PERMISSIONS userRole with
  | an_array rolePermissions =>
      if includes "*" rolePermissions then Returns true
      else Returns (includes requiredPermission rolePermissions)
  | undefined => Returns (includes requiredPermission [])
  | not_an_array => Throws
  end.

(** [req.user], with the populated company ([None]: no company document). *)
Record User : Type := mkUser {
  role : string;
  email : string;
  company_id : option string
}.

(** What the middleware reads of a request; [body] is [None] when no body
    parser ran. *)
Record Request : Type := mkRequest {
  user : option User;
  params_companyId : option string;
  body : option (option string);
  query_company : option string
}.

Inductive Response : Type :=
| next
| status (code : Z)
| throws.

(** [requiredPermissions.some(permission => hasPermission(userRole,
    permission))]: left to right, stopping at the first hit. *)
Fixpoint some_permission (userRole : string) (requiredPermissions : list string)
  : Outcome bool :=
  match requiredPermissions with
  | [] => Returns false
  | permission :: rest =>
      match hasPermission userRole permission with
      | Returns true => Returns true
      | Returns false => some_permission userRole rest
      | Throws => Throws
      end
  end.

(** [authorize(...requiredPermissions)(req, res, next)]. *)
Definition authorize (requiredPermissions : list string) (req : Request) : Response :=
  match user req with
  | None => status 401
  | Some u =>
      match some_permission (role u) requiredPermissions with
      | Returns true => next
      | Returns false => status 403
      | Throws => throws
      end
  end.

(** [requireRole(...allowedRoles)(req, res, next)]. *)
Definition requireRole (allowedRoles : list string) (req : Request) : Response :=
  match user req with
  | None => status 401
  | Some u => if includes (role u) allowedRoles then next else status 403
  end.

Definition truthy (s : option string) : bool :=
  match s with
  | Some x => negb (String.eqb x "")
  | None => false
  end.

(** [sameCompany(req, res, next)].  The chain
    [req.params.companyId || req.body.company || req.query.company] reads
    [req.body] only when the params carry no company id. *)
Definition sameCompany (req : Request) : Response :=
  match user req with
  | None => status 401
  | Some u =>
      if String.eqb (role u) "admin" then next
      else
        let chain :=
          if truthy (params_companyId req) then Returns (params_companyId req)
          else match body req with
               | None => Throws
               | Some body_company =>
                   if truthy body_company then Returns body_company
                   else Returns (query_company req)
               end in
        match chain with
        | Throws => throws
        | Returns resourceCompanyId =>
            if truthy resourceCompanyId then
              match company_id u with
              | None => throws
              | Some own =>
                  if negb (Js.ostring_eqb resourceCompanyId (Some own))
                  then status 403 else next
              end
            else next
        end
  end.

End Rbac.

(** ** Authentication middleware *)

Module AuthMiddleware.

(** [jwt.verify(token, secret)]: the decoded payload with its [userId], or
    one of the errors the [catch] block tells apart by name. *)
Inductive Verified : Type :=
| decoded (userId : option string)
| JsonWebTokenError
| TokenExpiredError
| other_error.

(** The user document; [locked] is what [user.isLocked()] answers. *)
Record User : Type := mkUser {
  _id : string;
  isActive : bool;
  locked : bool
}.

(** [User.findById(id)...]: a document, [null], or a rejected query. *)
Inductive Found : Type :=
| found (u : User)
| not_found
| query_failed.

Record Deps : Type := mkDeps {
  jwt_verify : string -> Verified;
  User_findById : option string -> Found
}.

Inductive Response : Type :=
| next (req_user : option User)
| json (status : Z) (message : string).

(** [s.split(' ')]. *)
Fixpoint split_spaces (s : string) : list string :=
  match s with
  | EmptyString => [EmptyString]
  | String c rest =>
      if Ascii.eqb c " "%char then EmptyString :: split_spaces rest
      else match split_spaces rest with
           | [] => [String c EmptyString]
           | first :: others => String c first :: others
           end
  end.

(** [authHeader.split(' ')[1]]; [jwt.verify] rejects a missing token. *)
Definition token_of (authHeader : string) : option string :=
  nth_error (split_spaces authHeader) 1.

Definition verify (deps : Deps) (token : option string) : Verified :=
  match token with
  | Some t => jwt_verify deps t
  | None => JsonWebTokenError
  end.

Definition has_bearer (authHeader : option string) : bool :=
  match authHeader with
  | Some h => negb (String.eqb h "") && String.prefix "Bearer " h
  | None => false
  end.

(** [authenticate(req, res, next)]. *)
Definition authenticate (deps : Deps) (authHeader : option string) : Response :=
  match authHeader with
  | Some h =>
      if has_bearer authHeader then
        match verify deps (token_of h) with
        | decoded userId =>
            match User_findById deps userId with
            | found user =>
                if negb (isActive user) then
                  json 403 "Your account has been deactivated. Please contact support."
                else if locked user then
                  json 403 "Your account is locked due to multiple failed login attempts."
                else next (Some user)
            | not_found => json 401 "User not found. Please login again."
            | query_failed => json 500 "Authentication failed."
            end
        | JsonWebTokenError => json 401 "Invalid token. Please login again."
        | TokenExpiredError => json 401 "Token expired. Please login again."
        | other_error => json 500 "Authentication failed."
        end
      else json 401 "No token provided. Please login."
  | None => json 401 "No token provided. Please login."
  end.

(** [optionalAuth(req, res, next)] on a request without a user yet. *)
Definition optionalAuth (deps : Deps) (authHeader : option string) : Response :=
  match authHeader with
  | Some h =>
      if has_bearer authHeader then
        match verify deps (token_of h) with
        | decoded userId =>
            match User_findById deps userId with
            | found user => if isActive user then next (Some user) else next None
            | _ => next None
            end
        | _ => next None
        end
      else next None
  | None => next None
  end.

End AuthMiddleware.

(** ** Vocabulary of the further properties *)

Module Passes.

(** Two Leak collections answer every dedup query of one leak type with the
    same number of open leaks. *)
Definition same_open (ty : LeakType) (s t : Leak.Store) : Prop :=
  forall c p r, Spec.open_count c ty p r s = Spec.open_count c ty p r t.

(** A step that adds no document and changes no dedup query's answer. *)
Definition quiet (s s' : Leak.Store) : Prop :=
  List.length (Leak.docs s') = List.length (Leak.docs s)
  /\ forall c ty p r, Spec.open_count c ty p r s' = Spec.open_count c ty p r s.

(** The common shape of the four detector bodies: a candidate is either
    passed over, or handled under one dedup key of the detector's type: with
    no open leak under the key the literal goes to [Leak.create], with one
    the step is quiet. *)
Definition keyed_body {A : Type} (c : Z) (ty : LeakType) (p : Leak.RefPath)
           (now : Z) (body : A -> Leak.Store -> Res (Leak.Store * Z)) : Prop :=
  forall x,
    (forall s, body x s = Ok (s, 0))
    \/ exists r i,
         Leak.in_company i = c /\ Leak.in_leakType i = ty
         /\ Spec.ref_in p i = r /\ Leak.in_status i = detected
         /\ forall s,
              (Leak.findOne_open c ty p r s = None ->
               body x s = LeakDetection.create_counted now i s)
              /\ (Leak.findOne_open c ty p r s <> None ->
                  exists s', body x s = Ok (s', 0) /\ quiet s s').

(** Every stored leak has an id below the id counter. *)
Definition ids_below (s : Leak.Store) : Prop :=
  forall d, In d (Leak.docs s) -> Leak._id d < Leak.nextId s.

(** The leak the missing-payment detector stores for an invoice. *)
Definition missingPayment_leak (now id companyId : Z) (invoice : Invoice.t)
           (daysOverdue aging : Z) : Leak.t :=
  Leak.mk id companyId missing_payment detected
    (LeakDetection.calculatePriority (Invoice.balance invoice) daysOverdue)
    (Invoice.balance invoice) (Invoice.currency invoice)
    (LeakDetection.calculateConfidence missing_payment daysOverdue)
    (Some (Invoice.sourceSystem invoice))
    (Leak.mkRef (Invoice.invoiceNumber invoice) (Invoice.customerId invoice)
                None None)
    now aging
    (Some (if 60 <? daysOverdue
           then "Escalate to collections or legal team"
           else "Send payment reminder and follow up with customer"))
    0%Q.

(** A wire field is present. *)
Definition is_some {A : Type} (o : option A) : bool :=
  match o with Some _ => true | None => false end.

(** The documents of the other tenants. *)
Definition foreign_invoice (companyId : Z) (d : Invoice.t) : bool :=
  negb (Invoice.company d =? companyId).

Definition foreign_payment (companyId : Z) (d : Payment.t) : bool :=
  negb (Payment.company d =? companyId).

(** A string without a space character. *)
Fixpoint no_space (s : string) : bool :=
  match s with
  | EmptyString => true
  | String c rest => negb (Ascii.eqb c " "%char) && no_space rest
  end.

(** A stored document on which the upsert of a ledger row changes nothing
    but what every write renews. *)
Definition Invoice_settled (company : Company.t) (r : QbInvoice.t)
           (d : Invoice.t) : Prop :=
  exists u,
    QuickBooks.cast_invoiceData (QuickBooks.build_invoiceData company r) = Ok u
    /\ Spec.Invoice_content (QuickBooks.Invoice_apply 0 0 u d)
       = Spec.Invoice_content d.

Definition Payment_settled (company : Company.t) (r : QbPayment.t)
           (db : QuickBooks.Db) (d : Payment.t) : Prop :=
  exists u,
    QuickBooks.cast_paymentData (QuickBooks.build_paymentData company r db) = Ok u
    /\ Spec.Payment_content (QuickBooks.Payment_apply 0 u d)
       = Spec.Payment_content d.

End Passes.


(** * Properties *)

(** ** Comparisons *)

Lemma Js_gt_true (a b : Q) : Js.gt a b = true <-> (b < a)%Q.
Proof.
  unfold Js.gt. rewrite negb_true_iff.
  split; intros H.
  - apply Qnot_le_lt. intros Hle. apply Qle_bool_iff in Hle. congruence.
  - destruct (Qle_bool a b) eqn:E; [|reflexivity].
    apply Qle_bool_iff in E. exfalso. exact (Qlt_not_le _ _ H E).
Qed.

Lemma Js_gt_false (a b : Q) : Js.gt a b = false <-> (a <= b)%Q.
Proof.
  unfold Js.gt. rewrite negb_false_iff. apply Qle_bool_iff.
Qed.

Lemma Js_le_true (a b : Q) : Js.le a b = true <-> (a <= b)%Q.
Proof. apply Qle_bool_iff. Qed.

Lemma Js_lt_true (a b : Q) : Js.lt a b = true <-> (a < b)%Q.
Proof. unfold Js.lt. apply (Js_gt_true b a). Qed.

Lemma Js_gt_mono (a a' k : Q) :
  (a <= a')%Q -> Js.gt a k = true -> Js.gt a' k = true.
Proof.
  rewrite !Js_gt_true. intros Hle Hlt. eapply Qlt_le_trans; eauto.
Qed.

Lemma Z_gt_mono (d d' k : Z) : d <= d' -> (k <? d) = true -> (k <? d') = true.
Proof. rewrite !Z.ltb_lt. lia. Qed.

(** ** Rounding to the nearest double *)

Section Rounding.



Local Open Scope Q_scope.





End Rounding.

(** ** Scoring *)

Module Scoring.

Import LeakDetection.

Ltac absurd_threshold :=
  repeat match goal with
         | H : true = true -> false = true |- _ =>
             specialize (H eq_refl); discriminate H
         end.

Lemma calculatePriority_mono (a a' : Q) (d d' : Z) :
  (a <= a')%Q -> d <= d' ->
  Priority_le (calculatePriority a d) (calculatePriority a' d').
Proof.
  intros Ha Hd.
  pose proof (Js_gt_mono a a' 50000 Ha) as A1.
  pose proof (Js_gt_mono a a' 10000 Ha) as A2.
  pose proof (Js_gt_mono a a' 5000 Ha) as A3.
  pose proof (Z_gt_mono d d' 90 Hd) as D1.
  pose proof (Z_gt_mono d d' 60 Hd) as D2.
  pose proof (Z_gt_mono d d' 30 Hd) as D3.
  unfold calculatePriority, Priority_le.
  destruct (Js.gt a 50000), (Js.gt a' 50000), (90 <? d), (90 <? d');
    cbn [orb]; try (cbn; lia); absurd_threshold;
  destruct (Js.gt a 10000), (Js.gt a' 10000), (60 <? d), (60 <? d');
    cbn [orb]; try (cbn; lia); absurd_threshold;
  destruct (Js.gt a 5000), (Js.gt a' 5000), (30 <? d), (30 <? d');
    cbn [orb]; try (cbn; lia); absurd_threshold.
Qed.

Lemma calculateConfidence_mono (ty : LeakType) (d d' : Z) :
  d <= d' -> calculateConfidence ty d <= calculateConfidence ty d'.
Proof.
  intros Hd. unfold calculateConfidence.
  repeat match goal with
         | |- context [?k <? ?x] => destruct (Z.ltb_spec k x)
         end; lia.
Qed.

(** C9. The scoring helpers are monotone: raising the amount (days fixed) or
    the day count (amount fixed) never lowers [calculatePriority] in the
    order low < medium < high < critical, and raising the day count never
    lowers [calculateConfidence]. *)
Theorem scoring_monotone (ty : LeakType) (a a' : Q) (d d' : Z) :
  (0 <= a)%Q -> (a <= a')%Q -> d <= d' ->
  Priority_le (calculatePriority a d) (calculatePriority a' d)
  /\ Priority_le (calculatePriority a d) (calculatePriority a d')
  /\ calculateConfidence ty d <= calculateConfidence ty d'.
Proof.
  intros _ Ha Hd. repeat split.
  - apply calculatePriority_mono; [exact Ha | lia].
  - apply calculatePriority_mono; [apply Qle_refl | exact Hd].
  - apply calculateConfidence_mono; exact Hd.
Qed.

Lemma scoring_monotone_witness :
  Priority_le (calculatePriority 4000 20) (calculatePriority 12000 20)
  /\ Priority_le (calculatePriority 4000 20) (calculatePriority 4000 61)
  /\ calculateConfidence missing_payment 20 <= calculateConfidence missing_payment 61.
Proof.
  apply (scoring_monotone missing_payment 4000 12000 20 61).
  - discriminate.
  - discriminate.
  - lia.
Defined.

End Scoring.

(** ** Token lifecycle *)

Module TokenLifecycle.

Import QuickBooks.

Lemma findById_update_same (id : Z) (f : Company.QuickBooks -> Company.QuickBooks)
      (l : list Company.t) (c0 : Company.t) :
  find (fun c => Company._id c =? id) l = Some c0 ->
  find (fun c => Company._id c =? id) (Company_update_by_id id f l)
  = Some (Company.mk (Company._id c0) (Company.name c0)
                     (f (Company.quickbooks c0)) (Company.isActive c0)).
Proof.
  induction l as [|c l IH]; cbn [find Company_update_by_id]; [discriminate|].
  destruct (Company._id c =? id) eqn:E; intros H.
  - injection H as <-. cbn [find Company._id]. rewrite E. reflexivity.
  - cbn [find]. rewrite E. apply IH, H.
Qed.

Lemma findById_update_other (id id' : Z)
      (f : Company.QuickBooks -> Company.QuickBooks) (l : list Company.t) :
  id' <> id ->
  find (fun c => Company._id c =? id') (Company_update_by_id id f l)
  = find (fun c => Company._id c =? id') l.
Proof.
  intros Hne. induction l as [|c l IH]; cbn [find Company_update_by_id]; [reflexivity|].
  destruct (Company._id c =? id) eqn:E.
  - cbn [find Company._id]. apply Z.eqb_eq in E.
    destruct (Z.eqb_spec (Company._id c) id'); [congruence | reflexivity].
  - cbn [find]. rewrite IH. reflexivity.
Qed.

Lemma not_in_future (env : Env) (company : Company.t) :
  ~ Spec.expiry_in_future env company ->
  match Company.tokenExpiresAt (Company.quickbooks company) with
  | Some expires => now env <? expires
  | None => false
  end = false.
Proof.
  intros H. destruct (Company.tokenExpiresAt (Company.quickbooks company)) as [e|] eqn:E;
    [|reflexivity].
  destruct (Z.ltb_spec (now env) e); [|reflexivity].
  exfalso. apply H. exists e. split; [exact E | assumption].
Qed.

(** C7. [refreshAccessToken]: a token whose stored expiry is in the future
    is returned and nothing is written; otherwise a successful exchange
    stores access token, refresh token and expiry [now + expires_in] on the
    tenant's document in one update (every other document and collection is
    untouched) and returns the new access token; a failed exchange returns
    its error and leaves the store as it was. *)
Theorem refreshAccessToken_contract (env : Env) (company : Company.t) (db : Db) :
  (Spec.expiry_in_future env company ->
     refreshAccessToken env company db
     = (Ok (Company.accessToken (Company.quickbooks company)), db))
  /\ (~ Spec.expiry_in_future env company ->
      forall token secs,
        oauth_refresh env (Company.refreshToken (Company.quickbooks company)) = Ok token ->
        expires_in token = Some secs ->
        exists db',
          refreshAccessToken env company db = (Ok (Some (access_token token)), db')
          /\ invoices db' = invoices db
          /\ payments db' = payments db
          /\ nextId db' = nextId db
          /\ (forall c0, Spec.Company_findById (Company._id company) db = Some c0 ->
                Spec.Company_findById (Company._id company) db'
                = Some (Spec.rotated token (now env + secs * 1000) c0))
          /\ (forall id, id <> Company._id company ->
                Spec.Company_findById id db' = Spec.Company_findById id db))
  /\ (~ Spec.expiry_in_future env company ->
      forall e,
        oauth_refresh env (Company.refreshToken (Company.quickbooks company)) = Err e ->
        refreshAccessToken env company db = (Err e, db)).
Proof.
  repeat split.
  - intros [expires [E Hlt]]. unfold refreshAccessToken. rewrite E.
    apply Z.ltb_lt in Hlt. rewrite Hlt. reflexivity.
  - intros Hexp token secs Htok Hsecs.
    unfold refreshAccessToken. rewrite (not_in_future _ _ Hexp), Htok, Hsecs.
    eexists. split; [reflexivity|].
    repeat split.
    + intros c0 Hc0. unfold Spec.Company_findById in *. cbn [companies with_companies].
      rewrite (findById_update_same _ _ _ _ Hc0). reflexivity.
    + intros id Hid. unfold Spec.Company_findById. cbn [companies with_companies].
      apply findById_update_other, Hid.
  - intros Hexp e Herr.
    unfold refreshAccessToken. rewrite (not_in_future _ _ Hexp), Herr. reflexivity.
Qed.

Lemma expired_acme_not_in_future (invs : option (list QbInvoice.t))
      (pmts : option (list QbPayment.t)) :
  ~ Spec.expiry_in_future (Scenario.env_100 invs pmts) Scenario.expired_acme.
Proof.
  intros [e [E H]]. cbn in E. injection E as <-. cbn in H.
  unfold Scenario.days, day_ms in H. lia.
Qed.

Lemma refreshAccessToken_contract_witness :
  refreshAccessToken (Scenario.env_100 None None) Scenario.acme Scenario.db_acme
  = (Ok (Some "access-1"), Scenario.db_acme)
  /\ (exists db',
        refreshAccessToken (Scenario.env_100 None None) Scenario.expired_acme
                           Scenario.db_acme
        = (Ok (Some "access-2"), db')
        /\ Spec.Company_findById 1 db'
           = Some (Spec.rotated Scenario.new_token
                     (Scenario.days 100 + 3600 * 1000) Scenario.acme))
  /\ refreshAccessToken Scenario.env_100_revoked Scenario.expired_acme
                        Scenario.db_acme
     = (Err AuthError, Scenario.db_acme).
Proof.
  split; [|split].
  - apply (refreshAccessToken_contract (Scenario.env_100 None None) Scenario.acme
                                       Scenario.db_acme).
    exists (Scenario.days 101). split; [reflexivity|].
    cbn. unfold Scenario.days, day_ms. lia.
  - destruct (refreshAccessToken_contract (Scenario.env_100 None None)
                Scenario.expired_acme Scenario.db_acme) as [_ [H _]].
    destruct (H (expired_acme_not_in_future None None) Scenario.new_token 3600
                eq_refl eq_refl) as [db' [E [_ [_ [_ [Hc _]]]]]].
    exists db'. split; [exact E|].
    exact (Hc Scenario.acme eq_refl).
  - apply (refreshAccessToken_contract Scenario.env_100_revoked
                                       Scenario.expired_acme Scenario.db_acme).
    + intros [e [E H]]. cbn in E. injection E as <-. cbn in H.
      unfold Scenario.days, day_ms in H. lia.
    + reflexivity.
Defined.

(** A malformed token response (no [expires_in]) is rejected by the cast of
    the update: nothing is written. *)
Lemma refreshAccessToken_malformed (env : Env) (company : Company.t) (db : Db)
      (token : Token) :
  ~ Spec.expiry_in_future env company ->
  oauth_refresh env (Company.refreshToken (Company.quickbooks company)) = Ok token ->
  expires_in token = None ->
  snd (refreshAccessToken env company db) = db.
Proof.
  intros Hexp Htok Hnone. unfold refreshAccessToken.
  rewrite (not_in_future _ _ Hexp), Htok, Hnone. reflexivity.
Qed.

(** Whatever happens, a call touches neither the invoices, the payments, the
    id counter nor any [lastSync] marker. *)
Lemma lastSync_update_tokens (id : Z) (a r : string) (x : Z) (l : list Company.t) :
  map (fun c => (Company._id c, Company.lastSync (Company.quickbooks c)))
      (Company_update_by_id id (set_tokens a r x) l)
  = map (fun c => (Company._id c, Company.lastSync (Company.quickbooks c))) l.
Proof.
  induction l as [|c l IH]; cbn [map Company_update_by_id]; [reflexivity|].
  destruct (Company._id c =? id); cbn [map]; [reflexivity|].
  rewrite IH. reflexivity.
Qed.

Lemma refreshAccessToken_frame (env : Env) (company : Company.t) (db : Db) :
  let db' := snd (refreshAccessToken env company db) in
  invoices db' = invoices db /\ payments db' = payments db
  /\ nextId db' = nextId db /\ Spec.lastSync_of db' = Spec.lastSync_of db.
Proof.
  unfold refreshAccessToken.
  destruct (match Company.tokenExpiresAt (Company.quickbooks company) with
            | Some expires => now env <? expires
            | None => false
            end); [cbn; auto|].
  destruct (oauth_refresh env _) as [token|e]; [|cbn; auto].
  destruct (expires_in token); [|cbn; auto].
  cbn [snd]. repeat split.
  unfold Spec.lastSync_of. cbn [companies with_companies].
  apply lastSync_update_tokens.
Qed.

Lemma makeRequest_frame (env : Env) (company : Company.t) (ep : Endpoint) (db : Db) :
  let db' := snd (makeRequest env company ep db) in
  invoices db' = invoices db /\ payments db' = payments db
  /\ nextId db' = nextId db /\ Spec.lastSync_of db' = Spec.lastSync_of db.
Proof.
  unfold makeRequest.
  pose proof (refreshAccessToken_frame env company db) as H.
  destruct (refreshAccessToken env company db) as [[tok|e] db1]; cbn [snd] in *.
  - destruct (transport env _ tok ep); exact H.
  - exact H.
Qed.

End TokenLifecycle.

(** ** Upsert by key: what a single upsert leaves behind *)

Lemma find_some_split {A : Type} (p : A -> bool) (l : list A) (d : A) :
  find p l = Some d ->
  exists pre post, l = pre ++ d :: post /\ find p pre = None /\ p d = true.
Proof.
  induction l as [|x rest IH]; cbn [find]; [discriminate|].
  destruct (p x) eqn:E.
  - intros H. injection H as <-. exists [], rest. auto.
  - intros H. destruct (IH H) as [pre [post [-> [Hpre Hd]]]].
    exists (x :: pre), post. cbn [app find]. rewrite E. auto.
Qed.

Lemma find_app {A : Type} (p : A -> bool) (l1 l2 : list A) :
  find p (l1 ++ l2)
  = match find p l1 with Some x => Some x | None => find p l2 end.
Proof.
  induction l1 as [|x rest IH]; cbn [app find]; [reflexivity|].
  destruct (p x); [reflexivity | exact IH].
Qed.

Lemma find_app_none {A : Type} (p : A -> bool) (l : list A) (x : A) :
  find p l = None -> find p (l ++ [x]) = find p [x].
Proof. intros H. rewrite find_app, H. reflexivity. Qed.

Lemma find_map_content {A : Type} (g : A -> A) (p : A -> bool) (l l' : list A) :
  (forall x, p (g x) = p x) ->
  map g l' = map g l ->
  match find p l, find p l' with
  | Some d, Some d' => g d' = g d
  | None, None => True
  | _, _ => False
  end.
Proof.
  intros Hp. revert l'. induction l as [|x rest IH]; intros [|x' rest'];
    cbn [map find]; try discriminate; [auto|].
  intros H. injection H as Hx Hrest.
  rewrite <- (Hp x), <- (Hp x'), Hx.
  destruct (p (g x)); [exact Hx | apply IH, Hrest].
Qed.

Section UpsertFacts.

Context {Doc Key Upd : Type}.
Variable matches : Key -> Doc -> bool.
Variable apply : Upd -> Doc -> Doc.
Variable fresh : Z -> Key -> Doc.

Lemma update_first_none (k : Key) (u : Upd) (docs : list Doc) :
  update_first matches apply k u docs = None -> find (matches k) docs = None.
Proof.
  induction docs as [|d rest IH]; cbn [update_first find]; [reflexivity|].
  destruct (matches k d); [discriminate|].
  destruct (update_first matches apply k u rest); [discriminate|].
  intros _. apply IH. reflexivity.
Qed.

Lemma update_first_split (k : Key) (u : Upd) (pre post : list Doc) (d : Doc) :
  find (matches k) pre = None -> matches k d = true ->
  update_first matches apply k u (pre ++ d :: post) = Some (pre ++ apply u d :: post).
Proof.
  intros Hpre Hd. induction pre as [|x rest IH]; cbn [app update_first].
  - rewrite Hd. reflexivity.
  - cbn [find] in Hpre. destruct (matches k x); [discriminate|].
    rewrite (IH Hpre). reflexivity.
Qed.

(** An upsert that finds its document rewrites it where it stands. *)
Lemma upsert_hit (k : Key) (u : Upd) (c : list Doc * Z) (d0 : Doc) :
  find (matches k) (fst c) = Some d0 ->
  exists pre post,
    fst c = pre ++ d0 :: post /\ find (matches k) pre = None
    /\ upsert matches apply fresh k u c = (pre ++ apply u d0 :: post, snd c).
Proof.
  intros H. destruct (find_some_split _ _ _ H) as [pre [post [E [Hpre Hd]]]].
  exists pre, post. split; [exact E|]. split; [exact Hpre|].
  unfold upsert. rewrite E, (update_first_split k u pre post d0 Hpre Hd).
  reflexivity.
Qed.

Lemma find_none_update_first (k : Key) (u : Upd) (docs : list Doc) :
  find (matches k) docs = None -> update_first matches apply k u docs = None.
Proof.
  induction docs as [|d rest IH]; cbn [update_first find]; [reflexivity|].
  destruct (matches k d); [discriminate|].
  intros H. rewrite (IH H). reflexivity.
Qed.

(** An upsert that finds none appends one built from filter and defaults. *)
Lemma upsert_miss (k : Key) (u : Upd) (c : list Doc * Z) :
  find (matches k) (fst c) = None ->
  upsert matches apply fresh k u c
  = (fst c ++ [apply u (fresh (snd c) k)], snd c + 1).
Proof.
  intros H. unfold upsert. rewrite (find_none_update_first k u _ H). reflexivity.
Qed.

(** The document of the key after an upsert. *)
Lemma upsert_written (k : Key) (u : Upd) (c : list Doc * Z) :
  let before := match find (matches k) (fst c) with
                | Some d0 => d0
                | None => fresh (snd c) k
                end in
  matches k (apply u before) = true ->
  find (matches k) (fst (upsert matches apply fresh k u c)) = Some (apply u before).
Proof.
  cbv zeta. destruct (find (matches k) (fst c)) as [d0|] eqn:E; intros Hm.
  - destruct (upsert_hit k u c d0 E) as [pre [post [_ [Hpre ->]]]]. cbn [fst].
    rewrite find_app, Hpre. cbn [find]. rewrite Hm. reflexivity.
  - rewrite (upsert_miss k u c E). cbn [fst].
    rewrite find_app, E. cbn [find]. rewrite Hm. reflexivity.
Qed.

(** Documents of another key are found as before. *)
Lemma upsert_other (k k' : Key) (u : Upd) (c : list Doc * Z) :
  let before := match find (matches k) (fst c) with
                | Some d0 => d0
                | None => fresh (snd c) k
                end in
  (forall d, matches k d = true -> matches k' d = false) ->
  matches k' (apply u before) = false ->
  find (matches k') (fst (upsert matches apply fresh k u c))
  = find (matches k') (fst c).
Proof.
  cbv zeta. intros Hk. destruct (find (matches k) (fst c)) as [d0|] eqn:E; intros Hm.
  - destruct (upsert_hit k u c d0 E) as [pre [post [Ec [Hpre ->]]]]. cbn [fst].
    rewrite Ec, !find_app. cbn [find]. rewrite Hm.
    destruct (find_some_split _ _ _ E) as [_ [_ [_ [_ Hd0]]]].
    rewrite (Hk d0 Hd0). reflexivity.
  - rewrite (upsert_miss k u c E). cbn [fst].
    rewrite find_app. cbn [find]. rewrite Hm.
    destruct (find (matches k') (fst c)); reflexivity.
Qed.

(** An upsert that leaves the image of its document under [g] as it was
    leaves the image of the collection as it was. *)
Lemma upsert_hit_map {B : Type} (g : Doc -> B) (k : Key) (u : Upd)
      (c : list Doc * Z) (d0 : Doc) :
  find (matches k) (fst c) = Some d0 ->
  g (apply u d0) = g d0 ->
  map g (fst (upsert matches apply fresh k u c)) = map g (fst c)
  /\ snd (upsert matches apply fresh k u c) = snd c.
Proof.
  intros E Hg. destruct (upsert_hit k u c d0 E) as [pre [post [Ec [_ ->]]]].
  cbn [fst snd]. rewrite Ec, !map_app. cbn [map]. rewrite Hg. auto.
Qed.

Lemma upsert_length (k : Key) (u : Upd) (c : list Doc * Z) :
  (List.length (fst c) <= List.length (fst (upsert matches apply fresh k u c))
   <= List.length (fst c) + 1)%nat.
Proof.
  destruct (find (matches k) (fst c)) as [d0|] eqn:E.
  - destruct (upsert_hit k u c d0 E) as [pre [post [Ec [_ ->]]]]. cbn [fst].
    rewrite Ec, !length_app. cbn [List.length]. lia.
  - rewrite (upsert_miss k u c E). cbn [fst]. rewrite length_app.
    cbn [List.length]. lia.
Qed.

Lemma upsert_counter (k : Key) (u : Upd) (c : list Doc * Z) :
  snd c <= snd (upsert matches apply fresh k u c).
Proof.
  destruct (find (matches k) (fst c)) as [d0|] eqn:E.
  - destruct (upsert_hit k u c d0 E) as [pre [post [_ [_ ->]]]]. cbn [snd]. lia.
  - rewrite (upsert_miss k u c E). cbn [snd]. lia.
Qed.

(** Documents outside the reach of the filter and of the update stay. *)
Lemma upsert_outside (outside : Doc -> bool) (k : Key) (u : Upd)
      (c : list Doc * Z) :
  (forall d, matches k d = true -> outside d = false) ->
  (forall d, outside (apply u d) = false) ->
  filter outside (fst (upsert matches apply fresh k u c)) = filter outside (fst c).
Proof.
  intros Hm Ha. destruct (find (matches k) (fst c)) as [d0|] eqn:E.
  - destruct (upsert_hit k u c d0 E) as [pre [post [Ec [_ ->]]]]. cbn [fst].
    destruct (find_some_split _ _ _ E) as [_ [_ [_ [_ Hd0]]]].
    rewrite Ec, !filter_app. cbn [filter]. rewrite Ha, (Hm d0 Hd0). reflexivity.
  - rewrite (upsert_miss k u c E). cbn [fst].
    rewrite filter_app. cbn [filter]. rewrite Ha. apply app_nil_r.
Qed.

End UpsertFacts.

Lemma ostring_eqb_refl (a : option string) : Js.ostring_eqb a a = true.
Proof. destruct a; cbn; [apply String.eqb_refl | reflexivity]. Qed.

Lemma ostring_eqb_eq (a b : option string) : Js.ostring_eqb a b = true -> a = b.
Proof.
  destruct a, b; cbn; try discriminate; [|reflexivity].
  intros H. apply String.eqb_eq in H. congruence.
Qed.

Lemma ostring_eqb_neq (a b : option string) : a <> b -> Js.ostring_eqb a b = false.
Proof.
  intros H. destruct (Js.ostring_eqb a b) eqn:E; [|reflexivity].
  apply ostring_eqb_eq in E. contradiction.
Qed.

(** ** Ingestion pipeline: single writes *)

Module Ingestion.

Import QuickBooks.

Lemma cast_invoiceData_data (d : invoiceData) (u : InvoiceSet) :
  cast_invoiceData d = Ok u ->
  is_data u = d /\ i_totalPaid d = Js.Fin (is_totalPaid u)
  /\ i_issueDate d = Some (is_issueDate u) /\ i_dueDate d = Some (is_dueDate u).
Proof.
  unfold cast_invoiceData.
  destruct (i_issueDate d); [|discriminate].
  destruct (i_dueDate d); [|discriminate].
  destruct (i_totalPaid d); try discriminate.
  intros H. injection H as <-. cbn. auto.
Qed.

(** A row that passes the cast carries both dates and a total. *)
Lemma cast_build (company : Company.t) (r : QbInvoice.t) (u : InvoiceSet) :
  cast_invoiceData (build_invoiceData company r) = Ok u ->
  is_data u = build_invoiceData company r
  /\ QbInvoice.TxnDate r = Some (is_issueDate u)
  /\ QbInvoice.DueDate r = Some (is_dueDate u)
  /\ exists t, QbInvoice.TotalAmt r = Some t
               /\ is_totalPaid u
                  = Js.round64 (t - Js.parseFloat_or0 (QbInvoice.Balance r)).
Proof.
  intros H. destruct (cast_invoiceData_data _ _ H) as [Hd [Hp [Hi Hdue]]].
  split; [exact Hd|]. split; [exact Hi|]. split; [exact Hdue|].
  cbn in Hp. destruct (QbInvoice.TotalAmt r) as [t|]; [|discriminate Hp].
  exists t. split; [reflexivity|]. cbn in Hp. injection Hp as Hp. symmetry. exact Hp.
Qed.

Lemma Invoice_matches_fresh (now id : Z) (k : InvoiceKey) :
  Invoice_matches k (Invoice_fresh now id k) = true.
Proof.
  unfold Invoice_matches, Invoice_fresh. cbn.
  rewrite ostring_eqb_refl, Z.eqb_refl. reflexivity.
Qed.

(** The update leaves the key paths of a document of its key as they are. *)
Lemma Invoice_apply_key (now first : Z) (u : InvoiceSet) (d : Invoice.t) :
  Invoice_matches (Invoice_key u) d = true ->
  Invoice.quickbooksId (Invoice_apply now first u d) = fst (Invoice_key u)
  /\ Invoice.company (Invoice_apply now first u d) = snd (Invoice_key u).
Proof.
  unfold Invoice_matches, Invoice_key, Invoice_apply. cbn.
  intros H. apply andb_prop in H as [Hq _]. apply ostring_eqb_eq in Hq.
  split; [|reflexivity].
  destruct (i_quickbooksId (is_data u)); [reflexivity | exact Hq].
Qed.

Lemma Invoice_matches_apply (now first : Z) (u : InvoiceSet) (d : Invoice.t) :
  Invoice_matches (Invoice_key u) d = true ->
  Invoice_matches (Invoice_key u) (Invoice_apply now first u d) = true.
Proof.
  intros H. destruct (Invoice_apply_key now first u d H) as [Hq Hc].
  unfold Invoice_matches. rewrite Hq, Hc, ostring_eqb_refl, Z.eqb_refl. reflexivity.
Qed.

(** Two keys of one tenant with different ledger ids share no document. *)
Lemma Invoice_matches_other (k k' : InvoiceKey) (d : Invoice.t) :
  fst k <> fst k' -> Invoice_matches k d = true -> Invoice_matches k' d = false.
Proof.
  unfold Invoice_matches. intros Hne H. apply andb_prop in H as [Hq _].
  apply ostring_eqb_eq in Hq. rewrite Hq, (ostring_eqb_neq _ _ Hne). reflexivity.
Qed.

Lemma Invoice_key_cast (company : Company.t) (r : QbInvoice.t) (u : InvoiceSet) :
  cast_invoiceData (build_invoiceData company r) = Ok u ->
  Invoice_key u = (QbInvoice.Id r, Company._id company).
Proof.
  intros H. destruct (cast_invoiceData_data _ _ H) as [Hd _].
  unfold Invoice_key. rewrite Hd. reflexivity.
Qed.

Lemma number_lines_content (first : Z) (lines : list lineData) :
  map Spec.line_content (number_lines first lines)
  = map (fun l => Invoice.mkLineItem (l_description l) (l_quantity l)
                                     (l_unitPrice l) (l_amount l) 0) lines.
Proof.
  revert first. induction lines as [|l rest IH]; intros first; [reflexivity|].
  cbn [number_lines map]. rewrite IH. reflexivity.
Qed.

Lemma row_lines_built (company : Company.t) (r : QbInvoice.t) (first : Z) :
  map Spec.line_content
      (number_lines first (i_lineItems (build_invoiceData company r)))
  = Spec.row_lines r.
Proof.
  rewrite number_lines_content. unfold Spec.row_lines. cbn [i_lineItems build_invoiceData].
  rewrite map_map. reflexivity.
Qed.

(** The document the update makes of [before] holds the row. *)
Lemma Invoice_apply_upserted (now first free next : Z) (company : Company.t)
      (r : QbInvoice.t) (u : InvoiceSet) (before : option Invoice.t) :
  cast_invoiceData (build_invoiceData company r) = Ok u ->
  (forall d0, before = Some d0 ->
              Invoice_matches (QbInvoice.Id r, Company._id company) d0 = true) ->
  free <= next ->
  Spec.Invoice_upserted now (Company._id company) r before free
    (Invoice_apply now first u
       (match before with
        | Some d0 => d0
        | None => Invoice_fresh now next (QbInvoice.Id r, Company._id company)
        end)).
Proof.
  intros Hc Hm Hfree.
  destruct (cast_build _ _ _ Hc) as [Hd [Hi [Hdue [t [Ht Hp]]]]].
  assert (Hq : Invoice.quickbooksId
                 (Invoice_apply now first u
                    (match before with
                     | Some d0 => d0
                     | None => Invoice_fresh now next (QbInvoice.Id r, Company._id company)
                     end)) = QbInvoice.Id r).
  { pose proof (Invoice_key_cast _ _ _ Hc) as Hk.
    destruct (Invoice_apply_key now first u
                (match before with
                 | Some d0 => d0
                 | None => Invoice_fresh now next (QbInvoice.Id r, Company._id company)
                 end)) as [H _].
    - rewrite Hk. destruct before as [d0|]; [apply Hm; reflexivity|].
      apply Invoice_matches_fresh.
    - rewrite H, Hk. reflexivity. }
  unfold Spec.Invoice_upserted.
  split; [unfold Invoice_apply; cbn; rewrite Hd; reflexivity|].
  split; [exact Hq|].
  unfold Invoice_apply. cbn. rewrite Hd. cbn.
  rewrite Ht, Hp. cbn.
  repeat split; try reflexivity.
  - symmetry. exact Hi.
  - symmetry. exact Hdue.
  - apply (row_lines_built company r first).
  - destruct (QbInvoice.DocNumber r), before; reflexivity.
  - destruct (Wire.ref_value (QbInvoice.CustomerRef r)), before; reflexivity.
  - destruct (Wire.ref_name (QbInvoice.CustomerRef r)), before; reflexivity.
  - destruct before; cbn; repeat split; try reflexivity. exact Hfree.
Qed.

(** What a write that went through did. *)
Lemma Invoice_upsert_ok (now : Z) (company : Company.t) (r : QbInvoice.t)
      (db db' : Db) :
  Invoice_findOneAndUpdate now (QbInvoice.Id r, Company._id company)
                           (build_invoiceData company r) db = Ok db' ->
  exists u,
    cast_invoiceData (build_invoiceData company r) = Ok u
    /\ let k := (QbInvoice.Id r, Company._id company) in
       let next := nextId db
                   + Z.of_nat (List.length (i_lineItems (build_invoiceData company r))) in
       let written :=
         Invoice_apply now (nextId db) u
           (match Spec.Invoice_find (Company._id company) r db with
            | Some d0 => d0
            | None => Invoice_fresh now next k
            end) in
       Invoice_number_rejected (Spec.Invoice_find (Company._id company) r db)
                               written (invoices db) = false
       /\ db' = with_invoices
                  (upsert Invoice_matches (Invoice_apply now (nextId db))
                          (Invoice_fresh now) k u (invoices db, next)) db
       /\ Spec.Invoice_find (Company._id company) r db' = Some written.
Proof.
  unfold Invoice_findOneAndUpdate, Spec.Invoice_find.
  destruct (cast_invoiceData (build_invoiceData company r)) as [u|e] eqn:Ec;
    [|discriminate].
  cbv zeta.
  destruct (Invoice_number_rejected _ _ (invoices db)) eqn:Er; [discriminate|].
  intros H. injection H as <-.
  exists u. split; [reflexivity|]. split; [exact Er|]. split; [reflexivity|].
  cbn [invoices with_invoices].
  pose proof (Invoice_key_cast _ _ _ Ec) as Hk.
  apply (upsert_written Invoice_matches (Invoice_apply now (nextId db))
           (Invoice_fresh now) (QbInvoice.Id r, Company._id company) u
           (invoices db, _)).
  cbn [fst snd]. rewrite <- Hk. apply Invoice_matches_apply. rewrite Hk.
  destruct (find _ (invoices db)) as [d0|] eqn:E.
  - destruct (find_some_split _ _ _ E) as [_ [_ [_ [_ H]]]]. exact H.
  - apply Invoice_matches_fresh.
Qed.

(** *** Payments *)

Lemma cast_payment_build (company : Company.t) (r : QbPayment.t) (db : Db)
      (u : PaymentSet) :
  cast_paymentData (build_paymentData company r db) = Ok u ->
  u = mkPaymentSet (build_paymentData company r db) (ps_paymentDate u)
  /\ QbPayment.TxnDate r = Some (ps_paymentDate u).
Proof.
  unfold cast_paymentData. cbn [p_paymentDate build_paymentData].
  destruct (QbPayment.TxnDate r) as [date|]; [|discriminate].
  intros H. injection H as <-. auto.
Qed.

Lemma Payment_key_cast (company : Company.t) (r : QbPayment.t) (db : Db)
      (u : PaymentSet) :
  cast_paymentData (build_paymentData company r db) = Ok u ->
  Payment_key u = (QbPayment.Id r, Company._id company).
Proof.
  intros H. destruct (cast_payment_build _ _ _ _ H) as [-> _]. reflexivity.
Qed.

Lemma Payment_matches_fresh (now id : Z) (k : PaymentKey) :
  Payment_matches k (Payment_fresh now id k) = true.
Proof.
  unfold Payment_matches, Payment_fresh. cbn.
  rewrite ostring_eqb_refl, Z.eqb_refl. reflexivity.
Qed.

Lemma Payment_apply_key (now : Z) (u : PaymentSet) (d : Payment.t) :
  Payment_matches (Payment_key u) d = true ->
  Payment.quickbooksId (Payment_apply now u d) = fst (Payment_key u)
  /\ Payment.company (Payment_apply now u d) = snd (Payment_key u).
Proof.
  unfold Payment_matches, Payment_key, Payment_apply. cbn.
  intros H. apply andb_prop in H as [Hq _]. apply ostring_eqb_eq in Hq.
  split; [|reflexivity].
  destruct (p_quickbooksId (ps_data u)); [reflexivity | exact Hq].
Qed.

Lemma Payment_matches_apply (now : Z) (u : PaymentSet) (d : Payment.t) :
  Payment_matches (Payment_key u) d = true ->
  Payment_matches (Payment_key u) (Payment_apply now u d) = true.
Proof.
  intros H. destruct (Payment_apply_key now u d H) as [Hq Hc].
  unfold Payment_matches. rewrite Hq, Hc, ostring_eqb_refl, Z.eqb_refl. reflexivity.
Qed.

Lemma Payment_matches_other (k k' : PaymentKey) (d : Payment.t) :
  fst k <> fst k' -> Payment_matches k d = true -> Payment_matches k' d = false.
Proof.
  unfold Payment_matches. intros Hne H. apply andb_prop in H as [Hq _].
  apply ostring_eqb_eq in Hq. rewrite Hq, (ostring_eqb_neq _ _ Hne). reflexivity.
Qed.

Lemma Payment_upsert_ok (now : Z) (company : Company.t) (r : QbPayment.t)
      (db db' : Db) :
  Payment_findOneAndUpdate now (QbPayment.Id r, Company._id company)
                           (build_paymentData company r db) db = Ok db' ->
  exists u,
    cast_paymentData (build_paymentData company r db) = Ok u
    /\ let k := (QbPayment.Id r, Company._id company) in
       let written :=
         Payment_apply now u
           (match Spec.Payment_find (Company._id company) r db with
            | Some d0 => d0
            | None => Payment_fresh now (nextId db) k
            end) in
       Payment_id_rejected (Spec.Payment_find (Company._id company) r db)
                           written (payments db) = false
       /\ db' = with_payments
                  (upsert Payment_matches (Payment_apply now) (Payment_fresh now)
                          k u (payments db, nextId db)) db
       /\ Spec.Payment_find (Company._id company) r db' = Some written.
Proof.
  unfold Payment_findOneAndUpdate, Spec.Payment_find.
  destruct (cast_paymentData (build_paymentData company r db)) as [u|e] eqn:Ec;
    [|discriminate].
  cbv zeta.
  destruct (Payment_id_rejected _ _ (payments db)) eqn:Er; [discriminate|].
  intros H. injection H as <-.
  exists u. split; [reflexivity|]. split; [exact Er|]. split; [reflexivity|].
  cbn [payments with_payments].
  pose proof (Payment_key_cast _ _ _ _ Ec) as Hk.
  apply (upsert_written Payment_matches (Payment_apply now) (Payment_fresh now)
           (QbPayment.Id r, Company._id company) u (payments db, nextId db)).
  cbn [fst snd]. rewrite <- Hk. apply Payment_matches_apply. rewrite Hk.
  destruct (find _ (payments db)) as [d0|] eqn:E.
  - destruct (find_some_split _ _ _ E) as [_ [_ [_ [_ H]]]]. exact H.
  - apply Payment_matches_fresh.
Qed.

Lemma Payment_apply_upserted (now free next : Z) (company : Company.t)
      (r : QbPayment.t) (db : Db) (u : PaymentSet) (before : option Payment.t) :
  cast_paymentData (build_paymentData company r db) = Ok u ->
  (forall d0, before = Some d0 ->
              Payment_matches (QbPayment.Id r, Company._id company) d0 = true) ->
  free <= next ->
  Spec.Payment_upserted now (Company._id company) r (linked_invoice r db) before free
    (Payment_apply now u
       (match before with
        | Some d0 => d0
        | None => Payment_fresh now next (QbPayment.Id r, Company._id company)
        end)).
Proof.
  intros Hc Hm Hfree.
  destruct (cast_payment_build _ _ _ _ Hc) as [Hu Hdate].
  assert (Hq : Payment.quickbooksId
                 (Payment_apply now u
                    (match before with
                     | Some d0 => d0
                     | None => Payment_fresh now next (QbPayment.Id r, Company._id company)
                     end)) = QbPayment.Id r).
  { pose proof (Payment_key_cast _ _ _ _ Hc) as Hk.
    destruct (Payment_apply_key now u
                (match before with
                 | Some d0 => d0
                 | None => Payment_fresh now next (QbPayment.Id r, Company._id company)
                 end)) as [H _].
    - rewrite Hk. destruct before as [d0|]; [apply Hm; reflexivity|].
      apply Payment_matches_fresh.
    - rewrite H, Hk. reflexivity. }
  unfold Spec.Payment_upserted.
  split; [rewrite Hu; reflexivity|].
  split; [exact Hq|].
  rewrite Hu. unfold Payment_apply. cbn.
  repeat split; try reflexivity.
  - symmetry. exact Hdate.
  - destruct (linked_invoice r db), before; reflexivity.
  - destruct (Wire.ref_value (QbPayment.CustomerRef r)), before; reflexivity.
  - destruct (Wire.ref_name (QbPayment.CustomerRef r)), before; reflexivity.
  - destruct (QbPayment.PaymentRefNum r), before; reflexivity.
  - destruct before; cbn; repeat split; try reflexivity. exact Hfree.
Qed.

(** The save hook against the rule of the data model.  The balance it
    stores is the double nearest to amount less total paid, and the status
    is the derived one whenever that balance is below the amount or nothing
    was paid. *)
Lemma Invoice_pre_save_rule (now : Z) (d : Invoice.t) :
  let d' := Invoice.pre_save now d in
  Invoice.balance d' = Js.round64 (Invoice.amount d - Invoice.totalPaid d)
  /\ (Js.lt (Invoice.balance d') (Invoice.amount d) = true
      \/ Js.gt (Invoice.totalPaid d) 0 = false ->
      Invoice.status d'
      = Spec.derived_status (Invoice.status d) (Invoice.amount d')
          (Invoice.totalPaid d') (Invoice.balance d') (Invoice.dueDate d') now).
Proof.
  cbv zeta. split; [reflexivity|].
  unfold Invoice.pre_save, Spec.derived_status.
  cbn [Invoice.status Invoice.balance Invoice.amount Invoice.totalPaid
       Invoice.dueDate].
  set (bal := Js.sub (Invoice.amount d) (Invoice.totalPaid d)).
  intros H.
  destruct (Js.le bal 0) eqn:E0; [reflexivity|].
  replace (Js.lt 0 bal) with (Js.gt bal 0) by reflexivity.
  assert (Eb : Js.gt bal 0 = true) by (unfold Js.gt, Js.le in *; rewrite E0; reflexivity).
  rewrite Eb, !andb_true_r. cbn [andb].
  destruct H as [-> | ->]; [reflexivity|].
  rewrite andb_false_r. reflexivity.
Qed.




(** The balance drifts from amount less [totalPaid]: a ledger invoice of
    100.1 with balance 0.3 is stored with a [totalPaid] from which neither
    the exact difference nor its nearest double gives the balance back. *)
Lemma ingestion_balance_drifts :
  exists d,
    invoices (snd (syncInvoices (Scenario.env_100 (Some [Scenario.invoice_drift]) None)
                                Scenario.acme Scenario.db_acme))
    = [d]
    /\ Invoice.amount d = Js.round64 (1001 # 10)
    /\ Invoice.balance d = Js.round64 (3 # 10)
    /\ ~ (Invoice.balance d == Invoice.amount d - Invoice.totalPaid d)%Q
    /\ Js.round64 (Invoice.amount d - Invoice.totalPaid d) <> Invoice.balance d.
Proof.
  eexists. split; [reflexivity|]. split; [reflexivity|]. split; [reflexivity|].
  split.
  - intros H. apply Qeq_bool_iff in H. vm_compute in H. discriminate H.
  - intros H. vm_compute in H. discriminate H.
Qed.

End Ingestion.
(** ** Ingestion pipeline: batches and the sync marker *)

Module SyncMarker.

Import QuickBooks.

Lemma Invoice_write_frame (now : Z) (k : InvoiceKey) (d : invoiceData) (db db' : Db) :
  Invoice_findOneAndUpdate now k d db = Ok db' ->
  companies db' = companies db /\ payments db' = payments db.
Proof.
  unfold Invoice_findOneAndUpdate.
  destruct (cast_invoiceData d); [|discriminate]. cbv zeta.
  destruct (Invoice_number_rejected _ _ _); [discriminate|].
  intros H. injection H as <-. auto.
Qed.

Lemma Payment_write_frame (now : Z) (k : PaymentKey) (d : paymentData) (db db' : Db) :
  Payment_findOneAndUpdate now k d db = Ok db' ->
  companies db' = companies db /\ invoices db' = invoices db.
Proof.
  unfold Payment_findOneAndUpdate.
  destruct (cast_paymentData d); [|discriminate]. cbv zeta.
  destruct (Payment_id_rejected _ _ _); [discriminate|].
  intros H. injection H as <-. auto.
Qed.

Lemma syncPayments_loop_frame (now : Z) (company : Company.t)
      (qbPayments : list QbPayment.t) (db : Db) (n : Z) :
  companies (fst (syncPayments_loop now company qbPayments db n)) = companies db
  /\ invoices (fst (syncPayments_loop now company qbPayments db n)) = invoices db.
Proof.
  revert db n. induction qbPayments as [|qbPmt rest IH]; intros db n;
    cbn [syncPayments_loop fst]; [auto|].
  destruct (Payment_findOneAndUpdate now _ _ db) as [db'|e] eqn:E; [|cbn; auto].
  destruct (Payment_write_frame _ _ _ _ _ E) as [Hc Hi].
  destruct (IH db' (n + 1)) as [H1 H2]. rewrite H1, H2. auto.
Qed.

Lemma syncInvoices_loop_frame (now : Z) (company : Company.t)
      (qbInvoices : list QbInvoice.t) (db : Db) (n : Z) :
  companies (fst (syncInvoices_loop now company qbInvoices db n)) = companies db
  /\ payments (fst (syncInvoices_loop now company qbInvoices db n)) = payments db.
Proof.
  revert db n. induction qbInvoices as [|qbInv rest IH]; intros db n;
    cbn [syncInvoices_loop fst]; [auto|].
  destruct (Invoice_findOneAndUpdate now _ _ db) as [db'|e] eqn:E; [|cbn; auto].
  destruct (Invoice_write_frame _ _ _ _ _ E) as [Hc Hp].
  destruct (IH db' (n + 1)) as [H1 H2]. rewrite H1, H2. auto.
Qed.

Lemma makeRequest_response (env : Env) (company : Company.t) (ep : Endpoint)
      (db db1 : Db) (response : QueryResponse) :
  makeRequest env company ep db = (Ok response, db1) -> response = ledger env ep.
Proof.
  unfold makeRequest.
  destruct (refreshAccessToken env company db) as [[tok|e] db']; [|discriminate].
  destruct (transport env _ tok ep); [discriminate|].
  intros H. injection H as <- _. reflexivity.
Qed.

Lemma syncPayments_marker (env : Env) (company : Company.t) (db : Db) :
  Spec.lastSync_of (snd (syncPayments env company db)) = Spec.lastSync_of db.
Proof.
  unfold syncPayments.
  destruct (TokenLifecycle.makeRequest_frame env company query_Payment db)
    as [_ [_ [_ Hm]]].
  destruct (makeRequest env company query_Payment db) as [[response|e] db1];
    cbn [snd] in *; [|exact Hm].
  set (rows := match Payment_rows response with Some l => l | None => [] end).
  destruct (syncPayments_loop_frame (now env) company rows db1 0) as [Hc _].
  destruct (syncPayments_loop (now env) company rows db1 0) as [db2 [n|e]];
    cbn [fst snd] in *; unfold Spec.lastSync_of in *; rewrite Hc; exact Hm.
Qed.

(** What [syncInvoices] does with the marker: set to the clock on success,
    untouched on failure. *)
Lemma lastSync_update_marker (id t : Z) (l : list Company.t) (c0 : Company.t) :
  find (fun c => Company._id c =? id) l = Some c0 ->
  option_map (fun c => Company.lastSync (Company.quickbooks c))
             (find (fun c => Company._id c =? id)
                   (Company_update_by_id id (set_lastSync t) l))
  = Some (Some t).
Proof.
  intros H. rewrite (TokenLifecycle.findById_update_same _ _ _ _ H). reflexivity.
Qed.

Lemma syncInvoices_marker_failure (env : Env) (company : Company.t) (db : Db) :
  is_ok (fst (syncInvoices env company db)) = false ->
  Spec.lastSync_of (snd (syncInvoices env company db)) = Spec.lastSync_of db.
Proof.
  unfold syncInvoices.
  destruct (TokenLifecycle.makeRequest_frame env company query_Invoice db)
    as [_ [_ [_ Hm]]].
  destruct (makeRequest env company query_Invoice db) as [[response|e] db1];
    cbn [snd fst] in *; [|intros _; exact Hm].
  set (rows := match Invoice_rows response with Some l => l | None => [] end).
  destruct (syncInvoices_loop_frame (now env) company rows db1 0) as [Hc _].
  destruct (syncInvoices_loop (now env) company rows db1 0) as [db2 [n|e]];
    cbn [fst snd is_ok] in *; [discriminate|].
  intros _. unfold Spec.lastSync_of in *. rewrite Hc. exact Hm.
Qed.

Lemma findById_lastSync_of (id : Z) (l l' : list Company.t) :
  map (fun c => (Company._id c, Company.lastSync (Company.quickbooks c))) l
  = map (fun c => (Company._id c, Company.lastSync (Company.quickbooks c))) l' ->
  forall c0, find (fun c => Company._id c =? id) l = Some c0 ->
  exists c1, find (fun c => Company._id c =? id) l' = Some c1.
Proof.
  revert l'. induction l as [|c l IH]; intros [|c' l']; cbn [map find];
    try discriminate.
  intros H. injection H as Hid _ Hrest.
  rewrite <- Hid. destruct (Company._id c =? id); [eauto|].
  apply IH, Hrest.
Qed.

Lemma syncInvoices_marker_success (env : Env) (company : Company.t) (db : Db)
      (c0 : Company.t) :
  is_ok (fst (syncInvoices env company db)) = true ->
  Spec.Company_findById (Company._id company) db = Some c0 ->
  option_map (fun c => Company.lastSync (Company.quickbooks c))
             (Spec.Company_findById (Company._id company)
                                    (snd (syncInvoices env company db)))
  = Some (Some (now env)).
Proof.
  unfold syncInvoices, Spec.Company_findById.
  destruct (TokenLifecycle.makeRequest_frame env company query_Invoice db)
    as [_ [_ [_ Hm]]].
  destruct (makeRequest env company query_Invoice db) as [[response|e] db1];
    cbn [snd fst is_ok] in *; [|discriminate].
  set (rows := match Invoice_rows response with Some l => l | None => [] end).
  destruct (syncInvoices_loop_frame (now env) company rows db1 0) as [Hc _].
  destruct (syncInvoices_loop (now env) company rows db1 0) as [db2 [n|e]];
    cbn [fst snd is_ok] in *; [|discriminate].
  intros _ Hfind. cbn [companies with_companies].
  unfold Spec.lastSync_of in Hm.
  destruct (findById_lastSync_of _ _ _ (eq_sym Hm) _ Hfind) as [c1 Hc1].
  rewrite Hc. apply (lastSync_update_marker _ _ _ c1 Hc1).
Qed.

(** C5 (where the code departs from it).  [syncPayments] never touches a
    [lastSync] marker, also when it completes: the payment sync of one
    ledger payment for a tenant never synced before returns success with
    count 1 and leaves the tenant's marker unset. *)
Theorem syncPayments_never_advances_marker :
  (forall env company db,
     Spec.lastSync_of (snd (syncPayments env company db)) = Spec.lastSync_of db)
  /\ fst (syncPayments (Scenario.env_100 None (Some [Scenario.payment_P1]))
                       Scenario.acme Scenario.db_acme)
     = Ok (mkSyncResult true 1)
  /\ Spec.lastSync_of
       (snd (syncPayments (Scenario.env_100 None (Some [Scenario.payment_P1]))
                          Scenario.acme Scenario.db_acme))
     = [(1, None)].
Proof.
  split; [exact syncPayments_marker|].
  split; reflexivity.
Qed.

(** C10. The invoice link of a payment is resolved by ledger id alone.
    When the payment sync of a tenant gets its one ledger payment, which
    names a linked transaction, and the first stored invoice with that
    ledger id belongs to another tenant, the sync completes and the payment
    stored for the syncing tenant refers to that other tenant's invoice,
    whatever invoices follow it in the collection, the tenant's own
    included.  (The unique index lets the write through: the payment's
    document holds its payment id already, or no document does.) *)
Theorem syncPayments_links_across_tenants (env : Env) (company : Company.t)
        (db : Db) (qbPmt : QbPayment.t) (date : Z) (id : string)
        (txns : list Wire.LinkedTxn) (lines : list Wire.PaymentLine)
        (pre post : list Invoice.t) (inv : Invoice.t) :
  is_ok (fst (makeRequest env company query_Payment db)) = true ->
  Spec.payment_rows env = [qbPmt] ->
  QbPayment.TxnDate qbPmt = Some date ->
  QbPayment.Line qbPmt
  = Some (Wire.mkPaymentLine (Some (Wire.mkLinkedTxn (Some id) :: txns)) :: lines) ->
  invoices db = pre ++ inv :: post ->
  (forall e, In e pre -> Invoice.quickbooksId e <> Some id) ->
  Invoice.quickbooksId inv = Some id ->
  Invoice.company inv <> Company._id company ->
  ((exists d0, Spec.Payment_find (Company._id company) qbPmt db = Some d0
               /\ Payment.paymentId d0
                  = p_paymentId (build_paymentData company qbPmt db))
   \/ forall e, In e (payments db) ->
                Payment.paymentId e <> p_paymentId (build_paymentData company qbPmt db)) ->
  fst (syncPayments env company db) = Ok (mkSyncResult true 1)
  /\ exists p,
       Spec.Payment_find (Company._id company) qbPmt (snd (syncPayments env company db))
       = Some p
       /\ Payment.company p = Company._id company
       /\ Payment.invoiceId p = Some (Invoice._id inv)
       /\ Invoice.company inv <> Payment.company p.
Proof.
  intros Hreq Hrows Hdate Hline Hsplit Hpre Hid Hother Hidx.
  assert (Hinv : Invoice_findOne_by_quickbooksId (Some id) db = Some inv).
  { unfold Invoice_findOne_by_quickbooksId. rewrite Hsplit, find_app.
    replace (find (fun x => Js.ostring_eqb (Invoice.quickbooksId x) (Some id)) pre)
      with (@None Invoice.t).
    - cbn [find]. rewrite Hid, ostring_eqb_refl. reflexivity.
    - symmetry. clear - Hpre. induction pre as [|x rest IH]; [reflexivity|].
      cbn [find]. rewrite ostring_eqb_neq by (apply Hpre; left; reflexivity).
      apply IH. intros e He. apply Hpre. right. exact He. }
  unfold syncPayments.
  destruct (TokenLifecycle.makeRequest_frame env company query_Payment db)
    as [Hi [Hp [Hn _]]].
  destruct (makeRequest env company query_Payment db) as [[response|e] db0] eqn:Em;
    [|discriminate Hreq].
  cbn [snd] in Hi, Hp, Hn.
  rewrite (makeRequest_response _ _ _ _ _ _ Em).
  unfold Spec.payment_rows in Hrows. rewrite Hrows.
  cbn [syncPayments_loop].
  assert (Hlink : linked_invoice qbPmt db0 = Some (Invoice._id inv)).
  { unfold linked_invoice. rewrite Hline. cbn [Wire.LinkedTxns Wire.TxnId].
    unfold Invoice_findOne_by_quickbooksId in *. rewrite Hi, Hinv. reflexivity. }
  assert (Hbuild : build_paymentData company qbPmt db0 = build_paymentData company qbPmt db).
  { unfold build_paymentData, linked_invoice, Invoice_findOne_by_quickbooksId.
    rewrite Hi. reflexivity. }
  set (u := mkPaymentSet (build_paymentData company qbPmt db0) date).
  assert (Hcast : cast_paymentData (build_paymentData company qbPmt db0) = Ok u).
  { unfold cast_paymentData. cbn [p_paymentDate build_paymentData].
    rewrite Hdate. reflexivity. }
  destruct (Payment_findOneAndUpdate (now env) (QbPayment.Id qbPmt, Company._id company)
              (build_paymentData company qbPmt db0) db0) as [db1|e] eqn:Ew.
  - cbn [fst snd]. split; [reflexivity|].
    destruct (Ingestion.Payment_upsert_ok _ _ _ _ _ Ew) as [u' [Hc' [_ [_ Hf]]]].
    rewrite Hcast in Hc'. injection Hc' as <-.
    eexists. split; [exact Hf|].
    unfold Payment_apply, u. cbn. rewrite Hlink.
    split; [reflexivity|]. split; [reflexivity | exact Hother].
  - exfalso. unfold Payment_findOneAndUpdate in Ew. rewrite Hcast in Ew.
    cbv zeta in Ew.
    assert (Hrej : forall written,
               Payment.paymentId written
               = p_paymentId (build_paymentData company qbPmt db) ->
               Payment_id_rejected
                 (find (Payment_matches (QbPayment.Id qbPmt, Company._id company))
                       (payments db0))
                 written (payments db0) = false).
    { intros written Hw. unfold Payment_id_rejected. rewrite Hp, Hw.
      destruct Hidx as [[d0 [Hf0 E0]]|Hfree].
      - unfold Spec.Payment_find in Hf0. rewrite Hf0, E0, String.eqb_refl.
        reflexivity.
      - apply andb_false_intro2.
        destruct (existsb _ (payments db)) eqn:Ex; [|reflexivity].
        apply existsb_exists in Ex as [x [Hin Hx]]. apply String.eqb_eq in Hx.
        exfalso. exact (Hfree x Hin Hx). }
    rewrite Hrej in Ew; [discriminate|].
    unfold Payment_apply, u. cbn [Payment.paymentId ps_data]. rewrite Hbuild.
    reflexivity.
Qed.

Lemma syncPayments_links_across_tenants_witness :
  let env := Scenario.env_100 None (Some [Scenario.payment_P1]) in
  fst (syncPayments env Scenario.acme Scenario.db_foreign) = Ok (mkSyncResult true 1)
  /\ exists p,
       Spec.Payment_find 1 Scenario.payment_P1
                         (snd (syncPayments env Scenario.acme Scenario.db_foreign))
       = Some p
       /\ Payment.company p = 1
       /\ Payment.invoiceId p = Some (Invoice._id Scenario.foreign_invoice)
       /\ Invoice.company Scenario.foreign_invoice <> Payment.company p.
Proof.
  apply (syncPayments_links_across_tenants
           (Scenario.env_100 None (Some [Scenario.payment_P1])) Scenario.acme
           Scenario.db_foreign Scenario.payment_P1 (Scenario.days 90) "77"
           [] [] [] [] Scenario.foreign_invoice).
  - reflexivity.
  - reflexivity.
  - reflexivity.
  - reflexivity.
  - reflexivity.
  - intros e [].
  - reflexivity.
  - cbn. discriminate.
  - right. intros e [].
Defined.

End SyncMarker.

(** ** Detectors: what reaches the Leak collection *)

Module Detectors.

Import LeakDetection.

Lemma for_each_inert {A : Type} (body : A -> Leak.Store -> Res (Leak.Store * Z))
      (xs : list A) (s : Leak.Store) (n : Z) :
  (forall x s0, body x s0 = Ok (s0, 0) \/ exists e, body x s0 = Err e) ->
  fst (for_each body xs s n) = s.
Proof.
  intros Hbody. revert n. induction xs as [|x rest IH]; intros n;
    cbn [for_each fst]; [reflexivity|].
  destruct (Hbody x s) as [H|[e H]]; rewrite H; [apply IH | reflexivity].
Qed.

Lemma snd_finish (r : Leak.Store * Res Z) : snd (finish r) = fst r.
Proof. unfold finish. destruct (snd r); reflexivity. Qed.

(** The literals of both contract detectors say [sourceSystem: 'manual'],
    which the enum of the Leak schema does not list. *)
Lemma create_manual_rejected (now : Z) (i : Leak.input) (s : Leak.Store) :
  Leak.in_sourceSystem i = "manual" ->
  Leak.create now i s = Err (ValidationError "sourceSystem").
Proof.
  intros H. unfold Leak.create, Leak.validate. rewrite H. reflexivity.
Qed.

Lemma underBilling_body_inert (w : World) (companyId : Z) (contract : Contract.t)
      (s : Leak.Store) :
  underBilling_body w companyId contract s = Ok (s, 0)
  \/ exists e, underBilling_body w companyId contract s = Err e.
Proof.
  unfold underBilling_body.
  destruct (Js.gt_num _ 5); [|left; reflexivity].
  destruct (Leak.findOne_open _ _ _ _ s); [left; reflexivity|].
  right. unfold create_counted.
  rewrite create_manual_rejected by reflexivity. eauto.
Qed.

Lemma failedRenewals_body_inert (w : World) (companyId : Z) (contract : Contract.t)
      (s : Leak.Store) :
  failedRenewals_body w companyId contract s = Ok (s, 0)
  \/ exists e, failedRenewals_body w companyId contract s = Err e.
Proof.
  unfold failedRenewals_body.
  destruct (negb _); [|left; reflexivity].
  destruct (Leak.findOne_open _ _ _ _ s); [left; reflexivity|].
  right. unfold create_counted.
  rewrite create_manual_rejected by reflexivity. eauto.
Qed.

Lemma detectFailedRenewals_never_persists (w : World) (companyId : Z)
      (s : Leak.Store) :
  snd (detectFailedRenewals w companyId s) = s.
Proof.
  unfold detectFailedRenewals. rewrite snd_finish.
  apply for_each_inert, failedRenewals_body_inert.
Qed.

(** The guard of the under-billing detector is taken on the doubles the
    code computes.  On scenario E the invoices are 5% short of the fee to
    the cent, which the test [> 5] would let pass; the sum of the three
    amounts comes out at 2849.9999999999995, the share at
    5.000000000000015, and the detector goes on to the leak. *)
Lemma underBilling_threshold_in_doubles :
  totalBilled (periodInvoices_query 1 Scenario.contract_E Scenario.world_E)
  = (6267216278323199 # 2199023255552)%Q
  /\ underBilledPercent Scenario.world_E 1 Scenario.contract_E
     = Js.Fin (5629499534213137 # 1125899906842624)
  /\ Js.gt_num (underBilledPercent Scenario.world_E 1 Scenario.contract_E) 5 = true
  /\ underBilling_body Scenario.world_E 1 Scenario.contract_E Scenario.no_leaks
     = Err (ValidationError "sourceSystem").
Proof. repeat split; vm_compute; reflexivity. Qed.

(** What the detector hands to [Leak.create] once past the guard. *)
Lemma underBilling_literal_fields (companyId : Z) (contract : Contract.t) (u : Q) :
  let i := underBilling_literal companyId contract u in
  Leak.in_priority i = (if Js.gt u 10000 then high else medium)
  /\ Leak.in_confidence i = 85
  /\ Leak.in_amount i = u
  /\ Leak.in_sourceReference i
     = Leak.mkRef None None None (Some (Contract.contractNumber contract)).
Proof. cbn. auto. Qed.

(** C4 (where the code departs from it).  The under-billing detector never
    adds a leak.  On scenario B (monthly, base fee 1000, 90 days, 2000
    billed) the expected amount is 3000 and the literal it builds is the one
    claimed (medium, amount 1000, confidence 85), but [Leak.create] rejects
    its [sourceSystem], so the detector reports failure and the collection
    stays empty. *)
Theorem detectUnderBilling_never_persists :
  (forall w companyId s, snd (detectUnderBilling w companyId s) = s)
  /\ (calculateExpectedBilling Scenario.contract_B == 3000)%Q
  /\ (underBilledAmount Scenario.world_B 1 Scenario.contract_B == 1000)%Q
  /\ Js.gt_num (underBilledPercent Scenario.world_B 1 Scenario.contract_B) 5 = true
  /\ Leak.findOne_open 1 under_billing Leak.by_contractId (Some "CT-1")
                       Scenario.no_leaks = None
  /\ Leak.in_priority
       (underBilling_literal 1 Scenario.contract_B
          (underBilledAmount Scenario.world_B 1 Scenario.contract_B)) = medium
  /\ underBilling_body Scenario.world_B 1 Scenario.contract_B Scenario.no_leaks
     = Err (ValidationError "sourceSystem")
  /\ detectUnderBilling Scenario.world_B 1 Scenario.no_leaks
     = (mkResult false (Some "Validation failed at path sourceSystem") 0,
        Scenario.no_leaks).
Proof.
  split.
  { intros w companyId s. unfold detectUnderBilling. rewrite snd_finish.
    apply for_each_inert, underBilling_body_inert. }
  repeat split; reflexivity.
Qed.

(** C6 (where the code departs from it).  Every leak that [Leak.create]
    stores has aging 0: the save hook replaces the aging of the literal by
    the whole days since detection.  On scenario C (balance 2000, 65 days
    past due, from the ledger) the stored leak is critical with confidence
    90 and aging 0, not 65; for the same invoice entered by hand
    ([sourceSystem] manual) nothing is stored. *)
Theorem agingReceivable_stored_aging :
  (forall now id i, Leak.aging (Leak.pre_save now (Leak.construct now id i)) = 0)
  /\ Js.floor_div (now (Scenario.world_C "quickbooks")
                   - Invoice.dueDate (Scenario.invoice_C "quickbooks")) day_ms = 65
  /\ Leak.in_aging (agingReceivable_literal 1 (Scenario.invoice_C "quickbooks") 65)
     = Some 65
  /\ detectAgingReceivables (Scenario.world_C "quickbooks") 1 Scenario.no_leaks
     = (mkResult true None 1, Leak.mkStore [Scenario.leak_C 1] 2)
  /\ Leak.priority (Scenario.leak_C 1) = critical
  /\ Leak.confidence (Scenario.leak_C 1) = 90
  /\ Leak.aging (Scenario.leak_C 1) = 0
  /\ detectAgingReceivables (Scenario.world_C "manual") 1 Scenario.no_leaks
     = (mkResult false (Some "Validation failed at path sourceSystem") 0,
        Scenario.no_leaks).
Proof.
  split.
  { intros now id i. cbn. unfold Js.floor_div. rewrite Z.sub_diag. reflexivity. }
  repeat split; reflexivity.
Qed.

End Detectors.

(** ** Orchestration *)

Module Orchestration.

Import LeakDetection.

Lemma count_of_Result_value (r : Result) : count_of (Result_value r) = count r.
Proof. unfold Result_value. destruct (error r); reflexivity. Qed.

Lemma Result_value_is_object (r : Result) :
  exists fields, Result_value r = Js.Obj fields.
Proof. unfold Result_value. destruct (error r); eauto. Qed.

Lemma detectLeaks_unfold (w : World) (companyId : Z) (s : Leak.Store) :
  let r1 := detectMissingPayments w companyId s in
  let r2 := detectUnderBilling w companyId (snd r1) in
  let r3 := detectFailedRenewals w companyId (snd r2) in
  let r4 := detectAgingReceivables w companyId (snd r3) in
  detectLeaks w companyId s
  = mkDetection
      (Js.Obj [("missingPayments", Result_value (fst r1));
               ("underBilling", Result_value (fst r2));
               ("failedRenewals", Result_value (fst r3));
               ("agingReceivables", Result_value (fst r4))])
      (info_starting companyId
       :: error_log "Missing payment" (fst r1) ++ error_log "Under-billing" (fst r2)
       ++ error_log "Failed renewal" (fst r3) ++ error_log "Aging receivable" (fst r4)
       ++ [info_detected_total
             (0 + count_of (Result_value (fst r1)) + count_of (Result_value (fst r2))
              + count_of (Result_value (fst r3)) + count_of (Result_value (fst r4)))
             companyId])
      (snd r4).
Proof.
  cbv zeta. unfold detectLeaks.
  destruct (detectMissingPayments w companyId s) as [r1 s1]. cbn [fst snd].
  destruct (detectUnderBilling w companyId s1) as [r2 s2]. cbn [fst snd].
  destruct (detectFailedRenewals w companyId s2) as [r3 s3]. cbn [fst snd].
  destruct (detectAgingReceivables w companyId s3) as [r4 s4]. cbn [fst snd].
  reflexivity.
Qed.

Lemma returned_properties_are_objects (w : World) (companyId : Z) (s : Leak.Store)
      (k : string) (v : Js.value) :
  Js.get k (returned (detectLeaks w companyId s)) = Some v ->
  exists fields, v = Js.Obj fields.
Proof.
  pose proof (detectLeaks_unfold w companyId s) as E. cbv zeta in E.
  rewrite E. cbn [returned Js.get Js.get_field].
  repeat match goal with
         | |- context [String.eqb k ?x] => destruct (String.eqb k x)
         end; try discriminate;
    intros H; injection H as <-; apply Result_value_is_object.
Qed.

(** C8 (as amended). [detectLeaks] runs the four detectors in order, each on
    the collection the previous one left, and returns an object with exactly
    the four per-detector results, each an object with its [success] flag
    and [count]; the total of the counts goes to the log, as the last line,
    and is no property of the returned object. *)
Theorem detectLeaks_returns (w : World) (companyId : Z) (s : Leak.Store) :
  let r1 := detectMissingPayments w companyId s in
  let r2 := detectUnderBilling w companyId (snd r1) in
  let r3 := detectFailedRenewals w companyId (snd r2) in
  let r4 := detectAgingReceivables w companyId (snd r3) in
  let d := detectLeaks w companyId s in
  returned d
  = Js.Obj [("missingPayments", Result_value (fst r1));
            ("underBilling", Result_value (fst r2));
            ("failedRenewals", Result_value (fst r3));
            ("agingReceivables", Result_value (fst r4))]
  /\ store d = snd r4
  /\ Spec.total_of (returned d)
     = count (fst r1) + count (fst r2) + count (fst r3) + count (fst r4)
  /\ last (logged d) (info_starting companyId)
     = info_detected_total (Spec.total_of (returned d)) companyId
  /\ (forall k v, Js.get k (returned d) = Some v -> exists fields, v = Js.Obj fields).
Proof.
  cbv zeta. split; [|split; [|split; [|split]]];
    try (intros k v; apply returned_properties_are_objects);
    rewrite detectLeaks_unfold; cbn [returned store logged].
  - reflexivity.
  - reflexivity.
  - unfold Spec.total_of. cbn. rewrite !count_of_Result_value. lia.
  - unfold Spec.total_of. cbn [Js.values map snd fold_left].
    rewrite !app_comm_cons, !app_assoc. apply last_last.
Qed.

(** C8, counterexample.  On scenario C two leaks are detected, and no
    property of the returned object holds the number 2. *)
Lemma detectLeaks_returns_no_total :
  Spec.total_of
    (returned (detectLeaks (Scenario.world_C "quickbooks") 1 Scenario.no_leaks)) = 2
  /\ ~ Spec.carries_total
       (returned (detectLeaks (Scenario.world_C "quickbooks") 1 Scenario.no_leaks)).
Proof.
  split; [reflexivity|].
  intros [k H].
  destruct (returned_properties_are_objects _ _ _ _ _ H) as [fields Hf].
  discriminate Hf.
Qed.

End Orchestration.

(** ** Deduplication *)

Module Dedup.

Import LeakDetection.

Lemma LeakType_eqb_eq (a b : LeakType) : LeakType_eqb a b = true -> a = b.
Proof. destruct a, b; cbn; intros H; try discriminate H; reflexivity. Qed.

Lemma LeakType_eqb_refl (a : LeakType) : LeakType_eqb a a = true.
Proof. destruct a; reflexivity. Qed.

Lemma find_none_filter {A : Type} (q : A -> bool) (l : list A) :
  find q l = None -> filter q l = [].
Proof.
  induction l as [|x l IH]; cbn [find filter]; [reflexivity|].
  destruct (q x); [discriminate | exact IH].
Qed.

Lemma filter_none_find {A : Type} (q : A -> bool) (l : list A) :
  (forall x, In x l -> q x = false) -> find q l = None.
Proof.
  induction l as [|x l IH]; cbn [find]; [reflexivity|].
  intros H. rewrite (H x (or_introl eq_refl)). apply IH.
  intros y Hy. apply H. right. exact Hy.
Qed.

Lemma one_match {A : Type} (q : A -> bool) (l : list A) (j : nat) (b : A) :
  nth_error l j = Some b -> q b = true -> (1 <= List.length (filter q l))%nat.
Proof.
  intros Hj Hb. apply nth_error_In in Hj.
  assert (In b (filter q l)) as Hin by (apply filter_In; auto).
  destruct (filter q l); [contradiction | cbn; lia].
Qed.

Lemma two_matches {A : Type} (q : A -> bool) (l : list A) (i j : nat) (a b : A) :
  nth_error l i = Some a -> nth_error l j = Some b -> (i < j)%nat ->
  q a = true -> q b = true -> (2 <= List.length (filter q l))%nat.
Proof.
  revert i j. induction l as [|x l IH]; intros i j Hi Hj Hlt Ha Hb.
  - destruct i; discriminate Hi.
  - destruct j as [|j]; [lia|]. cbn [nth_error] in Hj.
    destruct i as [|i]; cbn [nth_error] in Hi.
    + injection Hi as ->. cbn [filter]. rewrite Ha. cbn [List.length].
      pose proof (one_match q l j b Hj Hb). lia.
    + assert (2 <= List.length (filter q l))%nat as H
          by (apply (IH i j); auto; lia).
      cbn [filter]. destruct (q x); cbn [List.length]; lia.
Qed.

(** *** The refresh of an existing leak keeps every dedup query's answer *)

Lemma matches_open_refresh (c : Z) (ty : LeakType) (p : Leak.RefPath)
      (r : option string) (a : Z) (amt : Q) (d : Leak.t) :
  Leak.matches_open c ty p r (Leak.set_aging_amount a amt d)
  = Leak.matches_open c ty p r d.
Proof. destruct p; reflexivity. Qed.

Lemma filter_update_by_id (q : Leak.t -> bool) (id : Z) (f : Leak.t -> Leak.t)
      (l : list Leak.t) :
  (forall d, q (f d) = q d) ->
  List.length (filter q (Leak.update_by_id id f l)) = List.length (filter q l).
Proof.
  intros Hq. induction l as [|d l IH]; cbn [Leak.update_by_id filter]; [reflexivity|].
  destruct (Leak._id d =? id); cbn [filter].
  - rewrite Hq. destruct (q d); reflexivity.
  - destruct (q d); cbn [List.length]; rewrite IH; reflexivity.
Qed.

Lemma In_update_by_id (id : Z) (f : Leak.t -> Leak.t) (l : list Leak.t) (d' : Leak.t) :
  In d' (Leak.update_by_id id f l) ->
  In d' l \/ exists d0, In d0 l /\ d' = f d0.
Proof.
  induction l as [|d l IH]; cbn [Leak.update_by_id]; [intros []|].
  destruct (Leak._id d =? id); cbn [In].
  - intros [H|H]; [right; exists d; auto | left; auto].
  - intros [H|H]; [left; auto|].
    destruct (IH H) as [H1|[d0 [H1 H2]]]; [left; auto | right; exists d0; auto].
Qed.

(** *** Each kind of step keeps the guard invariant *)

Lemma guarded_refresh (id a : Z) (amt : Q) (s : Leak.Store) :
  Spec.guarded s -> Spec.guarded (Leak.findByIdAndUpdate id a amt s).
Proof.
  intros [H1 H2]. split.
  - intros c ty p r Hp. unfold Spec.open_count, Leak.findByIdAndUpdate. cbn [Leak.docs].
    rewrite filter_update_by_id by (intros d; apply matches_open_refresh).
    apply (H1 c ty p r Hp).
  - intros d' Hin Hopen. unfold Leak.findByIdAndUpdate in Hin. cbn [Leak.docs] in Hin.
    destruct (In_update_by_id _ _ _ _ Hin) as [H|[d0 [H ->]]].
    + apply H2; assumption.
    + apply (H2 d0 H). exact Hopen.
Qed.

Lemma guarded_create (now : Z) (i : Leak.input) (p : Leak.RefPath)
      (s s' : Leak.Store) :
  Spec.path_of (Leak.in_leakType i) = Some p ->
  Leak.in_status i = detected ->
  Leak.findOne_open (Leak.in_company i) (Leak.in_leakType i) p (Spec.ref_in p i) s = None ->
  Leak.create now i s = Ok s' ->
  Spec.guarded s -> Spec.guarded s'.
Proof.
  intros Hp Hst Hnone Hcreate [H1 H2].
  unfold Leak.create in Hcreate.
  destruct (Leak.validate i); [|discriminate]. injection Hcreate as <-.
  set (d := Leak.pre_save now (Leak.construct now (Leak.nextId s) i)).
  split.
  - intros c ty p' r Hp'. unfold Spec.open_count. cbn [Leak.docs].
    rewrite filter_app, length_app. cbn [filter].
    destruct (Leak.matches_open c ty p' r d) eqn:Em.
    + unfold Leak.matches_open, Leak.matches_key in Em.
      apply andb_prop in Em as [Em _]. apply andb_prop in Em as [Em Er].
      apply andb_prop in Em as [Ec Et].
      apply Z.eqb_eq in Ec. apply LeakType_eqb_eq in Et.
      apply ostring_eqb_eq in Er. cbn in Ec, Et. subst c ty.
      rewrite Hp in Hp'. injection Hp' as <-.
      assert (r = Spec.ref_in p i) as -> by (rewrite <- Er; destruct p; reflexivity).
      unfold Leak.findOne_open in Hnone.
      rewrite (find_none_filter _ _ Hnone). cbn. lia.
    + cbn [List.length]. rewrite Nat.add_0_r. apply (H1 c ty p' r Hp').
  - intros d' Hin Hopen. cbn [Leak.docs] in Hin.
    apply in_app_or in Hin as [Hin|[<-|[]]].
    + apply H2; assumption.
    + cbn. rewrite Hp. discriminate.
Qed.

Lemma guarded_step_preserves (s s' : Leak.Store) :
  Spec.guarded s -> Spec.guarded_step s s' -> Spec.guarded s'.
Proof.
  intros Hg [->|[[id [a [amt ->]]]|[now [i [p [Hp [Hst [Hnone Hcreate]]]]]]]].
  - exact Hg.
  - apply guarded_refresh, Hg.
  - eapply guarded_create; eauto.
Qed.

(** *** The four bodies only make such steps *)

Lemma create_counted_step (now : Z) (i : Leak.input) (p : Leak.RefPath)
      (s s' : Leak.Store) (n : Z) :
  Spec.path_of (Leak.in_leakType i) = Some p ->
  Leak.in_status i = detected ->
  Leak.findOne_open (Leak.in_company i) (Leak.in_leakType i) p (Spec.ref_in p i) s = None ->
  create_counted now i s = Ok (s', n) ->
  Spec.guarded_step s s'.
Proof.
  intros Hp Hst Hnone H. unfold create_counted in H.
  destruct (Leak.create now i s) as [s1|e] eqn:E; [|discriminate].
  injection H as <- _. right. right. exists now, i, p. auto.
Qed.

Lemma missingPayments_body_step (w : World) (companyId : Z) (invoice : Invoice.t)
      (s s' : Leak.Store) (n : Z) :
  missingPayments_body w companyId invoice s = Ok (s', n) -> Spec.guarded_step s s'.
Proof.
  unfold missingPayments_body.
  destruct (0 <? _); [|intros H; injection H as <- _; left; reflexivity].
  destruct (Leak.findOne_open _ _ _ _ s) as [existing|] eqn:E.
  - intros H. injection H as <- _. right. left. eauto.
  - apply (create_counted_step _ _ Leak.by_invoiceId); auto.
Qed.

Lemma underBilling_body_step (w : World) (companyId : Z) (contract : Contract.t)
      (s s' : Leak.Store) (n : Z) :
  underBilling_body w companyId contract s = Ok (s', n) -> Spec.guarded_step s s'.
Proof.
  unfold underBilling_body.
  destruct (Js.gt_num _ 5); [|intros H; injection H as <- _; left; reflexivity].
  destruct (Leak.findOne_open _ _ _ _ s) as [existing|] eqn:E.
  - intros H. injection H as <- _. left. reflexivity.
  - apply (create_counted_step _ _ Leak.by_contractId); auto.
Qed.

Lemma failedRenewals_body_step (w : World) (companyId : Z) (contract : Contract.t)
      (s s' : Leak.Store) (n : Z) :
  failedRenewals_body w companyId contract s = Ok (s', n) -> Spec.guarded_step s s'.
Proof.
  unfold failedRenewals_body.
  destruct (negb _); [|intros H; injection H as <- _; left; reflexivity].
  destruct (Leak.findOne_open _ _ _ _ s) as [existing|] eqn:E.
  - intros H. injection H as <- _. left. reflexivity.
  - apply (create_counted_step _ _ Leak.by_contractId); auto.
Qed.

Lemma agingReceivables_body_step (w : World) (companyId : Z) (invoice : Invoice.t)
      (s s' : Leak.Store) (n : Z) :
  agingReceivables_body w companyId invoice s = Ok (s', n) -> Spec.guarded_step s s'.
Proof.
  unfold agingReceivables_body.
  destruct (Leak.findOne_open _ _ _ _ s) as [existing|] eqn:E.
  - intros H. injection H as <- _. left. reflexivity.
  - apply (create_counted_step _ _ Leak.by_invoiceId); auto.
Qed.

Lemma for_each_guarded {A : Type} (body : A -> Leak.Store -> Res (Leak.Store * Z))
      (xs : list A) (s : Leak.Store) (n : Z) :
  (forall x s0 s1 m, body x s0 = Ok (s1, m) -> Spec.guarded_step s0 s1) ->
  Spec.guarded s -> Spec.guarded (fst (for_each body xs s n)).
Proof.
  intros Hbody. revert s n. induction xs as [|x rest IH]; intros s n Hg;
    cbn [for_each]; [exact Hg|].
  destruct (body x s) as [[s1 m]|e] eqn:E; [|exact Hg].
  apply IH. eapply guarded_step_preserves; eauto.
Qed.

Lemma detectLeaks_guarded (w : World) (companyId : Z) (s : Leak.Store) :
  Spec.guarded s -> Spec.guarded (store (detectLeaks w companyId s)).
Proof.
  intros Hg.
  pose proof (Orchestration.detectLeaks_unfold w companyId s) as E. cbv zeta in E.
  rewrite E. cbn [store].
  unfold detectAgingReceivables. rewrite Detectors.snd_finish.
  apply for_each_guarded; [apply agingReceivables_body_step|].
  unfold detectFailedRenewals. rewrite Detectors.snd_finish.
  apply for_each_guarded; [apply failedRenewals_body_step|].
  unfold detectUnderBilling. rewrite Detectors.snd_finish.
  apply for_each_guarded; [apply underBilling_body_step|].
  unfold detectMissingPayments. rewrite Detectors.snd_finish.
  apply for_each_guarded; [apply missingPayments_body_step|].
  exact Hg.
Qed.

Lemma detectLeaks_seq_guarded (calls : list (World * Z)) (s : Leak.Store) :
  Spec.guarded s -> Spec.guarded (detectLeaks_seq calls s).
Proof.
  revert s. induction calls as [|[w companyId] rest IH]; intros s Hg;
    cbn [detectLeaks_seq]; [exact Hg|].
  apply IH, detectLeaks_guarded, Hg.
Qed.

(** *** From the guard invariant to the dedup invariant *)

Lemma no_open_leaks_guarded (s : Leak.Store) :
  Spec.no_open_leaks s = true -> Spec.guarded s.
Proof.
  unfold Spec.no_open_leaks. intros H.
  assert (Hall : forall d, In d (Leak.docs s) -> Leak.is_open d = false).
  { intros d Hd. rewrite forallb_forall in H. specialize (H d Hd).
    apply negb_true_iff in H. exact H. }
  split.
  - intros c ty p r _. unfold Spec.open_count.
    rewrite (find_none_filter (Leak.matches_open c ty p r) (Leak.docs s)); [cbn; lia|].
    apply filter_none_find. intros d Hd. unfold Leak.matches_open.
    rewrite (Hall d Hd). apply andb_false_r.
  - intros d Hd Hopen. rewrite (Hall d Hd) in Hopen. discriminate.
Qed.

Lemma guarded_dedup (s : Leak.Store) : Spec.guarded s -> Spec.dedup_invariant s.
Proof.
  intros [H1 H2] i j a b Hi Hj Hne Ha Hb [Hc [Ht Hr]].
  destruct (Spec.path_of (Leak.leakType a)) as [p|] eqn:Hp.
  2:{ apply (H2 a (nth_error_In _ _ Hi) Ha). exact Hp. }
  set (q := Leak.matches_open (Leak.company a) (Leak.leakType a) p (Leak.ref_at p a)).
  assert (Hqa : q a = true).
  { unfold q, Leak.matches_open, Leak.matches_key.
    rewrite Z.eqb_refl, LeakType_eqb_refl, ostring_eqb_refl, Ha. reflexivity. }
  assert (Hqb : q b = true).
  { unfold q, Leak.matches_open, Leak.matches_key.
    rewrite <- Hc, <- Ht, Hr, Hc, Ht.
    rewrite Z.eqb_refl, LeakType_eqb_refl, ostring_eqb_refl, Hb. reflexivity. }
  pose proof (H1 (Leak.company a) (Leak.leakType a) p (Leak.ref_at p a) Hp) as Hle.
  unfold Spec.open_count in Hle. fold q in Hle.
  destruct (Nat.lt_total i j) as [Hlt|[Heq|Hgt]].
  - pose proof (two_matches q _ i j a b Hi Hj Hlt Hqa Hqb). lia.
  - contradiction.
  - pose proof (two_matches q _ j i b a Hj Hi Hgt Hqb Hqa). lia.
Qed.

(** The dedup query does not see closed leaks. *)
Lemma findOne_open_ignores_closed (c : Z) (ty : LeakType) (p : Leak.RefPath)
      (r : option string) (s : Leak.Store) :
  (forall d, In d (Leak.docs s) -> Leak.matches_key c ty p r d = true ->
             Leak.is_open d = false) ->
  Leak.findOne_open c ty p r s = None.
Proof.
  intros H. unfold Leak.findOne_open. apply filter_none_find.
  intros d Hd. unfold Leak.matches_open.
  destruct (Leak.matches_key c ty p r d) eqn:E; [|reflexivity].
  rewrite (H d Hd E). reflexivity.
Qed.

(** C1. Started on a collection without open leaks, any sequence of
    [detectLeaks] calls (any tenants, any snapshots of clock, invoices and
    contracts) leaves at most one open leak per tenant, leak type and keyed
    source reference (the invoice number or the contract number the
    detector of that type queries on): no two open leaks share a key, the
    dedup query of every detector matches at most one document, and every
    open leak is of a type a detector produces.  The dedup query ignores
    closed leaks: when every leak under a key is recovered or written off
    the query finds nothing, and the missing-payment detector then adds a
    new open leak next to the recovered one. *)
Theorem dedup_after_detectLeaks (calls : list (World * Z)) (s : Leak.Store) :
  Spec.no_open_leaks s = true ->
  Spec.dedup_invariant (detectLeaks_seq calls s)
  /\ Spec.guarded (detectLeaks_seq calls s)
  /\ (forall c ty p r s0,
        (forall d, In d (Leak.docs s0) -> Leak.matches_key c ty p r d = true ->
                   Leak.is_open d = false) ->
        Leak.findOne_open c ty p r s0 = None)
  /\ map (fun d => (Leak.leakType d, Leak.invoiceId (Leak.sourceReference d),
                    Leak.status d))
         (Leak.docs (snd (detectMissingPayments (Scenario.world_C "quickbooks") 1
                                                Scenario.store_recovered)))
     = [(missing_payment, Some "INV-42", recovered);
        (missing_payment, Some "INV-42", detected)].
Proof.
  intros H. split; [|split; [|split]].
  - apply guarded_dedup, detectLeaks_seq_guarded, no_open_leaks_guarded, H.
  - apply detectLeaks_seq_guarded, no_open_leaks_guarded, H.
  - exact findOne_open_ignores_closed.
  - reflexivity.
Qed.

Lemma dedup_after_detectLeaks_witness :
  Spec.dedup_invariant
    (detectLeaks_seq [(Scenario.world_C "quickbooks", 1);
                      (Scenario.world_B, 1);
                      (Scenario.world_C "quickbooks", 1)]
                     Scenario.store_recovered)
  /\ Spec.guarded
       (detectLeaks_seq [(Scenario.world_C "quickbooks", 1);
                         (Scenario.world_B, 1);
                         (Scenario.world_C "quickbooks", 1)]
                        Scenario.store_recovered).
Proof.
  destruct (dedup_after_detectLeaks
              [(Scenario.world_C "quickbooks", 1); (Scenario.world_B, 1);
               (Scenario.world_C "quickbooks", 1)]
              Scenario.store_recovered eq_refl) as [H1 [H2 _]].
  split; [exact H1 | exact H2].
Defined.

End Dedup.

(** ** Ingestion pipeline: repeating a sync *)

Module Idempotence.

Import QuickBooks.

(** *** The literals depend on the tenant only through its id, and on the
    store only through the invoices *)

Lemma build_invoiceData_id (c1 c2 : Company.t) (r : QbInvoice.t) :
  Company._id c1 = Company._id c2 ->
  build_invoiceData c1 r = build_invoiceData c2 r.
Proof. intros H. unfold build_invoiceData. rewrite H. reflexivity. Qed.

Lemma find_quickbooksId_content (x : option string) (l l' : list Invoice.t) :
  map Spec.Invoice_content l' = map Spec.Invoice_content l ->
  option_map Invoice._id
    (find (fun inv => Js.ostring_eqb (Invoice.quickbooksId inv) x) l')
  = option_map Invoice._id
      (find (fun inv => Js.ostring_eqb (Invoice.quickbooksId inv) x) l).
Proof.
  intros H.
  pose proof (find_map_content Spec.Invoice_content
                (fun inv => Js.ostring_eqb (Invoice.quickbooksId inv) x) l l'
                (fun _ => eq_refl) H) as Hf.
  destruct (find _ l) as [d|], (find _ l') as [d'|]; try contradiction;
    [|reflexivity].
  cbn [option_map]. f_equal.
  change (Invoice._id (Spec.Invoice_content d') = Invoice._id (Spec.Invoice_content d)).
  rewrite Hf. reflexivity.
Qed.

Lemma linked_invoice_content (r : QbPayment.t) (db1 db2 : Db) :
  map Spec.Invoice_content (invoices db1) = map Spec.Invoice_content (invoices db2) ->
  linked_invoice r db1 = linked_invoice r db2.
Proof.
  intros H. unfold linked_invoice, Invoice_findOne_by_quickbooksId.
  destruct (QbPayment.Line r) as [[|line0 lines]|]; try reflexivity.
  destruct (Wire.LinkedTxns line0) as [txns|]; [|reflexivity].
  pose proof (find_quickbooksId_content
                (match txns with txn :: _ => Wire.TxnId txn | [] => None end)
                (invoices db2) (invoices db1) H) as Hf.
  destruct (find _ (invoices db1)), (find _ (invoices db2)); cbn in Hf;
    congruence.
Qed.

Lemma build_paymentData_id (c1 c2 : Company.t) (r : QbPayment.t) (db1 db2 : Db) :
  Company._id c1 = Company._id c2 ->
  map Spec.Invoice_content (invoices db1) = map Spec.Invoice_content (invoices db2) ->
  build_paymentData c1 r db1 = build_paymentData c2 r db2.
Proof.
  intros H Hi. unfold build_paymentData.
  rewrite H, (linked_invoice_content r db1 db2 Hi). reflexivity.
Qed.

(** *** What an update renews and what it keeps *)

Lemma Invoice_content_apply (now first now' first' : Z) (u : InvoiceSet)
      (d d' : Invoice.t) :
  Spec.Invoice_content d' = Spec.Invoice_content d ->
  Spec.Invoice_content (Invoice_apply now' first' u d')
  = Spec.Invoice_content (Invoice_apply now first u d).
Proof.
  intros H. unfold Spec.Invoice_content in H. injection H as.
  unfold Spec.Invoice_content, Invoice_apply. cbn.
  rewrite !Ingestion.number_lines_content. congruence.
Qed.

Lemma set_if_defined_idem {A : Type} (x old : option A) :
  Js.set_if_defined x (Js.set_if_defined x old) = Js.set_if_defined x old.
Proof. destruct x; reflexivity. Qed.

Lemma Invoice_apply_settles (now first : Z) (company : Company.t) (r : QbInvoice.t)
      (u : InvoiceSet) (d : Invoice.t) :
  cast_invoiceData (build_invoiceData company r) = Ok u ->
  Passes.Invoice_settled company r (Invoice_apply now first u d).
Proof.
  intros Hc. exists u. split; [exact Hc|].
  unfold Spec.Invoice_content, Invoice_apply. cbn.
  rewrite !Ingestion.number_lines_content, !set_if_defined_idem. reflexivity.
Qed.

Lemma Invoice_settled_content (company company' : Company.t) (r : QbInvoice.t)
      (d d' : Invoice.t) :
  Company._id company' = Company._id company ->
  Spec.Invoice_content d' = Spec.Invoice_content d ->
  Passes.Invoice_settled company r d -> Passes.Invoice_settled company' r d'.
Proof.
  intros Hid Hd [u [Hc Hu]]. exists u.
  rewrite (build_invoiceData_id company' company r Hid). split; [exact Hc|].
  rewrite (Invoice_content_apply 0 0 0 0 u d d' Hd), Hu, Hd. reflexivity.
Qed.

Lemma Payment_content_apply (now now' : Z) (u : PaymentSet) (d d' : Payment.t) :
  Spec.Payment_content d' = Spec.Payment_content d ->
  Spec.Payment_content (Payment_apply now' u d')
  = Spec.Payment_content (Payment_apply now u d).
Proof.
  intros H. unfold Spec.Payment_content in H. injection H as.
  unfold Spec.Payment_content, Payment_apply. cbn. congruence.
Qed.

Lemma Payment_apply_settles (now : Z) (company : Company.t) (r : QbPayment.t)
      (db : Db) (u : PaymentSet) (d : Payment.t) :
  cast_paymentData (build_paymentData company r db) = Ok u ->
  Passes.Payment_settled company r db (Payment_apply now u d).
Proof.
  intros Hc. exists u. split; [exact Hc|].
  unfold Spec.Payment_content, Payment_apply. cbn.
  rewrite !set_if_defined_idem. reflexivity.
Qed.

Lemma Payment_settled_content (company company' : Company.t) (r : QbPayment.t)
      (db db' : Db) (d d' : Payment.t) :
  Company._id company' = Company._id company ->
  map Spec.Invoice_content (invoices db') = map Spec.Invoice_content (invoices db) ->
  Spec.Payment_content d' = Spec.Payment_content d ->
  Passes.Payment_settled company r db d -> Passes.Payment_settled company' r db' d'.
Proof.
  intros Hid Hi Hd [u [Hc Hu]]. exists u.
  rewrite (build_paymentData_id company' company r db' db Hid Hi).
  split; [exact Hc|].
  rewrite (Payment_content_apply 0 0 u d d' Hd), Hu, Hd. reflexivity.
Qed.

Lemma Invoice_upserted_free (now c : Z) (r : QbInvoice.t) (before : option Invoice.t)
      (free free' : Z) (d : Invoice.t) :
  free' <= free ->
  Spec.Invoice_upserted now c r before free d ->
  Spec.Invoice_upserted now c r before free' d.
Proof.
  intros Hle H. unfold Spec.Invoice_upserted in *.
  destruct before as [d0|]; [exact H|].
  repeat match goal with
         | H : _ /\ _ |- _ => destruct H
         end.
  repeat split; try assumption. lia.
Qed.

Lemma Payment_upserted_free (now c : Z) (r : QbPayment.t) (link : option Z)
      (before : option Payment.t) (free free' : Z) (d : Payment.t) :
  free' <= free ->
  Spec.Payment_upserted now c r link before free d ->
  Spec.Payment_upserted now c r link before free' d.
Proof.
  intros Hle H. unfold Spec.Payment_upserted in *.
  destruct before as [d0|]; [exact H|].
  repeat match goal with
         | H : _ /\ _ |- _ => destruct H
         end.
  repeat split; try assumption. lia.
Qed.

(** *** One write and the other keys *)

Lemma Invoice_write_other (now : Z) (company : Company.t) (r : QbInvoice.t)
      (db db' : Db) (r' : QbInvoice.t) :
  Invoice_findOneAndUpdate now (QbInvoice.Id r, Company._id company)
                           (build_invoiceData company r) db = Ok db' ->
  QbInvoice.Id r <> QbInvoice.Id r' ->
  Spec.Invoice_find (Company._id company) r' db'
  = Spec.Invoice_find (Company._id company) r' db
  /\ nextId db <= nextId db'.
Proof.
  intros Hw Hne.
  destruct (Ingestion.Invoice_upsert_ok _ _ _ _ _ Hw) as [u [Hc [_ [-> _]]]].
  pose proof (Ingestion.Invoice_key_cast _ _ _ Hc) as Hk.
  unfold Spec.Invoice_find. cbn [invoices nextId with_invoices]. split.
  - apply (upsert_other Invoice_matches (Invoice_apply now (nextId db))
             (Invoice_fresh now) (QbInvoice.Id r, Company._id company)
             (QbInvoice.Id r', Company._id company) u (invoices db, _)).
    + intros d. apply Ingestion.Invoice_matches_other. exact Hne.
    + cbn [fst snd].
      apply (Ingestion.Invoice_matches_other (QbInvoice.Id r, Company._id company));
        [exact Hne|].
      rewrite <- Hk. apply Ingestion.Invoice_matches_apply. rewrite Hk.
      destruct (find _ (invoices db)) as [d0|] eqn:E.
      * destruct (find_some_split _ _ _ E) as [_ [_ [_ [_ H]]]]. exact H.
      * apply Ingestion.Invoice_matches_fresh.
  - pose proof (upsert_counter Invoice_matches (Invoice_apply now (nextId db))
                  (Invoice_fresh now) (QbInvoice.Id r, Company._id company) u
                  (invoices db,
                   nextId db
                   + Z.of_nat (List.length
                                 (i_lineItems (build_invoiceData company r))))) as H.
    cbn [snd] in H. lia.
Qed.

Lemma Payment_write_other (now : Z) (company : Company.t) (r : QbPayment.t)
      (db db' : Db) (r' : QbPayment.t) :
  Payment_findOneAndUpdate now (QbPayment.Id r, Company._id company)
                           (build_paymentData company r db) db = Ok db' ->
  QbPayment.Id r <> QbPayment.Id r' ->
  Spec.Payment_find (Company._id company) r' db'
  = Spec.Payment_find (Company._id company) r' db
  /\ nextId db <= nextId db'.
Proof.
  intros Hw Hne.
  destruct (Ingestion.Payment_upsert_ok _ _ _ _ _ Hw) as [u [Hc [_ [-> _]]]].
  pose proof (Ingestion.Payment_key_cast _ _ _ _ Hc) as Hk.
  unfold Spec.Payment_find. cbn [payments nextId with_payments]. split.
  - apply (upsert_other Payment_matches (Payment_apply now) (Payment_fresh now)
             (QbPayment.Id r, Company._id company)
             (QbPayment.Id r', Company._id company) u (payments db, nextId db)).
    + intros d. apply Ingestion.Payment_matches_other. exact Hne.
    + cbn [fst snd].
      apply (Ingestion.Payment_matches_other (QbPayment.Id r, Company._id company));
        [exact Hne|].
      rewrite <- Hk. apply Ingestion.Payment_matches_apply. rewrite Hk.
      destruct (find _ (payments db)) as [d0|] eqn:E.
      * destruct (find_some_split _ _ _ E) as [_ [_ [_ [_ H]]]]. exact H.
      * apply Ingestion.Payment_matches_fresh.
  - pose proof (upsert_counter Payment_matches (Payment_apply now) (Payment_fresh now)
                  (QbPayment.Id r, Company._id company) u (payments db, nextId db)) as H.
    cbn [snd] in H. lia.
Qed.

(** *** The loops and the keys they do not name *)

Lemma syncInvoices_loop_other (now : Z) (company : Company.t)
      (rows : list QbInvoice.t) (db : Db) (n : Z) (r' : QbInvoice.t) :
  ~ In (QbInvoice.Id r') (map QbInvoice.Id rows) ->
  Spec.Invoice_find (Company._id company) r' (fst (syncInvoices_loop now company rows db n))
  = Spec.Invoice_find (Company._id company) r' db
  /\ nextId db <= nextId (fst (syncInvoices_loop now company rows db n)).
Proof.
  revert db n. induction rows as [|r rest IH]; intros db n Hnot;
    cbn [syncInvoices_loop fst]; [split; [reflexivity | lia]|].
  cbn [map In] in Hnot.
  destruct (Invoice_findOneAndUpdate now _ _ db) as [db1|e] eqn:Ew;
    [|cbn [fst]; split; [reflexivity | lia]].
  destruct (Invoice_write_other _ _ _ _ _ r' Ew) as [H1 H2]; [tauto|].
  destruct (IH db1 (n + 1)) as [H3 H4]; [tauto|].
  rewrite H3, H1. split; [reflexivity | lia].
Qed.

Lemma syncPayments_loop_other (now : Z) (company : Company.t)
      (rows : list QbPayment.t) (db : Db) (n : Z) (r' : QbPayment.t) :
  ~ In (QbPayment.Id r') (map QbPayment.Id rows) ->
  Spec.Payment_find (Company._id company) r' (fst (syncPayments_loop now company rows db n))
  = Spec.Payment_find (Company._id company) r' db
  /\ nextId db <= nextId (fst (syncPayments_loop now company rows db n)).
Proof.
  revert db n. induction rows as [|r rest IH]; intros db n Hnot;
    cbn [syncPayments_loop fst]; [split; [reflexivity | lia]|].
  cbn [map In] in Hnot.
  destruct (Payment_findOneAndUpdate now _ _ db) as [db1|e] eqn:Ew;
    [|cbn [fst]; split; [reflexivity | lia]].
  destruct (Payment_write_other _ _ _ _ _ r' Ew) as [H1 H2]; [tauto|].
  destruct (IH db1 (n + 1)) as [H3 H4]; [tauto|].
  rewrite H3, H1. split; [reflexivity | lia].
Qed.

Lemma syncInvoices_loop_counter (now : Z) (company : Company.t)
      (rows : list QbInvoice.t) (db : Db) (n : Z) :
  nextId db <= nextId (fst (syncInvoices_loop now company rows db n)).
Proof.
  revert db n. induction rows as [|r rest IH]; intros db n;
    cbn [syncInvoices_loop fst]; [lia|].
  destruct (Invoice_findOneAndUpdate now _ _ db) as [db1|e] eqn:Ew; [|cbn [fst]; lia].
  specialize (IH db1 (n + 1)).
  destruct (Ingestion.Invoice_upsert_ok _ _ _ _ _ Ew) as [u [_ [_ [E _]]]].
  pose proof (upsert_counter Invoice_matches (Invoice_apply now (nextId db))
                (Invoice_fresh now) (QbInvoice.Id r, Company._id company) u
                (invoices db,
                 nextId db
                 + Z.of_nat (List.length
                               (i_lineItems (build_invoiceData company r))))) as H.
  assert (Hle : nextId db <= nextId db1)
    by (rewrite E; cbn [snd nextId with_invoices] in *; lia).
  lia.
Qed.

Lemma syncPayments_loop_counter (now : Z) (company : Company.t)
      (rows : list QbPayment.t) (db : Db) (n : Z) :
  nextId db <= nextId (fst (syncPayments_loop now company rows db n)).
Proof.
  revert db n. induction rows as [|r rest IH]; intros db n;
    cbn [syncPayments_loop fst]; [lia|].
  destruct (Payment_findOneAndUpdate now _ _ db) as [db1|e] eqn:Ew; [|cbn [fst]; lia].
  specialize (IH db1 (n + 1)).
  destruct (Ingestion.Payment_upsert_ok _ _ _ _ _ Ew) as [u [_ [_ [E _]]]].
  pose proof (upsert_counter Payment_matches (Payment_apply now) (Payment_fresh now)
                (QbPayment.Id r, Company._id company) u (payments db, nextId db)) as H.
  assert (Hle : nextId db <= nextId db1)
    by (rewrite E; cbn [snd nextId with_payments] in *; lia).
  lia.
Qed.

(** *** A run that completes: every row has its document *)

Lemma find_matches (c : Z) (r : QbInvoice.t) (db : Db) (d0 : Invoice.t) :
  Spec.Invoice_find c r db = Some d0 ->
  Invoice_matches (QbInvoice.Id r, c) d0 = true.
Proof.
  unfold Spec.Invoice_find. intros E.
  destruct (find_some_split _ _ _ E) as [_ [_ [_ [_ H]]]]. exact H.
Qed.

Lemma Payment_find_matches (c : Z) (r : QbPayment.t) (db : Db) (d0 : Payment.t) :
  Spec.Payment_find c r db = Some d0 ->
  Payment_matches (QbPayment.Id r, c) d0 = true.
Proof.
  unfold Spec.Payment_find. intros E.
  destruct (find_some_split _ _ _ E) as [_ [_ [_ [_ H]]]]. exact H.
Qed.

Lemma syncInvoices_loop_first (now : Z) (company : Company.t)
      (rows : list QbInvoice.t) (db db' : Db) (n m : Z) :
  NoDup (map QbInvoice.Id rows) ->
  syncInvoices_loop now company rows db n = (db', Ok m) ->
  m = n + Z.of_nat (List.length rows)
  /\ forall r, In r rows ->
       exists d,
         Spec.Invoice_find (Company._id company) r db' = Some d
         /\ Spec.Invoice_upserted now (Company._id company) r
              (Spec.Invoice_find (Company._id company) r db) (nextId db) d
         /\ Passes.Invoice_settled company r d.
Proof.
  revert db n. induction rows as [|r0 rest IH]; intros db n Hnd;
    cbn [syncInvoices_loop].
  - intros H. injection H as <- <-. split; [cbn; lia|]. intros r [].
  - cbn [map] in Hnd. apply NoDup_cons_iff in Hnd as [Hnot Hnd].
    destruct (Invoice_findOneAndUpdate now _ _ db) as [db1|e] eqn:Ew;
      [|discriminate].
    intros Hl. destruct (IH db1 (n + 1) Hnd Hl) as [Hm Hrows].
    split; [cbn [List.length]; lia|].
    intros r [<-|Hin].
    + destruct (Ingestion.Invoice_upsert_ok _ _ _ _ _ Ew) as [u [Hc [_ [_ Hf]]]].
      cbv zeta in Hf.
      destruct (syncInvoices_loop_other now company rest db1 (n + 1) r0 Hnot)
        as [Hsame _].
      rewrite Hl in Hsame. cbn [fst] in Hsame.
      eexists. split; [rewrite Hsame; exact Hf|]. split.
      * apply Ingestion.Invoice_apply_upserted; [exact Hc | | lia].
        intros d0 E. apply (find_matches _ _ _ _ E).
      * apply Invoice_apply_settles, Hc.
    + destruct (Hrows r Hin) as [d [Hf [Hu Hs]]].
      assert (Hne : QbInvoice.Id r0 <> QbInvoice.Id r).
      { intros E. apply Hnot. rewrite E. apply in_map, Hin. }
      destruct (Invoice_write_other _ _ _ _ _ r Ew Hne) as [Hsame Hnext].
      exists d. split; [exact Hf|]. split; [|exact Hs].
      rewrite <- Hsame. apply (Invoice_upserted_free _ _ _ _ _ _ _ Hnext Hu).
Qed.

Lemma syncPayments_loop_first (now : Z) (company : Company.t)
      (rows : list QbPayment.t) (db db' : Db) (n m : Z) :
  NoDup (map QbPayment.Id rows) ->
  syncPayments_loop now company rows db n = (db', Ok m) ->
  m = n + Z.of_nat (List.length rows)
  /\ forall r, In r rows ->
       exists d,
         Spec.Payment_find (Company._id company) r db' = Some d
         /\ Spec.Payment_upserted now (Company._id company) r (linked_invoice r db)
              (Spec.Payment_find (Company._id company) r db) (nextId db) d
         /\ Passes.Payment_settled company r db d.
Proof.
  revert db n. induction rows as [|r0 rest IH]; intros db n Hnd;
    cbn [syncPayments_loop].
  - intros H. injection H as <- <-. split; [cbn; lia|]. intros r [].
  - cbn [map] in Hnd. apply NoDup_cons_iff in Hnd as [Hnot Hnd].
    destruct (Payment_findOneAndUpdate now _ _ db) as [db1|e] eqn:Ew;
      [|discriminate].
    intros Hl. destruct (IH db1 (n + 1) Hnd Hl) as [Hm Hrows].
    split; [cbn [List.length]; lia|].
    destruct (SyncMarker.Payment_write_frame _ _ _ _ _ Ew) as [_ Hinv].
    intros r [<-|Hin].
    + destruct (Ingestion.Payment_upsert_ok _ _ _ _ _ Ew) as [u [Hc [_ [_ Hf]]]].
      cbv zeta in Hf.
      destruct (syncPayments_loop_other now company rest db1 (n + 1) r0 Hnot)
        as [Hsame _].
      rewrite Hl in Hsame. cbn [fst] in Hsame.
      eexists. split; [rewrite Hsame; exact Hf|]. split.
      * apply Ingestion.Payment_apply_upserted; [exact Hc | | lia].
        intros d0 E. apply (Payment_find_matches _ _ _ _ E).
      * apply Payment_apply_settles, Hc.
    + destruct (Hrows r Hin) as [d [Hf [Hu Hs]]].
      assert (Hne : QbPayment.Id r0 <> QbPayment.Id r).
      { intros E. apply Hnot. rewrite E. apply in_map, Hin. }
      destruct (Payment_write_other _ _ _ _ _ r Ew Hne) as [Hsame Hnext].
      assert (Hc : map Spec.Invoice_content (invoices db1)
                   = map Spec.Invoice_content (invoices db))
        by (rewrite Hinv; reflexivity).
      exists d. split; [exact Hf|]. split.
      * rewrite <- Hsame, <- (linked_invoice_content r db1 db Hc).
        apply (Payment_upserted_free _ _ _ _ _ _ _ _ Hnext Hu).
      * apply (Payment_settled_content company company r db1 db d d eq_refl
                 (eq_sym Hc) eq_refl Hs).
Qed.

(** *** A run over settled documents renews them and nothing else *)

Lemma content_invoiceNumber (d d' : Invoice.t) :
  Spec.Invoice_content d' = Spec.Invoice_content d ->
  Invoice.invoiceNumber d' = Invoice.invoiceNumber d.
Proof.
  intros H.
  change (Invoice.invoiceNumber (Spec.Invoice_content d')
          = Invoice.invoiceNumber (Spec.Invoice_content d)).
  rewrite H. reflexivity.
Qed.

Lemma content_paymentId (d d' : Payment.t) :
  Spec.Payment_content d' = Spec.Payment_content d ->
  Payment.paymentId d' = Payment.paymentId d.
Proof.
  intros H.
  change (Payment.paymentId (Spec.Payment_content d')
          = Payment.paymentId (Spec.Payment_content d)).
  rewrite H. reflexivity.
Qed.

Lemma Invoice_find_content (c : Z) (r : QbInvoice.t) (db db' : Db) (d : Invoice.t) :
  map Spec.Invoice_content (invoices db') = map Spec.Invoice_content (invoices db) ->
  Spec.Invoice_find c r db = Some d ->
  exists d', Spec.Invoice_find c r db' = Some d'
             /\ Spec.Invoice_content d' = Spec.Invoice_content d.
Proof.
  unfold Spec.Invoice_find. intros H E.
  pose proof (find_map_content Spec.Invoice_content
                (Invoice_matches (QbInvoice.Id r, c)) (invoices db) (invoices db')
                (fun _ => eq_refl) H) as Hf.
  rewrite E in Hf. destruct (find _ (invoices db')) as [d'|]; [|contradiction].
  exists d'. auto.
Qed.

Lemma Payment_find_content (c : Z) (r : QbPayment.t) (db db' : Db) (d : Payment.t) :
  map Spec.Payment_content (payments db') = map Spec.Payment_content (payments db) ->
  Spec.Payment_find c r db = Some d ->
  exists d', Spec.Payment_find c r db' = Some d'
             /\ Spec.Payment_content d' = Spec.Payment_content d.
Proof.
  unfold Spec.Payment_find. intros H E.
  pose proof (find_map_content Spec.Payment_content
                (Payment_matches (QbPayment.Id r, c)) (payments db) (payments db')
                (fun _ => eq_refl) H) as Hf.
  rewrite E in Hf. destruct (find _ (payments db')) as [d'|]; [|contradiction].
  exists d'. auto.
Qed.

(** The write of a row on its settled document goes through. *)
Lemma Invoice_write_settled (now : Z) (company : Company.t) (r : QbInvoice.t)
      (db : Db) (d : Invoice.t) :
  Spec.Invoice_find (Company._id company) r db = Some d ->
  Passes.Invoice_settled company r d ->
  exists db',
    Invoice_findOneAndUpdate now (QbInvoice.Id r, Company._id company)
                             (build_invoiceData company r) db = Ok db'
    /\ map Spec.Invoice_content (invoices db') = map Spec.Invoice_content (invoices db)
    /\ payments db' = payments db /\ companies db' = companies db.
Proof.
  intros Hf [u [Hc Hu]].
  assert (Hcontent : Spec.Invoice_content (Invoice_apply now (nextId db) u d)
                     = Spec.Invoice_content d).
  { rewrite (Invoice_content_apply 0 0 now (nextId db) u d d eq_refl). exact Hu. }
  unfold Invoice_findOneAndUpdate. rewrite Hc. cbv zeta.
  unfold Spec.Invoice_find in Hf. rewrite Hf.
  unfold Invoice_number_rejected.
  rewrite (content_invoiceNumber _ _ Hcontent), ostring_eqb_refl. cbn [negb andb].
  eexists. split; [reflexivity|]. cbn [invoices payments companies with_invoices].
  split; [|auto].
  apply (upsert_hit_map Invoice_matches (Invoice_apply now (nextId db))
           (Invoice_fresh now) Spec.Invoice_content
           (QbInvoice.Id r, Company._id company) u (invoices db, _) d Hf Hcontent).
Qed.

Lemma Payment_write_settled (now : Z) (company : Company.t) (r : QbPayment.t)
      (db : Db) (d : Payment.t) :
  Spec.Payment_find (Company._id company) r db = Some d ->
  Passes.Payment_settled company r db d ->
  exists db',
    Payment_findOneAndUpdate now (QbPayment.Id r, Company._id company)
                             (build_paymentData company r db) db = Ok db'
    /\ map Spec.Payment_content (payments db') = map Spec.Payment_content (payments db)
    /\ invoices db' = invoices db /\ companies db' = companies db.
Proof.
  intros Hf [u [Hc Hu]].
  assert (Hcontent : Spec.Payment_content (Payment_apply now u d)
                     = Spec.Payment_content d).
  { rewrite (Payment_content_apply 0 now u d d eq_refl). exact Hu. }
  unfold Payment_findOneAndUpdate. rewrite Hc. cbv zeta.
  unfold Spec.Payment_find in Hf. rewrite Hf.
  unfold Payment_id_rejected.
  rewrite (content_paymentId _ _ Hcontent), String.eqb_refl. cbn [negb andb].
  eexists. split; [reflexivity|]. cbn [invoices payments companies with_payments].
  split; [|auto].
  apply (upsert_hit_map Payment_matches (Payment_apply now) (Payment_fresh now)
           Spec.Payment_content (QbPayment.Id r, Company._id company) u
           (payments db, nextId db) d Hf Hcontent).
Qed.

Lemma syncInvoices_loop_again (now : Z) (company : Company.t)
      (rows : list QbInvoice.t) (db : Db) (n : Z) :
  (forall r, In r rows ->
     exists d, Spec.Invoice_find (Company._id company) r db = Some d
               /\ Passes.Invoice_settled company r d) ->
  exists db',
    syncInvoices_loop now company rows db n
    = (db', Ok (n + Z.of_nat (List.length rows)))
    /\ map Spec.Invoice_content (invoices db') = map Spec.Invoice_content (invoices db)
    /\ payments db' = payments db.
Proof.
  revert db n. induction rows as [|r rest IH]; intros db n Hall.
  - exists db. cbn. rewrite Z.add_0_r. auto.
  - destruct (Hall r (or_introl eq_refl)) as [d [Hf Hs]].
    destruct (Invoice_write_settled now company r db d Hf Hs)
      as [db1 [Hw [Hc1 [Hp1 _]]]].
    destruct (IH db1 (n + 1)) as [db' [Hl [Hc Hp]]].
    { intros r' Hin. destruct (Hall r' (or_intror Hin)) as [d' [Hf' Hs']].
      destruct (Invoice_find_content _ _ _ _ _ Hc1 Hf') as [d'' [Hf'' Hd]].
      exists d''. split; [exact Hf''|].
      apply (Invoice_settled_content company company r' d' d'' eq_refl Hd Hs'). }
    exists db'. cbn [syncInvoices_loop]. rewrite Hw, Hl.
    split; [f_equal; f_equal; cbn [List.length]; lia|].
    rewrite Hc, Hc1, Hp, Hp1. auto.
Qed.

Lemma syncPayments_loop_again (now : Z) (company : Company.t)
      (rows : list QbPayment.t) (db : Db) (n : Z) :
  (forall r, In r rows ->
     exists d, Spec.Payment_find (Company._id company) r db = Some d
               /\ Passes.Payment_settled company r db d) ->
  exists db',
    syncPayments_loop now company rows db n
    = (db', Ok (n + Z.of_nat (List.length rows)))
    /\ map Spec.Payment_content (payments db') = map Spec.Payment_content (payments db)
    /\ invoices db' = invoices db.
Proof.
  revert db n. induction rows as [|r rest IH]; intros db n Hall.
  - exists db. cbn. rewrite Z.add_0_r. auto.
  - destruct (Hall r (or_introl eq_refl)) as [d [Hf Hs]].
    destruct (Payment_write_settled now company r db d Hf Hs)
      as [db1 [Hw [Hc1 [Hi1 _]]]].
    destruct (IH db1 (n + 1)) as [db' [Hl [Hc Hi]]].
    { intros r' Hin. destruct (Hall r' (or_intror Hin)) as [d' [Hf' Hs']].
      destruct (Payment_find_content _ _ _ _ _ Hc1 Hf') as [d'' [Hf'' Hd]].
      exists d''. split; [exact Hf''|].
      apply (Payment_settled_content company company r' db db1 d' d'' eq_refl);
        [rewrite Hi1; reflexivity | exact Hd | exact Hs']. }
    exists db'. cbn [syncPayments_loop]. rewrite Hw, Hl.
    split; [f_equal; f_equal; cbn [List.length]; lia|].
    rewrite Hc, Hc1, Hi, Hi1. auto.
Qed.

(** *** One sync call *)

Lemma Invoice_find_ext (c : Z) (r : QbInvoice.t) (db db' : Db) :
  invoices db' = invoices db -> Spec.Invoice_find c r db' = Spec.Invoice_find c r db.
Proof. unfold Spec.Invoice_find. intros ->. reflexivity. Qed.

Lemma Payment_find_ext (c : Z) (r : QbPayment.t) (db db' : Db) :
  payments db' = payments db -> Spec.Payment_find c r db' = Spec.Payment_find c r db.
Proof. unfold Spec.Payment_find. intros ->. reflexivity. Qed.

(** [syncInvoices] either fails at its request, leaving both collections,
    or runs its loop on them. *)
Lemma syncInvoices_shape (env : Env) (company : Company.t) (db : Db) :
  (is_ok (fst (syncInvoices env company db)) = false
   /\ invoices (snd (syncInvoices env company db)) = invoices db
   /\ payments (snd (syncInvoices env company db)) = payments db
   /\ nextId (snd (syncInvoices env company db)) = nextId db)
  \/ exists db0 db2 res,
       invoices db0 = invoices db /\ payments db0 = payments db
       /\ nextId db0 = nextId db
       /\ syncInvoices_loop (now env) company (Spec.invoice_rows env) db0 0 = (db2, res)
       /\ invoices (snd (syncInvoices env company db)) = invoices db2
       /\ payments (snd (syncInvoices env company db)) = payments db2
       /\ nextId (snd (syncInvoices env company db)) = nextId db2
       /\ fst (syncInvoices env company db)
          = match res with
            | Ok m => Ok (mkSyncResult true m)
            | Err e => Err e
            end.
Proof.
  unfold syncInvoices, Spec.invoice_rows.
  destruct (TokenLifecycle.makeRequest_frame env company query_Invoice db)
    as [Hi [Hp [Hn _]]].
  destruct (makeRequest env company query_Invoice db) as [[response|e] db0] eqn:Em;
    cbn [snd fst is_ok] in *; [|left; auto].
  right. rewrite <- (SyncMarker.makeRequest_response _ _ _ _ _ _ Em).
  destruct (syncInvoices_loop (now env) company _ db0 0) as [db2 res] eqn:El.
  exists db0, db2, res. destruct res; cbn; auto 10.
Qed.

Lemma syncPayments_shape (env : Env) (company : Company.t) (db : Db) :
  (is_ok (fst (syncPayments env company db)) = false
   /\ invoices (snd (syncPayments env company db)) = invoices db
   /\ payments (snd (syncPayments env company db)) = payments db
   /\ nextId (snd (syncPayments env company db)) = nextId db)
  \/ exists db0 db2 res,
       invoices db0 = invoices db /\ payments db0 = payments db
       /\ nextId db0 = nextId db
       /\ syncPayments_loop (now env) company (Spec.payment_rows env) db0 0 = (db2, res)
       /\ snd (syncPayments env company db) = db2
       /\ fst (syncPayments env company db)
          = match res with
            | Ok m => Ok (mkSyncResult true m)
            | Err e => Err e
            end.
Proof.
  unfold syncPayments, Spec.payment_rows.
  destruct (TokenLifecycle.makeRequest_frame env company query_Payment db)
    as [Hi [Hp [Hn _]]].
  destruct (makeRequest env company query_Payment db) as [[response|e] db0] eqn:Em;
    cbn [snd fst is_ok] in *; [|left; auto].
  right. rewrite <- (SyncMarker.makeRequest_response _ _ _ _ _ _ Em).
  destruct (syncPayments_loop (now env) company _ db0 0) as [db2 res] eqn:El.
  exists db0, db2, res. destruct res; cbn; auto 10.
Qed.

(** *** Full sync *)

Lemma fullSync_snd (env : Env) (company : Company.t) (db : Db) :
  snd (fullSync env company db)
  = if is_ok (fst (syncInvoices env company db))
    then snd (syncPayments env company (snd (syncInvoices env company db)))
    else snd (syncInvoices env company db).
Proof.
  unfold fullSync.
  destruct (syncInvoices env company db) as [[r1|e] db1]; cbn [fst snd is_ok];
    [|reflexivity].
  destruct (syncPayments env company db1) as [[r2|e] db2]; reflexivity.
Qed.

Lemma fullSync_ok (env : Env) (company : Company.t) (db : Db) :
  is_ok (fst (fullSync env company db))
  = is_ok (fst (syncInvoices env company db))
    && is_ok (fst (syncPayments env company (snd (syncInvoices env company db)))).
Proof.
  unfold fullSync.
  destruct (syncInvoices env company db) as [[r1|e] db1]; cbn [fst snd is_ok andb];
    [|reflexivity].
  destruct (syncPayments env company db1) as [[r2|e] db2]; reflexivity.
Qed.

(** A completed [syncInvoices]: every row of the answer has its document. *)
Lemma syncInvoices_first (env : Env) (company : Company.t) (db : Db) :
  NoDup (map QbInvoice.Id (Spec.invoice_rows env)) ->
  is_ok (fst (syncInvoices env company db)) = true ->
  let db1 := snd (syncInvoices env company db) in
  payments db1 = payments db /\ nextId db <= nextId db1
  /\ forall r, In r (Spec.invoice_rows env) ->
       exists d,
         Spec.Invoice_find (Company._id company) r db1 = Some d
         /\ Spec.Invoice_upserted (now env) (Company._id company) r
              (Spec.Invoice_find (Company._id company) r db) (nextId db) d
         /\ Passes.Invoice_settled company r d.
Proof.
  intros Hnd Hok. cbv zeta.
  destruct (syncInvoices_shape env company db)
    as [[Hf _]|[db0 [db2 [res [Hi [Hp [Hn [Hl [Hi2 [Hp2 [Hn2 Hr]]]]]]]]]]].
  { rewrite Hf in Hok. discriminate. }
  rewrite Hr in Hok. destruct res as [m|e]; [|discriminate Hok].
  destruct (syncInvoices_loop_first _ _ _ _ _ _ _ Hnd Hl) as [_ Hrows].
  destruct (SyncMarker.syncInvoices_loop_frame (now env) company
              (Spec.invoice_rows env) db0 0) as [_ Hpf].
  rewrite Hl in Hpf. cbn [fst] in Hpf.
  split; [rewrite Hp2, Hpf, Hp; reflexivity|].
  split.
  - rewrite Hn2, <- Hn.
    pose proof (syncInvoices_loop_counter (now env) company (Spec.invoice_rows env)
                  db0 0) as H.
    rewrite Hl in H. exact H.
  - intros r Hin. destruct (Hrows r Hin) as [d [Hf [Hu Hs]]].
    exists d. rewrite (Invoice_find_ext _ r db2 _ Hi2).
    rewrite <- (Invoice_find_ext _ r db db0 Hi), <- Hn. auto.
Qed.

(** A completed [syncPayments]: every row of the answer has its document. *)
Lemma syncPayments_first (env : Env) (company : Company.t) (db : Db) :
  NoDup (map QbPayment.Id (Spec.payment_rows env)) ->
  is_ok (fst (syncPayments env company db)) = true ->
  let db1 := snd (syncPayments env company db) in
  invoices db1 = invoices db
  /\ forall r, In r (Spec.payment_rows env) ->
       exists d,
         Spec.Payment_find (Company._id company) r db1 = Some d
         /\ Spec.Payment_upserted (now env) (Company._id company) r
              (linked_invoice r db) (Spec.Payment_find (Company._id company) r db)
              (nextId db) d
         /\ Passes.Payment_settled company r db d.
Proof.
  intros Hnd Hok. cbv zeta.
  destruct (syncPayments_shape env company db)
    as [[Hf _]|[db0 [db2 [res [Hi [Hp [Hn [Hl [-> Hr]]]]]]]]].
  { rewrite Hf in Hok. discriminate. }
  rewrite Hr in Hok. destruct res as [m|e]; [|discriminate Hok].
  destruct (syncPayments_loop_first _ _ _ _ _ _ _ Hnd Hl) as [_ Hrows].
  destruct (SyncMarker.syncPayments_loop_frame (now env) company
              (Spec.payment_rows env) db0 0) as [_ Hif].
  rewrite Hl in Hif. cbn [fst] in Hif.
  split; [rewrite Hif, Hi; reflexivity|].
  intros r Hin. destruct (Hrows r Hin) as [d [Hf [Hu Hs]]].
  assert (Hc : map Spec.Invoice_content (invoices db0)
               = map Spec.Invoice_content (invoices db))
    by (rewrite Hi; reflexivity).
  exists d. split; [exact Hf|]. split.
  - rewrite <- (Payment_find_ext _ r db db0 Hp), <- Hn,
      <- (linked_invoice_content r db0 db Hc). exact Hu.
  - apply (Payment_settled_content company company r db0 db d d eq_refl
             (eq_sym Hc) eq_refl Hs).
Qed.

(** A [syncInvoices] over settled documents, however it ends. *)
Lemma syncInvoices_again (env : Env) (company : Company.t) (db : Db) :
  (forall r, In r (Spec.invoice_rows env) ->
     exists d, Spec.Invoice_find (Company._id company) r db = Some d
               /\ Passes.Invoice_settled company r d) ->
  map Spec.Invoice_content (invoices (snd (syncInvoices env company db)))
  = map Spec.Invoice_content (invoices db)
  /\ payments (snd (syncInvoices env company db)) = payments db.
Proof.
  intros Hall.
  destruct (syncInvoices_shape env company db)
    as [[_ [Hi [Hp _]]]|[db0 [db2 [res [Hi [Hp [Hn [Hl [Hi2 [Hp2 _]]]]]]]]]].
  { rewrite Hi, Hp. auto. }
  destruct (syncInvoices_loop_again (now env) company (Spec.invoice_rows env) db0 0)
    as [db' [Hl' [Hc Hpay]]].
  { intros r Hin. destruct (Hall r Hin) as [d [Hf Hs]].
    exists d. rewrite (Invoice_find_ext _ r db db0 Hi). auto. }
  rewrite Hl in Hl'. injection Hl' as -> _.
  rewrite Hi2, Hp2, Hc, Hpay, Hi, Hp. auto.
Qed.

(** A [syncPayments] over settled documents, however it ends. *)
Lemma syncPayments_again (env : Env) (company : Company.t) (db : Db) :
  (forall r, In r (Spec.payment_rows env) ->
     exists d, Spec.Payment_find (Company._id company) r db = Some d
               /\ Passes.Payment_settled company r db d) ->
  map Spec.Payment_content (payments (snd (syncPayments env company db)))
  = map Spec.Payment_content (payments db)
  /\ invoices (snd (syncPayments env company db)) = invoices db.
Proof.
  intros Hall.
  destruct (syncPayments_shape env company db)
    as [[_ [Hi [Hp _]]]|[db0 [db2 [res [Hi [Hp [Hn [Hl [-> _]]]]]]]]].
  { rewrite Hi, Hp. auto. }
  destruct (syncPayments_loop_again (now env) company (Spec.payment_rows env) db0 0)
    as [db' [Hl' [Hc Hinv]]].
  { intros r Hin. destruct (Hall r Hin) as [d [Hf Hs]].
    exists d. rewrite (Payment_find_ext _ r db db0 Hp). split; [exact Hf|].
    apply (Payment_settled_content company company r db db0 d d eq_refl);
      [rewrite Hi; reflexivity | reflexivity | exact Hs]. }
  rewrite Hl in Hl'. injection Hl' as -> _.
  rewrite Hc, Hinv, Hi, Hp. auto.
Qed.

(** C3 (as amended). A first [fullSync] that completes, on a ledger answer
    that lists every record once, upserts every row under (ledger id,
    tenant): afterwards the row's document holds the mapped values of the
    row, with the stored value kept on the paths the row lacks; it is the
    document that was there before, with its id and the paths outside the
    mapping, or a new one.  A second [fullSync] of the same tenant against
    the unchanged ledger then adds no document and changes no path of any
    invoice or payment except [updatedAt] and the ids of the line items,
    whether or not it gets through its requests. *)
Theorem fullSync_idempotent (env1 env2 : Env) (c1 c2 : Company.t) (db : Db) :
  (forall ep, ledger env2 ep = ledger env1 ep) ->
  Company._id c2 = Company._id c1 ->
  NoDup (map QbInvoice.Id (Spec.invoice_rows env1)) ->
  NoDup (map QbPayment.Id (Spec.payment_rows env1)) ->
  is_ok (fst (fullSync env1 c1 db)) = true ->
  let db1 := snd (fullSync env1 c1 db) in
  let db2 := snd (fullSync env2 c2 db1) in
  (forall r, In r (Spec.invoice_rows env1) ->
     exists d,
       Spec.Invoice_find (Company._id c1) r db1 = Some d
       /\ Spec.Invoice_upserted (now env1) (Company._id c1) r
            (Spec.Invoice_find (Company._id c1) r db) (nextId db) d)
  /\ (forall r, In r (Spec.payment_rows env1) ->
        exists d,
          Spec.Payment_find (Company._id c1) r db1 = Some d
          /\ Spec.Payment_upserted (now env1) (Company._id c1) r
               (linked_invoice r db1) (Spec.Payment_find (Company._id c1) r db)
               (nextId db) d)
  /\ map Spec.Invoice_content (invoices db2) = map Spec.Invoice_content (invoices db1)
  /\ map Spec.Payment_content (payments db2) = map Spec.Payment_content (payments db1).
Proof.
  intros Hledger Hid HndI HndP Hok. cbv zeta.
  rewrite fullSync_ok in Hok. apply andb_prop in Hok as [HokI HokP].
  rewrite (fullSync_snd env1 c1 db), HokI.
  set (A := snd (syncInvoices env1 c1 db)) in *.
  set (db1 := snd (syncPayments env1 c1 A)).
  destruct (syncInvoices_first env1 c1 db HndI HokI) as [HpayA [HnextA HrowsI]].
  fold A in HpayA, HnextA, HrowsI.
  destruct (syncPayments_first env1 c1 A HndP HokP) as [Hinv1 HrowsP].
  fold db1 in Hinv1, HrowsP.
  assert (Hc1 : map Spec.Invoice_content (invoices db1)
                = map Spec.Invoice_content (invoices A))
    by (rewrite Hinv1; reflexivity).
  assert (HrI : Spec.invoice_rows env2 = Spec.invoice_rows env1)
    by (unfold Spec.invoice_rows; rewrite Hledger; reflexivity).
  assert (HrP : Spec.payment_rows env2 = Spec.payment_rows env1)
    by (unfold Spec.payment_rows; rewrite Hledger; reflexivity).
  (* what the first run left *)
  assert (HsetI : forall r, In r (Spec.invoice_rows env1) ->
            exists d, Spec.Invoice_find (Company._id c2) r db1 = Some d
                      /\ Passes.Invoice_settled c2 r d).
  { intros r Hin. destruct (HrowsI r Hin) as [d [Hf [_ Hs]]].
    exists d. rewrite Hid, (Invoice_find_ext _ r A db1 Hinv1).
    split; [exact Hf|].
    apply (Invoice_settled_content c1 c2 r d d Hid eq_refl Hs). }
  assert (HsetP : forall r, In r (Spec.payment_rows env1) ->
            exists d, Spec.Payment_find (Company._id c2) r db1 = Some d
                      /\ Passes.Payment_settled c2 r db1 d).
  { intros r Hin. destruct (HrowsP r Hin) as [d [Hf [_ Hs]]].
    exists d. rewrite Hid. split; [exact Hf|].
    apply (Payment_settled_content c1 c2 r A db1 d d Hid Hc1 eq_refl Hs). }
  split; [|split].
  - intros r Hin. destruct (HrowsI r Hin) as [d [Hf [Hu _]]].
    exists d. rewrite (Invoice_find_ext _ r A db1 Hinv1). auto.
  - intros r Hin. destruct (HrowsP r Hin) as [d [Hf [Hu _]]].
    exists d. split; [exact Hf|].
    rewrite (linked_invoice_content r db1 A Hc1),
      <- (Payment_find_ext _ r db A HpayA).
    apply (Payment_upserted_free _ _ _ _ _ _ _ _ HnextA Hu).
  - (* the second run *)
    rewrite (fullSync_snd env2 c2 db1).
    destruct (syncInvoices_again env2 c2 db1) as [HcC HpC];
      [rewrite HrI; exact HsetI|].
    set (C := snd (syncInvoices env2 c2 db1)) in *.
    destruct (is_ok (fst (syncInvoices env2 c2 db1)));
      [|rewrite HcC, HpC; auto].
    destruct (syncPayments_again env2 c2 C) as [HcD HiD].
    { rewrite HrP. intros r Hin. destruct (HsetP r Hin) as [d [Hf Hs]].
      exists d. rewrite (Payment_find_ext _ r db1 C HpC). split; [exact Hf|].
      apply (Payment_settled_content c2 c2 r db1 C d d eq_refl HcC eq_refl Hs). }
    rewrite HiD, HcC, HcD, HpC. auto.
Qed.

Lemma fullSync_idempotent_witness :
  let env1 := Scenario.env_100 (Some [Scenario.invoice_77_lines])
                               (Some [Scenario.payment_P1]) in
  let env2 := Scenario.env_101 (Some [Scenario.invoice_77_lines])
                               (Some [Scenario.payment_P1]) in
  let db1 := snd (fullSync env1 Scenario.expired_acme Scenario.db_foreign) in
  let db2 := snd (fullSync env2 Scenario.acme db1) in
  map Spec.Invoice_content (invoices db2) = map Spec.Invoice_content (invoices db1)
  /\ map Spec.Payment_content (payments db2) = map Spec.Payment_content (payments db1).
Proof.
  cbv zeta.
  destruct (fullSync_idempotent
              (Scenario.env_100 (Some [Scenario.invoice_77_lines])
                                (Some [Scenario.payment_P1]))
              (Scenario.env_101 (Some [Scenario.invoice_77_lines])
                                (Some [Scenario.payment_P1]))
              Scenario.expired_acme Scenario.acme Scenario.db_foreign)
    as [_ [_ H]].
  - intros ep. reflexivity.
  - reflexivity.
  - constructor; [intros [] | constructor].
  - constructor; [intros [] | constructor].
  - reflexivity.
  - exact H.
Defined.

(** C3, counterexample.  The second run of a full sync, a day after the
    first and against the same ledger answer, changes fields of the stored
    records: the [updatedAt] stamp of the invoice and of the payment and the
    id of the invoice's line item.  And an update does not overwrite every
    mapped field: a ledger row without document number leaves the stored
    invoice number as it is. *)
Lemma fullSync_changes_fields :
  let env1 := Scenario.env_100 (Some [Scenario.invoice_77_lines])
                               (Some [Scenario.payment_P1]) in
  let env2 := Scenario.env_101 (Some [Scenario.invoice_77_lines])
                               (Some [Scenario.payment_P1]) in
  let db1 := snd (fullSync env1 Scenario.acme Scenario.db_acme) in
  let db2 := snd (fullSync env2 Scenario.acme db1) in
  is_ok (fst (fullSync env1 Scenario.acme Scenario.db_acme)) = true
  /\ is_ok (fst (fullSync env2 Scenario.acme db1)) = true
  /\ map Invoice.updatedAt (invoices db1) = [Scenario.days 100]
  /\ map Invoice.updatedAt (invoices db2) = [Scenario.days 101]
  /\ map (fun d => map Invoice.line_id (Invoice.lineItems d)) (invoices db1) = [[1000]]
  /\ map (fun d => map Invoice.line_id (Invoice.lineItems d)) (invoices db2) = [[1003]]
  /\ map Payment.updatedAt (payments db1) = [Scenario.days 100]
  /\ map Payment.updatedAt (payments db2) = [Scenario.days 101]
  /\ invoices db2 <> invoices db1
  /\ payments db2 <> payments db1
  /\ map Invoice.invoiceNumber
         (invoices (snd (syncInvoices
                           (Scenario.env_101 (Some [Scenario.invoice_77_bare]) None)
                           Scenario.acme db1)))
     = [Some "INV-77"].
Proof.
  cbv zeta. repeat split; try reflexivity.
  - intros H. apply (f_equal (map Invoice.updatedAt)) in H. vm_compute in H.
    discriminate H.
  - intros H. apply (f_equal (map Payment.updatedAt)) in H. vm_compute in H.
    discriminate H.
Qed.

(** Why the ledger answer must list every record once: with the unique
    index on the invoice number, a second run over an answer that lists
    records twice can stop at a write the first run got through, after it
    has set an earlier document back to the values of its first listing. *)
Lemma fullSync_relisted_drifts :
  let env := Scenario.env_100 (Some Scenario.relisted) None in
  let db1 := snd (fullSync env Scenario.acme Scenario.db_acme) in
  let db2 := snd (fullSync env Scenario.acme db1) in
  is_ok (fst (fullSync env Scenario.acme Scenario.db_acme)) = true
  /\ map Invoice.invoiceNumber (invoices db1) = [Some "E"; Some "D"; Some "B"]
  /\ fst (fullSync env Scenario.acme db1) = Err (DuplicateKey "invoiceNumber")
  /\ map Invoice.invoiceNumber (invoices db2) = [Some "A"; Some "D"; Some "B"].
Proof. cbv zeta. repeat split; reflexivity. Qed.

End Idempotence.

(** ** Detectors: a second pass *)

Module SecondPass.

Import LeakDetection.

Lemma filter_nil_find {A : Type} (q : A -> bool) (l : list A) :
  filter q l = [] -> find q l = None.
Proof.
  induction l as [|x l IH]; cbn [find filter]; [reflexivity|].
  destruct (q x); [discriminate | exact IH].
Qed.

Lemma findOne_open_count (c : Z) (ty : LeakType) (p : Leak.RefPath)
      (r : option string) (s : Leak.Store) :
  Leak.findOne_open c ty p r s = None <-> Spec.open_count c ty p r s = 0%nat.
Proof.
  unfold Leak.findOne_open, Spec.open_count. split; intros H.
  - rewrite (Dedup.find_none_filter _ _ H). reflexivity.
  - apply filter_nil_find. apply length_zero_iff_nil. exact H.
Qed.

Lemma create_appends (now : Z) (i : Leak.input) (s s' : Leak.Store) :
  Leak.create now i s = Ok s' ->
  Leak.validate i = Ok tt
  /\ s' = Leak.mkStore
            (Leak.docs s ++ [Leak.pre_save now (Leak.construct now (Leak.nextId s) i)])
            (Leak.nextId s + 1).
Proof.
  unfold Leak.create. destruct (Leak.validate i) as [[]|e]; [|discriminate].
  intros H. injection H as <-. auto.
Qed.

Lemma create_rejects_everywhere (now : Z) (i : Leak.input) (s t : Leak.Store)
      (e : Error) :
  Leak.create now i s = Err e -> Leak.create now i t = Err e.
Proof.
  unfold Leak.create. destruct (Leak.validate i); [discriminate | auto].
Qed.

Lemma open_count_app (c : Z) (ty : LeakType) (p : Leak.RefPath) (r : option string)
      (l : list Leak.t) (d : Leak.t) (n : Z) :
  Spec.open_count c ty p r (Leak.mkStore (l ++ [d]) n)
  = (List.length (filter (Leak.matches_open c ty p r) l)
     + if Leak.matches_open c ty p r d then 1 else 0)%nat.
Proof.
  unfold Spec.open_count. cbn [Leak.docs]. rewrite filter_app, length_app.
  cbn [filter]. destruct (Leak.matches_open c ty p r d); reflexivity.
Qed.

Lemma quiet_refl (s : Leak.Store) : Passes.quiet s s.
Proof. split; auto. Qed.

Lemma quiet_trans (s t u : Leak.Store) :
  Passes.quiet s t -> Passes.quiet t u -> Passes.quiet s u.
Proof.
  intros [H1 H2] [H3 H4]. split; [congruence|].
  intros c ty p r. rewrite H4. apply H2.
Qed.

Lemma length_update_by_id (id : Z) (f : Leak.t -> Leak.t) (l : list Leak.t) :
  List.length (Leak.update_by_id id f l) = List.length l.
Proof.
  induction l as [|d l IH]; cbn [Leak.update_by_id]; [reflexivity|].
  destruct (Leak._id d =? id); cbn [List.length]; [reflexivity|].
  rewrite IH. reflexivity.
Qed.

Lemma quiet_refresh (id a : Z) (amt : Q) (s : Leak.Store) :
  Passes.quiet s (Leak.findByIdAndUpdate id a amt s).
Proof.
  split.
  - apply length_update_by_id.
  - intros c ty p r. unfold Spec.open_count, Leak.findByIdAndUpdate. cbn [Leak.docs].
    apply Dedup.filter_update_by_id. intros d. apply Dedup.matches_open_refresh.
Qed.

(** *** The four bodies have the common shape *)

Ltac keyed_case r i found :=
  right; exists r, i;
  split; [reflexivity|]; split; [reflexivity|]; split; [reflexivity|];
  split; [reflexivity|];
  intros s; split;
  [ intros H; rewrite H; reflexivity
  | destruct (Leak.findOne_open _ _ _ _ s) as [existing|]; [|congruence];
    intros _; eexists; split; [reflexivity | apply found] ].

Lemma keyed_missingPayments (w : World) (companyId : Z) :
  Passes.keyed_body companyId missing_payment Leak.by_invoiceId (now w)
                    (missingPayments_body w companyId).
Proof.
  intros invoice. unfold missingPayments_body.
  set (daysOverdue := Js.floor_div (now w - Invoice.dueDate invoice) day_ms).
  destruct (0 <? daysOverdue); [|left; reflexivity].
  keyed_case (Invoice.invoiceNumber invoice)
             (missingPayment_literal companyId invoice daysOverdue) quiet_refresh.
Qed.

Lemma keyed_underBilling (w : World) (companyId : Z) :
  Passes.keyed_body companyId under_billing Leak.by_contractId (now w)
                    (underBilling_body w companyId).
Proof.
  intros contract. unfold underBilling_body.
  destruct (Js.gt_num _ 5); [|left; reflexivity].
  keyed_case (Some (Contract.contractNumber contract))
             (underBilling_literal companyId contract
                (underBilledAmount w companyId contract)) quiet_refl.
Qed.

Lemma keyed_failedRenewals (w : World) (companyId : Z) :
  Passes.keyed_body companyId failed_renewal Leak.by_contractId (now w)
                    (failedRenewals_body w companyId).
Proof.
  intros contract. unfold failedRenewals_body.
  destruct (negb _); [|left; reflexivity].
  keyed_case (Some (Contract.contractNumber contract))
             (failedRenewal_literal companyId contract) quiet_refl.
Qed.

Lemma keyed_agingReceivables (w : World) (companyId : Z) :
  Passes.keyed_body companyId uncollected_receivable Leak.by_invoiceId (now w)
                    (agingReceivables_body w companyId).
Proof.
  intros invoice. unfold agingReceivables_body.
  keyed_case (Invoice.invoiceNumber invoice)
             (agingReceivable_literal companyId invoice
                (Js.floor_div (now w - Invoice.dueDate invoice) day_ms)) quiet_refl.
Qed.

(** *** What one step of such a body does to the dedup queries *)

Lemma matches_open_created (now id : Z) (i : Leak.input) (c : Z) (ty : LeakType)
      (p : Leak.RefPath) (r : option string) :
  Leak.matches_open c ty p r (Leak.pre_save now (Leak.construct now id i))
  = (Leak.in_company i =? c) && LeakType_eqb (Leak.in_leakType i) ty
    && Js.ostring_eqb (Spec.ref_in p i) r
    && match Leak.in_status i with recovered | written_off => false | _ => true end.
Proof. destruct p; reflexivity. Qed.

Lemma open_count_create_ge (now : Z) (i : Leak.input) (s s' : Leak.Store)
      (c : Z) (ty : LeakType) (p : Leak.RefPath) (r : option string) :
  Leak.create now i s = Ok s' ->
  (Spec.open_count c ty p r s <= Spec.open_count c ty p r s')%nat.
Proof.
  intros H. destruct (create_appends _ _ _ _ H) as [_ ->].
  rewrite open_count_app. unfold Spec.open_count. lia.
Qed.

Lemma open_count_create_key (now : Z) (i : Leak.input) (s s' : Leak.Store)
      (p : Leak.RefPath) :
  Leak.in_status i = detected ->
  Leak.create now i s = Ok s' ->
  (1 <= Spec.open_count (Leak.in_company i) (Leak.in_leakType i) p
                        (Spec.ref_in p i) s')%nat.
Proof.
  intros Hst H. destruct (create_appends _ _ _ _ H) as [_ ->].
  rewrite open_count_app, matches_open_created, Hst.
  rewrite Z.eqb_refl, Dedup.LeakType_eqb_refl, ostring_eqb_refl. cbn. lia.
Qed.

Lemma open_count_create_other (now : Z) (i : Leak.input) (s s' : Leak.Store)
      (c : Z) (ty : LeakType) (p : Leak.RefPath) (r : option string) :
  ty <> Leak.in_leakType i ->
  Leak.create now i s = Ok s' ->
  Spec.open_count c ty p r s' = Spec.open_count c ty p r s.
Proof.
  intros Hty H. destruct (create_appends _ _ _ _ H) as [_ ->].
  rewrite open_count_app, matches_open_created.
  destruct (LeakType_eqb (Leak.in_leakType i) ty) eqn:E.
  - apply Dedup.LeakType_eqb_eq in E. congruence.
  - rewrite andb_false_r. cbn [andb]. unfold Spec.open_count. lia.
Qed.

Lemma keyed_step {A : Type} (c : Z) (ty : LeakType) (p : Leak.RefPath) (now : Z)
      (body : A -> Leak.Store -> Res (Leak.Store * Z)) :
  Passes.keyed_body c ty p now body ->
  forall x s s' k,
    body x s = Ok (s', k) ->
    Passes.quiet s s'
    \/ exists i, Leak.in_company i = c /\ Leak.in_leakType i = ty
                 /\ Leak.in_status i = detected
                 /\ Leak.create now i s = Ok s'.
Proof.
  intros Hk x s s' k H.
  destruct (Hk x) as [Hpass|[r [i [Hc [Hty [Hr [Hst Hs]]]]]]].
  - rewrite Hpass in H. injection H as <- _. left. apply quiet_refl.
  - destruct (Hs s) as [Hnone Hsome].
    destruct (Leak.findOne_open c ty p r s) as [existing|] eqn:E.
    + destruct Hsome as [s1 [Hb Hq]]; [discriminate|].
      rewrite Hb in H. injection H as <- _. left. exact Hq.
    + rewrite (Hnone eq_refl) in H. unfold create_counted in H.
      destruct (Leak.create now i s) as [s1|e] eqn:Ecr; [|discriminate].
      injection H as <- _. right. exists i. auto.
Qed.

Lemma for_each_mono {A : Type} (c : Z) (ty : LeakType) (p : Leak.RefPath) (now : Z)
      (body : A -> Leak.Store -> Res (Leak.Store * Z)) :
  Passes.keyed_body c ty p now body ->
  forall xs s n c' ty' p' r',
    (Spec.open_count c' ty' p' r' s
     <= Spec.open_count c' ty' p' r' (fst (for_each body xs s n)))%nat.
Proof.
  intros Hk xs. induction xs as [|x rest IH]; intros s n c' ty' p' r';
    cbn [for_each]; [cbn; lia|].
  destruct (body x s) as [[s1 k]|e] eqn:E; [|cbn; lia].
  specialize (IH s1 (n + k) c' ty' p' r').
  destruct (keyed_step _ _ _ _ _ Hk _ _ _ _ E) as [[_ Hq]|[i [_ [_ [_ Hcr]]]]].
  - rewrite <- (Hq c' ty' p' r'). exact IH.
  - pose proof (open_count_create_ge _ _ _ _ c' ty' p' r' Hcr). lia.
Qed.

Lemma for_each_other_type {A : Type} (c : Z) (ty : LeakType) (p : Leak.RefPath)
      (now : Z) (body : A -> Leak.Store -> Res (Leak.Store * Z)) (ty' : LeakType) :
  Passes.keyed_body c ty p now body ->
  ty' <> ty ->
  forall xs s n, Passes.same_open ty' (fst (for_each body xs s n)) s.
Proof.
  intros Hk Hne xs. induction xs as [|x rest IH]; intros s n c' p' r';
    cbn [for_each]; [reflexivity|].
  destruct (body x s) as [[s1 k]|e] eqn:E; [|reflexivity].
  rewrite (IH s1 (n + k) c' p' r').
  destruct (keyed_step _ _ _ _ _ Hk _ _ _ _ E) as [[_ Hq]|[i [_ [Hty [_ Hcr]]]]].
  - apply Hq.
  - assert (Hne' : ty' <> Leak.in_leakType i) by congruence.
    apply (open_count_create_other _ _ _ _ _ _ _ _ Hne' Hcr).
Qed.

(** A second pass over the same candidates, on a collection that answers
    the detector's dedup queries as the first pass left them, adds nothing
    and counts nothing. *)
Lemma second_pass {A : Type} (c : Z) (ty : LeakType) (p : Leak.RefPath) (now : Z)
      (body : A -> Leak.Store -> Res (Leak.Store * Z)) :
  Passes.keyed_body c ty p now body ->
  forall xs s n t m,
    Passes.same_open ty (fst (for_each body xs s n)) t ->
    Passes.quiet t (fst (for_each body xs t m))
    /\ (snd (for_each body xs t m) = Ok m
        \/ exists e, snd (for_each body xs t m) = Err e).
Proof.
  intros Hk xs. induction xs as [|x rest IH]; intros s n t m Hsame.
  { cbn. split; [apply quiet_refl | auto]. }
  cbn [for_each] in *.
  destruct (Hk x) as [Hpass|[r [i [Hc [Hty [Hr [Hst Hs]]]]]]].
  { rewrite Hpass in *. rewrite Z.add_0_r. apply (IH s (n + 0)). exact Hsame. }
  assert (Hfound : forall s1 k,
             body x s = Ok (s1, k) ->
             (1 <= Spec.open_count c ty p r s1)%nat ->
             Passes.quiet t (fst (for_each body (x :: rest) t m))
             /\ (snd (for_each body (x :: rest) t m) = Ok m
                 \/ exists e, snd (for_each body (x :: rest) t m) = Err e)).
  { intros s1 k Hb Hge. rewrite Hb in Hsame.
    assert (Ht : Leak.findOne_open c ty p r t <> None).
    { rewrite findOne_open_count, <- (Hsame c p r).
      pose proof (for_each_mono _ _ _ _ _ Hk rest s1 (n + k) c ty p r). lia. }
    destruct (Hs t) as [_ Hsome]. destruct (Hsome Ht) as [t1 [Hbt Hq]].
    cbn [for_each]. rewrite Hbt, Z.add_0_r.
    destruct (IH s1 (n + k) t1 m) as [Hq1 Hres].
    - intros c' p' r'. rewrite (Hsame c' p' r'). symmetry. apply Hq.
    - split; [eapply quiet_trans; eauto | exact Hres]. }
  cbn [for_each] in Hfound.
  destruct (Hs s) as [Hnone Hsome].
  destruct (Leak.findOne_open c ty p r s) as [existing|] eqn:E.
  - destruct Hsome as [s1 [Hb [Hlen Hq]]]; [discriminate|].
    apply (Hfound s1 0 Hb). rewrite Hq.
    assert (Leak.findOne_open c ty p r s <> None) as Hne by congruence.
    rewrite findOne_open_count in Hne. lia.
  - specialize (Hnone eq_refl). unfold create_counted in Hnone.
    destruct (Leak.create now i s) as [s1|e] eqn:Ecr.
    + apply (Hfound s1 1 Hnone).
      pose proof (open_count_create_key _ _ _ _ p Hst Ecr) as H1.
      rewrite Hc, Hty, Hr in H1. exact H1.
    + rewrite Hnone in Hsame. cbn [fst] in Hsame.
      assert (Ht : Leak.findOne_open c ty p r t = None).
      { rewrite findOne_open_count, <- (Hsame c p r), <- findOne_open_count.
        exact E. }
      destruct (Hs t) as [Hnone_t _]. rewrite (Hnone_t Ht).
      unfold create_counted. rewrite (create_rejects_everywhere _ _ _ t _ Ecr).
      cbn. split; [apply quiet_refl | eauto].
Qed.

Lemma count_finish (r : Leak.Store * Res Z) :
  count (fst (finish r)) = match snd r with Ok n => n | Err _ => 0 end.
Proof. unfold finish. destruct (snd r); reflexivity. Qed.

Lemma detector_second {A : Type} (c : Z) (ty : LeakType) (p : Leak.RefPath) (now : Z)
      (body : A -> Leak.Store -> Res (Leak.Store * Z)) (xs : list A)
      (s t : Leak.Store) :
  Passes.keyed_body c ty p now body ->
  Passes.same_open ty (snd (finish (for_each body xs s 0))) t ->
  Passes.quiet t (snd (finish (for_each body xs t 0)))
  /\ count (fst (finish (for_each body xs t 0))) = 0.
Proof.
  intros Hk Hsame. rewrite Detectors.snd_finish in *. rewrite count_finish.
  destruct (second_pass _ _ _ _ _ Hk xs s 0 t 0 Hsame) as [Hq [H|[e H]]];
    rewrite H; auto.
Qed.

Lemma detector_other_type {A : Type} (c : Z) (ty : LeakType) (p : Leak.RefPath)
      (now : Z) (body : A -> Leak.Store -> Res (Leak.Store * Z)) (xs : list A)
      (s : Leak.Store) (ty' : LeakType) :
  Passes.keyed_body c ty p now body ->
  ty' <> ty ->
  Passes.same_open ty' (snd (finish (for_each body xs s 0))) s.
Proof.
  intros Hk Hne. rewrite Detectors.snd_finish.
  apply (for_each_other_type _ _ _ _ _ _ Hk Hne).
Qed.

Lemma same_open_sym (ty : LeakType) (s t : Leak.Store) :
  Passes.same_open ty s t -> Passes.same_open ty t s.
Proof. intros H c p r. symmetry. apply H. Qed.

Lemma same_open_trans (ty : LeakType) (s t u : Leak.Store) :
  Passes.same_open ty s t -> Passes.same_open ty t u -> Passes.same_open ty s u.
Proof. intros H1 H2 c p r. rewrite H1. apply H2. Qed.

Lemma quiet_same_open (ty : LeakType) (s t : Leak.Store) :
  Passes.quiet s t -> Passes.same_open ty s t.
Proof. intros [_ H] c p r. symmetry. apply H. Qed.

(** X1. Running [detectLeaks] a second time on the same snapshot (clock,
    invoices, contracts) stores no further leak, leaves the answer of every
    dedup query as it was, and reports a total of zero detected leaks,
    whatever the first run did, including runs in which a detector
    aborted. *)
Theorem detectLeaks_twice (w : World) (companyId : Z) (s : Leak.Store) :
  let d1 := detectLeaks w companyId s in
  let d2 := detectLeaks w companyId (store d1) in
  List.length (Leak.docs (store d2)) = List.length (Leak.docs (store d1))
  /\ (forall c ty p r,
        Spec.open_count c ty p r (store d2) = Spec.open_count c ty p r (store d1))
  /\ Spec.total_of (returned d2) = 0.
Proof.
  cbv zeta.
  pose proof (Orchestration.detectLeaks_unfold w companyId s) as E1.
  cbv zeta in E1. rewrite E1. cbn [store].
  set (s1 := snd (detectMissingPayments w companyId s)).
  set (s2 := snd (detectUnderBilling w companyId s1)).
  set (s3 := snd (detectFailedRenewals w companyId s2)).
  set (s4 := snd (detectAgingReceivables w companyId s3)).
  pose proof (Orchestration.detectLeaks_unfold w companyId s4) as E2.
  cbv zeta in E2. rewrite E2. cbn [store returned].
  set (t1 := snd (detectMissingPayments w companyId s4)).
  set (t2 := snd (detectUnderBilling w companyId t1)).
  set (t3 := snd (detectFailedRenewals w companyId t2)).
  set (t4 := snd (detectAgingReceivables w companyId t3)).
  pose proof (keyed_missingPayments w companyId) as KM.
  pose proof (keyed_underBilling w companyId) as KU.
  pose proof (keyed_failedRenewals w companyId) as KF.
  pose proof (keyed_agingReceivables w companyId) as KA.
  assert (O21 : forall ty, ty <> under_billing -> Passes.same_open ty s2 s1)
    by (intros ty H; apply (detector_other_type _ _ _ _ _ _ _ _ KU H)).
  assert (O32 : forall ty, ty <> failed_renewal -> Passes.same_open ty s3 s2)
    by (intros ty H; apply (detector_other_type _ _ _ _ _ _ _ _ KF H)).
  assert (O43 : forall ty, ty <> uncollected_receivable -> Passes.same_open ty s4 s3)
    by (intros ty H; apply (detector_other_type _ _ _ _ _ _ _ _ KA H)).
  destruct (detector_second _ _ _ _ _ (missingPayments_query companyId w) s s4 KM)
    as [Q1 C1].
  { fold (detectMissingPayments w companyId s). fold s1.
    apply same_open_sym.
    eapply same_open_trans; [apply O43; discriminate|].
    eapply same_open_trans; [apply O32; discriminate|].
    apply O21; discriminate. }
  fold (detectMissingPayments w companyId s4) in Q1, C1. fold t1 in Q1.
  destruct (detector_second _ _ _ _ _ (activeContracts_query companyId w) s1 t1 KU)
    as [Q2 C2].
  { fold (detectUnderBilling w companyId s1). fold s2.
    apply same_open_sym.
    eapply same_open_trans; [apply same_open_sym, quiet_same_open, Q1|].
    eapply same_open_trans; [apply O43; discriminate|].
    apply O32; discriminate. }
  fold (detectUnderBilling w companyId t1) in Q2, C2. fold t2 in Q2.
  pose proof (quiet_trans _ _ _ Q1 Q2) as Q12.
  destruct (detector_second _ _ _ _ _ (expiredContracts_query companyId w) s2 t2 KF)
    as [Q3 C3].
  { fold (detectFailedRenewals w companyId s2). fold s3.
    apply same_open_sym.
    eapply same_open_trans; [apply same_open_sym, quiet_same_open, Q12|].
    apply O43; discriminate. }
  fold (detectFailedRenewals w companyId t2) in Q3, C3. fold t3 in Q3.
  pose proof (quiet_trans _ _ _ Q12 Q3) as Q123.
  destruct (detector_second _ _ _ _ _ (agingReceivables_query companyId w) s3 t3 KA)
    as [Q4 C4].
  { fold (detectAgingReceivables w companyId s3). fold s4.
    apply quiet_same_open, Q123. }
  fold (detectAgingReceivables w companyId t3) in Q4, C4. fold t4 in Q4.
  destruct (quiet_trans _ _ _ Q123 Q4) as [Hlen Hcount].
  split; [exact Hlen|]. split; [exact Hcount|].
  unfold Spec.total_of. cbn [Js.values map snd fold_left].
  rewrite !Orchestration.count_of_Result_value, C1, C2, C3, C4. reflexivity.
Qed.

End SecondPass.

(** ** Detectors: further facts *)

Module DetectorFacts.

Import LeakDetection.

Lemma calculateConfidence_range (ty : LeakType) (d : Z) :
  70 <= calculateConfidence ty d <= 95.
Proof.
  unfold calculateConfidence.
  repeat match goal with
         | |- context [?k <? ?x] => destruct (Z.ltb_spec k x)
         end; lia.
Qed.

Lemma validate_confidence_ok (ty : LeakType) (d : Z) :
  ((calculateConfidence ty d <? 0) || (100 <? calculateConfidence ty d)) = false.
Proof.
  pose proof (calculateConfidence_range ty d) as [H1 H2].
  apply orb_false_iff. split; apply Z.ltb_ge; lia.
Qed.

Lemma update_by_id_app_last (id : Z) (f : Leak.t -> Leak.t) (l : list Leak.t)
      (x : Leak.t) :
  (forall d, In d l -> Leak._id d <> id) ->
  Leak._id x = id ->
  Leak.update_by_id id f (l ++ [x]) = l ++ [f x].
Proof.
  intros Hl Hx. induction l as [|d l IH]; cbn [app Leak.update_by_id].
  - rewrite Hx, Z.eqb_refl. reflexivity.
  - destruct (Z.eqb_spec (Leak._id d) id) as [E|_].
    + exfalso. apply (Hl d); [left; reflexivity | exact E].
    + rewrite IH; [reflexivity|]. intros d' Hd'. apply Hl. right. exact Hd'.
Qed.

(** X2. The aging of a fresh missing-payment leak.  For an overdue ledger
    invoice without an open leak, the first pass stores a [detected] leak
    with the scored priority and confidence, the balance as amount and
    aging 0 (the save hook's days since detection); the next pass on the
    same snapshot finds that leak and refreshes it in place, after which its
    aging is the number of days overdue.  No second document appears. *)
Theorem missingPayment_aging_repaired (w : World) (companyId : Z)
        (invoice : Invoice.t) (s : Leak.Store) :
  let daysOverdue := Js.floor_div (now w - Invoice.dueDate invoice) day_ms in
  0 < daysOverdue ->
  Invoice.sourceSystem invoice = "quickbooks" ->
  Leak.findOne_open companyId missing_payment Leak.by_invoiceId
                    (Invoice.invoiceNumber invoice) s = None ->
  Passes.ids_below s ->
  exists s1 s2,
    missingPayments_body w companyId invoice s = Ok (s1, 1)
    /\ Leak.docs s1
       = Leak.docs s
         ++ [Passes.missingPayment_leak (now w) (Leak.nextId s) companyId invoice
                                        daysOverdue 0]
    /\ missingPayments_body w companyId invoice s1 = Ok (s2, 0)
    /\ Leak.docs s2
       = Leak.docs s
         ++ [Passes.missingPayment_leak (now w) (Leak.nextId s) companyId invoice
                                        daysOverdue daysOverdue].
Proof.
  intros daysOverdue Hdays Hsrc Hnone Hids.
  set (L0 := Passes.missingPayment_leak (now w) (Leak.nextId s) companyId invoice
                                        daysOverdue 0).
  set (s1 := Leak.mkStore (Leak.docs s ++ [L0]) (Leak.nextId s + 1)).
  assert (Hfirst : missingPayments_body w companyId invoice s = Ok (s1, 1)).
  { unfold missingPayments_body. fold daysOverdue.
    apply Z.ltb_lt in Hdays. rewrite Hdays, Hnone.
    unfold create_counted, Leak.create, Leak.validate.
    cbn [Leak.in_sourceSystem Leak.in_confidence missingPayment_literal].
    rewrite Hsrc, validate_confidence_ok. cbn [Leak.in_enum Leak.sourceSystem_enum
      existsb String.eqb Ascii.eqb Bool.eqb orb negb].
    unfold s1, L0, Passes.missingPayment_leak, Leak.pre_save, Leak.construct.
    cbn. unfold Js.floor_div. rewrite Z.sub_diag, Hsrc. reflexivity. }
  exists s1, (Leak.findByIdAndUpdate (Leak.nextId s) daysOverdue
                                     (Invoice.balance invoice) s1).
  split; [exact Hfirst|]. split; [reflexivity|].
  assert (Hfind : Leak.findOne_open companyId missing_payment Leak.by_invoiceId
                                    (Invoice.invoiceNumber invoice) s1 = Some L0).
  { unfold Leak.findOne_open in *. unfold s1. cbn [Leak.docs].
    rewrite (find_app_none _ _ _ Hnone). cbn [find].
    unfold Leak.matches_open, Leak.matches_key, L0. cbn.
    rewrite Z.eqb_refl, ostring_eqb_refl. reflexivity. }
  split.
  - unfold missingPayments_body. fold daysOverdue.
    apply Z.ltb_lt in Hdays. rewrite Hdays, Hfind. reflexivity.
  - unfold Leak.findByIdAndUpdate, s1. cbn [Leak.docs].
    apply update_by_id_app_last; [|reflexivity].
    intros d Hd. specialize (Hids d Hd). lia.
Qed.

Lemma missingPayment_aging_repaired_witness :
  exists s1 s2,
    missingPayments_body (Scenario.world_C "quickbooks") 1
                         (Scenario.invoice_C "quickbooks") Scenario.no_leaks
    = Ok (s1, 1)
    /\ Leak.docs s1
       = [Passes.missingPayment_leak (Scenario.days 100) 1 1
                                     (Scenario.invoice_C "quickbooks") 65 0]
    /\ missingPayments_body (Scenario.world_C "quickbooks") 1
                            (Scenario.invoice_C "quickbooks") s1 = Ok (s2, 0)
    /\ Leak.docs s2
       = [Passes.missingPayment_leak (Scenario.days 100) 1 1
                                     (Scenario.invoice_C "quickbooks") 65 65].
Proof.
  apply (missingPayment_aging_repaired (Scenario.world_C "quickbooks") 1
           (Scenario.invoice_C "quickbooks") Scenario.no_leaks).
  - reflexivity.
  - reflexivity.
  - reflexivity.
  - intros d [].
Defined.

(** *** Failed renewals *)

Lemma for_each_verdict {A : Type} (body : A -> Leak.Store -> Res (Leak.Store * Z))
      (passes : A -> bool) (e : Error) (xs : list A) (s : Leak.Store) (n : Z) :
  (forall x, body x s = if passes x then Ok (s, 0) else Err e) ->
  for_each body xs s n = (s, if forallb passes xs then Ok n else Err e).
Proof.
  intros Hbody. revert n. induction xs as [|x rest IH]; intros n;
    cbn [for_each forallb]; [reflexivity|].
  rewrite Hbody. destruct (passes x); cbn [andb]; [|reflexivity].
  rewrite IH, Z.add_0_r. reflexivity.
Qed.

(** X3. What [detectFailedRenewals] can return.  It never stores a leak and
    never counts one: it reports success with count 0 when every recently
    expired active contract has a successor contract or an open
    failed-renewal leak, and otherwise fails on the first contract that has
    neither, because the leak it builds is rejected by the Leak schema. *)
Theorem detectFailedRenewals_result (w : World) (companyId : Z) (s : Leak.Store) :
  let settled contract :=
    renewalExists companyId contract w
    || match Leak.findOne_open companyId failed_renewal Leak.by_contractId
                               (Some (Contract.contractNumber contract)) s with
       | Some _ => true
       | None => false
       end in
  detectFailedRenewals w companyId s
  = (if forallb settled (expiredContracts_query companyId w)
     then mkResult true None 0
     else mkResult false (Some "Validation failed at path sourceSystem") 0,
     s).
Proof.
  cbv zeta. unfold detectFailedRenewals.
  rewrite (for_each_verdict _
             (fun contract =>
                renewalExists companyId contract w
                || match Leak.findOne_open companyId failed_renewal Leak.by_contractId
                                           (Some (Contract.contractNumber contract)) s with
                   | Some _ => true
                   | None => false
                   end)
             (ValidationError "sourceSystem")).
  - unfold finish. cbn [fst snd]. destruct (forallb _ _); reflexivity.
  - intros contract. unfold failedRenewals_body.
    destruct (renewalExists companyId contract w); cbn [negb orb]; [reflexivity|].
    destruct (Leak.findOne_open _ _ _ _ s); [reflexivity|].
    unfold create_counted.
    rewrite Detectors.create_manual_rejected by reflexivity. reflexivity.
Qed.

(** *** The two invoice detectors *)

Lemma days_at_least_60 (now due : Z) :
  due <= now - 60 * 24 * 60 * 60 * 1000 -> 60 <= Js.floor_div (now - due) day_ms.
Proof.
  intros H. unfold Js.floor_div, day_ms.
  apply Z.div_le_lower_bound; lia.
Qed.

(** X4. Every candidate of the aging-receivables detector is a candidate of
    the missing-payment detector too, at least 60 whole days overdue; the
    missing-payment leak scored for it has priority medium or above and
    confidence 85 or above. *)
Theorem aging_candidates_are_missing_payments (w : World) (companyId : Z) :
  incl (agingReceivables_query companyId w) (missingPayments_query companyId w)
  /\ Forall (fun invoice =>
               let daysOverdue :=
                 Js.floor_div (now w - Invoice.dueDate invoice) day_ms in
               60 <= daysOverdue
               /\ Priority_le medium
                    (calculatePriority (Invoice.balance invoice) daysOverdue)
               /\ 85 <= calculateConfidence missing_payment daysOverdue)
            (agingReceivables_query companyId w).
Proof.
  unfold agingReceivables_query, missingPayments_query. split.
  - intros invoice H. apply filter_In in H as [Hin H].
    apply andb_prop in H as [H _]. apply filter_In. auto.
  - apply Forall_forall. intros invoice H. apply filter_In in H as [_ H].
    apply andb_prop in H as [_ H]. apply Z.leb_le in H.
    pose proof (days_at_least_60 _ _ H) as Hd. cbv zeta.
    split; [exact Hd|]. split.
    + unfold calculatePriority, Priority_le.
      assert ((30 <? Js.floor_div (now w - Invoice.dueDate invoice) day_ms) = true)
        as H30 by (apply Z.ltb_lt; lia).
      rewrite H30.
      destruct (Js.gt _ 50000 || _); [cbn; lia|].
      destruct (Js.gt _ 10000 || _); [cbn; lia|].
      rewrite orb_true_r. cbn. lia.
    + unfold calculateConfidence.
      repeat match goal with
             | |- context [?k <? ?x] => destruct (Z.ltb_spec k x)
             end; lia.
Qed.

(** X5. How the two scores go together.  The confidence lies between 70 and
    95.  A confidence of 90 or more comes with priority high or critical,
    whatever the amount, and a low priority comes with a confidence of at
    most 80. *)
Theorem scores_agree (ty : LeakType) (amount : Q) (daysOverdue : Z) :
  70 <= calculateConfidence ty daysOverdue <= 95
  /\ (90 <= calculateConfidence ty daysOverdue ->
      Priority_le high (calculatePriority amount daysOverdue))
  /\ (calculatePriority amount daysOverdue = low ->
      calculateConfidence ty daysOverdue <= 80).
Proof.
  split; [apply calculateConfidence_range|].
  unfold calculateConfidence, calculatePriority, Priority_le.
  destruct (Z.ltb_spec 90 daysOverdue), (Z.ltb_spec 60 daysOverdue),
    (Z.ltb_spec 30 daysOverdue), (Z.ltb_spec 15 daysOverdue);
    try lia;
    destruct (Js.gt amount 50000), (Js.gt amount 10000), (Js.gt amount 5000);
    cbn; split; intros; try lia; try discriminate.
Qed.

Lemma scores_agree_witness :
  Priority_le high (calculatePriority 100 61)
  /\ calculateConfidence missing_payment 10 <= 80.
Proof.
  destruct (scores_agree missing_payment 100 61) as [_ [H _]].
  destruct (scores_agree missing_payment 100 10) as [_ [_ H']].
  split; [apply H; cbn; lia | apply H'; reflexivity].
Defined.

(** X6. Which invoices can get a leak at all.  For an invoice whose
    [sourceSystem] is one the Invoice schema allows, [Leak.create] accepts
    the literal of the missing-payment detector and that of the
    aging-receivables detector exactly when the invoice came from the ledger
    ([quickbooks]); for [manual] and [api] invoices both are rejected. *)
Theorem invoice_leak_creatable (now0 companyId days : Z) (invoice : Invoice.t)
        (s : Leak.Store) :
  In (Invoice.sourceSystem invoice) Invoice.sourceSystem_enum ->
  (is_ok (Leak.create now0 (missingPayment_literal companyId invoice days) s) = true
   <-> Invoice.sourceSystem invoice = "quickbooks")
  /\ (is_ok (Leak.create now0 (agingReceivable_literal companyId invoice days) s) = true
      <-> Invoice.sourceSystem invoice = "quickbooks").
Proof.
  intros Hin. unfold Leak.create, Leak.validate.
  cbn [Leak.in_sourceSystem Leak.in_confidence missingPayment_literal
       agingReceivable_literal].
  rewrite validate_confidence_ok.
  destruct Hin as [<-|[<-|[<-|[]]]]; cbn; split; split; intros H;
    try reflexivity; try discriminate H.
Qed.

Lemma invoice_leak_creatable_witness :
  is_ok (Leak.create (Scenario.days 100)
           (missingPayment_literal 1 (Scenario.invoice_C "manual") 65)
           Scenario.no_leaks) = true
  <-> "manual" = "quickbooks".
Proof.
  apply (invoice_leak_creatable (Scenario.days 100) 1 65
           (Scenario.invoice_C "manual") Scenario.no_leaks).
  right. left. reflexivity.
Defined.

(** *** Expected billing *)

Lemma ceil_div_ceil_div (x a b : Z) :
  0 < a -> 0 < b -> Js.ceil_div (Js.ceil_div x a) b = Js.ceil_div x (a * b).
Proof.
  intros Ha Hb. unfold Js.ceil_div. rewrite Z.opp_involutive.
  rewrite Z.div_div by lia. reflexivity.
Qed.

(** X7. The expected billing of a quarterly contract is the base fee times
    the number of started 90-day periods between start and end date (the
    double nearest to that product): taking the ceiling of the 30-day
    months and then of their thirds loses nothing. *)
Theorem quarterly_expected_billing (contract : Contract.t) :
  Contract.billingFrequency contract = quarterly ->
  calculateExpectedBilling contract
  = Js.round64
      (Contract.baseFee (Contract.pricing contract)
       * inject_Z (Js.ceil_div (Contract.endDate contract - Contract.startDate contract)
                               (90 * day_ms)))%Q.
Proof.
  intros H. unfold calculateExpectedBilling. rewrite H.
  rewrite ceil_div_ceil_div by lia. reflexivity.
Qed.

Lemma quarterly_expected_billing_witness :
  calculateExpectedBilling
    (Contract.mk 301 1 "CT-2" "Client A" CS_active (Scenario.days 0)
                 (Scenario.days 100) (Contract.mkPricing 1000%Q 10%Q) quarterly)
  = Js.round64 (1000 * inject_Z (Js.ceil_div (Scenario.days 100 - Scenario.days 0)
                                              (90 * day_ms)))%Q.
Proof.
  apply (quarterly_expected_billing
           (Contract.mk 301 1 "CT-2" "Client A" CS_active (Scenario.days 0)
                        (Scenario.days 100) (Contract.mkPricing 1000%Q 10%Q)
                        quarterly)).
  reflexivity.
Defined.

End DetectorFacts.

(** ** Connection and token rotation *)

Module ConnectionFacts.

Import QuickBooks.

(** X8. [handleCallback].  When the code exchange fails, the error is
    returned and the store is untouched.  When it succeeds for a stored
    tenant, the tenant's credential block is connected, carries the realm
    of the callback (the realm stored before, when the callback names
    none), both tokens, the expiry [now + expires_in] and [lastSync = now],
    and [refreshAccessToken] on the reloaded tenant serves exactly that
    access token, without an exchange and without a write, at every time
    before the expiry. *)
Theorem handleCallback_connects (now0 : Z) (createToken : string -> Res Token)
        (code : string) (realmId : option string) (companyId : Z) (db : Db) :
  (forall e, createToken code = Err e ->
             Connect.handleCallback now0 createToken code realmId companyId db
             = (Err e, db))
  /\ (forall token secs c0,
        createToken code = Ok token ->
        expires_in token = Some secs ->
        Spec.Company_findById companyId db = Some c0 ->
        let res := Connect.handleCallback now0 createToken code realmId companyId db in
        fst res = Ok true
        /\ exists c1,
             Spec.Company_findById companyId (snd res) = Some c1
             /\ Company.quickbooks c1
                = Company.mkQuickBooks true
                    (match realmId with
                     | Some realm => Some realm
                     | None => Company.realmId (Company.quickbooks c0)
                     end)
                    (Some (access_token token))
                    (Some (refresh_token token)) (Some (now0 + secs * 1000))
                    (Some now0)
             /\ forall env,
                  now env < now0 + secs * 1000 ->
                  refreshAccessToken env c1 (snd res)
                  = (Ok (Some (access_token token)), snd res)).
Proof.
  split.
  - intros e H. unfold Connect.handleCallback. rewrite H. reflexivity.
  - intros token secs c0 Htok Hsecs Hc0. cbv zeta.
    unfold Connect.handleCallback. rewrite Htok, Hsecs. cbn [fst snd].
    split; [reflexivity|].
    eexists. split.
    + unfold Spec.Company_findById in *. cbn [companies with_companies].
      apply (TokenLifecycle.findById_update_same _ _ _ _ Hc0).
    + split; [reflexivity|].
      intros env Hlt. unfold refreshAccessToken. cbn [Company.quickbooks
        Company.tokenExpiresAt Connect.set_connection Company.accessToken].
      apply Z.ltb_lt in Hlt. rewrite Hlt. reflexivity.
Qed.

Lemma handleCallback_connects_witness :
  let res := Connect.handleCallback (Scenario.days 100) (fun _ => Ok Scenario.new_token)
               "code-1" (Some "realm-9") 1 Scenario.db_acme in
  fst res = Ok true
  /\ exists c1,
       Spec.Company_findById 1 (snd res) = Some c1
       /\ Company.quickbooks c1
          = Company.mkQuickBooks true (Some "realm-9") (Some "access-2")
              (Some "refresh-2") (Some (Scenario.days 100 + 3600 * 1000))
              (Some (Scenario.days 100))
       /\ forall env,
            now env < Scenario.days 100 + 3600 * 1000 ->
            refreshAccessToken env c1 (snd res) = (Ok (Some "access-2"), snd res).
Proof.
  destruct (handleCallback_connects (Scenario.days 100) (fun _ => Ok Scenario.new_token)
              "code-1" (Some "realm-9") 1 Scenario.db_acme) as [_ H].
  apply (H Scenario.new_token 3600 Scenario.acme); reflexivity.
Defined.

(** X9. After a token rotation.  Once [refreshAccessToken] has rotated the
    token of a stored tenant, a caller that reloads the tenant is served the
    new access token without an exchange until the new expiry, whatever the
    OAuth client would say.  A caller that still holds the snapshot from
    before the rotation goes to the exchange again, with the old refresh
    token: if that exchange is refused its call fails, although the store
    holds a valid token. *)
Theorem rotation_and_snapshots (env : Env) (company c0 : Company.t) (db : Db)
        (token : Token) (secs : Z) :
  ~ Spec.expiry_in_future env company ->
  oauth_refresh env (Company.refreshToken (Company.quickbooks company)) = Ok token ->
  expires_in token = Some secs ->
  Spec.Company_findById (Company._id company) db = Some c0 ->
  let db' := snd (refreshAccessToken env company db) in
  Spec.Company_findById (Company._id company) db'
  = Some (Spec.rotated token (now env + secs * 1000) c0)
  /\ (forall env',
        now env' < now env + secs * 1000 ->
        refreshAccessToken env' (Spec.rotated token (now env + secs * 1000) c0) db'
        = (Ok (Some (access_token token)), db'))
  /\ (forall env' e,
        now env <= now env' ->
        oauth_refresh env' (Company.refreshToken (Company.quickbooks company)) = Err e ->
        refreshAccessToken env' company db' = (Err e, db')).
Proof.
  intros Hexp Htok Hsecs Hc0. cbv zeta.
  assert (Edb : snd (refreshAccessToken env company db)
                = with_companies
                    (Company_update_by_id (Company._id company)
                       (set_tokens (access_token token) (refresh_token token)
                                   (now env + secs * 1000))
                       (companies db)) db).
  { unfold refreshAccessToken.
    rewrite (TokenLifecycle.not_in_future _ _ Hexp), Htok, Hsecs. reflexivity. }
  rewrite Edb. split; [|split].
  - unfold Spec.Company_findById in *. cbn [companies with_companies].
    rewrite (TokenLifecycle.findById_update_same _ _ _ _ Hc0). reflexivity.
  - intros env' Hlt. unfold refreshAccessToken, Spec.rotated.
    cbn [Company.quickbooks Company.tokenExpiresAt Company.accessToken].
    apply Z.ltb_lt in Hlt. rewrite Hlt. reflexivity.
  - intros env' e Hnow Herr. unfold refreshAccessToken.
    assert (Hexp' : ~ Spec.expiry_in_future env' company).
    { intros [x [Hx Hlt]]. apply Hexp. exists x. split; [exact Hx | lia]. }
    rewrite (TokenLifecycle.not_in_future _ _ Hexp'), Herr. reflexivity.
Qed.

Lemma rotation_and_snapshots_witness :
  let env := Scenario.env_100 None None in
  let db' := snd (refreshAccessToken env Scenario.expired_acme Scenario.db_acme) in
  Spec.Company_findById 1 db'
  = Some (Spec.rotated Scenario.new_token (Scenario.days 100 + 3600 * 1000)
                       Scenario.acme)
  /\ (forall env',
        now env' < Scenario.days 100 + 3600 * 1000 ->
        refreshAccessToken env'
          (Spec.rotated Scenario.new_token (Scenario.days 100 + 3600 * 1000)
                        Scenario.acme) db'
        = (Ok (Some "access-2"), db'))
  /\ (forall env' e,
        Scenario.days 100 <= now env' ->
        oauth_refresh env' (Some "refresh-1") = Err e ->
        refreshAccessToken env' Scenario.expired_acme db' = (Err e, db')).
Proof.
  apply (rotation_and_snapshots (Scenario.env_100 None None) Scenario.expired_acme
           Scenario.acme Scenario.db_acme Scenario.new_token 3600).
  - apply TokenLifecycle.expired_acme_not_in_future.
  - reflexivity.
  - reflexivity.
  - reflexivity.
Defined.

End ConnectionFacts.

(** ** Ingestion pipeline: further facts *)

Module SyncFacts.

Import QuickBooks.

(** X10. The sync marker in [syncInvoices].  When the call returns a result,
    the stored tenant's [lastSync] is the clock of the call; when it throws
    (token, transport or a row the schema cast rejects), every tenant's
    [lastSync] is what it was. *)
Theorem syncInvoices_marker (env : Env) (company c0 : Company.t) (db : Db) :
  Spec.Company_findById (Company._id company) db = Some c0 ->
  (is_ok (fst (syncInvoices env company db)) = true ->
   option_map (fun c => Company.lastSync (Company.quickbooks c))
              (Spec.Company_findById (Company._id company)
                                     (snd (syncInvoices env company db)))
   = Some (Some (now env)))
  /\ (is_ok (fst (syncInvoices env company db)) = false ->
      Spec.lastSync_of (snd (syncInvoices env company db)) = Spec.lastSync_of db).
Proof.
  intros Hc0. split.
  - intros Hok. apply (SyncMarker.syncInvoices_marker_success _ _ _ c0 Hok Hc0).
  - apply SyncMarker.syncInvoices_marker_failure.
Qed.

Lemma syncInvoices_marker_witness :
  option_map (fun c => Company.lastSync (Company.quickbooks c))
    (Spec.Company_findById 1
       (snd (syncInvoices (Scenario.env_100 (Some [Scenario.invoice_77]) None)
                          Scenario.acme Scenario.db_acme)))
  = Some (Some (Scenario.days 100)).
Proof.
  destruct (syncInvoices_marker (Scenario.env_100 (Some [Scenario.invoice_77]) None)
              Scenario.acme Scenario.acme Scenario.db_acme eq_refl) as [H _].
  apply H. reflexivity.
Defined.

(** *** Counts *)

Lemma syncInvoices_loop_count (now : Z) (company : Company.t)
      (rows : list QbInvoice.t) (db db' : Db) (n m : Z) :
  syncInvoices_loop now company rows db n = (db', Ok m) ->
  m = n + Z.of_nat (List.length rows)
  /\ (List.length (invoices db) <= List.length (invoices db')
      <= List.length (invoices db) + List.length rows)%nat.
Proof.
  revert db n. induction rows as [|r rest IH]; intros db n; cbn [syncInvoices_loop].
  - intros H. injection H as <- <-. cbn. lia.
  - destruct (Invoice_findOneAndUpdate now _ _ db) as [db1|e] eqn:Ew; [|discriminate].
    intros Hl. destruct (IH _ _ Hl) as [Hm Hlen].
    destruct (Ingestion.Invoice_upsert_ok _ _ _ _ _ Ew) as [u [_ [_ [E _]]]].
    pose proof (upsert_length Invoice_matches (Invoice_apply now (nextId db))
                  (Invoice_fresh now) (QbInvoice.Id r, Company._id company) u
                  (invoices db,
                   nextId db
                   + Z.of_nat (List.length
                                 (i_lineItems (build_invoiceData company r))))) as H.
    rewrite E in Hlen. cbn [fst invoices with_invoices List.length] in *. lia.
Qed.

Lemma syncPayments_loop_count (now : Z) (company : Company.t)
      (rows : list QbPayment.t) (db db' : Db) (n m : Z) :
  syncPayments_loop now company rows db n = (db', Ok m) ->
  m = n + Z.of_nat (List.length rows)
  /\ (List.length (payments db) <= List.length (payments db')
      <= List.length (payments db) + List.length rows)%nat.
Proof.
  revert db n. induction rows as [|r rest IH]; intros db n; cbn [syncPayments_loop].
  - intros H. injection H as <- <-. cbn. lia.
  - destruct (Payment_findOneAndUpdate now _ _ db) as [db1|e] eqn:Ew; [|discriminate].
    intros Hl. destruct (IH _ _ Hl) as [Hm Hlen].
    destruct (Ingestion.Payment_upsert_ok _ _ _ _ _ Ew) as [u [_ [_ [E _]]]].
    pose proof (upsert_length Payment_matches (Payment_apply now) (Payment_fresh now)
                  (QbPayment.Id r, Company._id company) u
                  (payments db, nextId db)) as H.
    rewrite E in Hlen. cbn [fst payments with_payments List.length] in *. lia.
Qed.

(** X11. What a completed sync reports.  The [count] of [syncInvoices] and
    of [syncPayments] is the number of rows in the ledger answer, one per
    row even when several rows carry the same ledger id; the collection
    grows by at most that many documents and never shrinks. *)
Theorem sync_counts_rows (env : Env) (company : Company.t) (db : Db) :
  (is_ok (fst (syncInvoices env company db)) = true ->
   fst (syncInvoices env company db)
   = Ok (mkSyncResult true (Z.of_nat (List.length (Spec.invoice_rows env))))
   /\ (List.length (invoices db)
       <= List.length (invoices (snd (syncInvoices env company db)))
       <= List.length (invoices db) + List.length (Spec.invoice_rows env))%nat)
  /\ (is_ok (fst (syncPayments env company db)) = true ->
      fst (syncPayments env company db)
      = Ok (mkSyncResult true (Z.of_nat (List.length (Spec.payment_rows env))))
      /\ (List.length (payments db)
          <= List.length (payments (snd (syncPayments env company db)))
          <= List.length (payments db) + List.length (Spec.payment_rows env))%nat).
Proof.
  split; intros Hok.
  - destruct (Idempotence.syncInvoices_shape env company db)
      as [[Hf _]|[db0 [db2 [res [Hi [_ [_ [Hl [Hi2 [_ [_ Hr]]]]]]]]]]].
    { rewrite Hf in Hok. discriminate. }
    rewrite Hr in Hok |- *. destruct res as [m|e]; [|discriminate Hok].
    destruct (syncInvoices_loop_count _ _ _ _ _ _ _ Hl) as [-> Hlen].
    rewrite Hi2, <- Hi. auto.
  - destruct (Idempotence.syncPayments_shape env company db)
      as [[Hf _]|[db0 [db2 [res [_ [Hp [_ [Hl [-> Hr]]]]]]]]].
    { rewrite Hf in Hok. discriminate. }
    rewrite Hr in Hok |- *. destruct res as [m|e]; [|discriminate Hok].
    destruct (syncPayments_loop_count _ _ _ _ _ _ _ Hl) as [-> Hlen].
    rewrite <- Hp. auto.
Qed.

Lemma sync_counts_rows_witness :
  let env := Scenario.env_100 (Some [Scenario.invoice_77; Scenario.invoice_77]) None in
  fst (syncInvoices env Scenario.acme Scenario.db_acme) = Ok (mkSyncResult true 2)
  /\ (List.length (invoices Scenario.db_acme)
      <= List.length (invoices (snd (syncInvoices env Scenario.acme Scenario.db_acme)))
      <= List.length (invoices Scenario.db_acme) + 2)%nat.
Proof.
  destruct (sync_counts_rows
              (Scenario.env_100 (Some [Scenario.invoice_77; Scenario.invoice_77]) None)
              Scenario.acme Scenario.db_acme) as [H _].
  apply H. reflexivity.
Defined.

(** *** A row that fails *)

Lemma syncInvoices_loop_app (now : Z) (company : Company.t)
      (xs ys : list QbInvoice.t) (db : Db) (n : Z) :
  syncInvoices_loop now company (xs ++ ys) db n
  = match syncInvoices_loop now company xs db n with
    | (db1, Ok m) => syncInvoices_loop now company ys db1 m
    | (db1, Err e) => (db1, Err e)
    end.
Proof.
  revert db n. induction xs as [|x rest IH]; intros db n; [reflexivity|].
  cbn [app syncInvoices_loop].
  destruct (Invoice_findOneAndUpdate now _ _ db) as [db'|e]; [apply IH | reflexivity].
Qed.

(** X12. A batch is not all-or-nothing.  When the rows up to some row have
    been written and the write of that row is rejected (by the schema cast
    or by the unique index), [syncInvoices] stops with that error and does
    not advance the sync marker; the writes of the rows before it stay in
    the store, where each of them (the answer listing every record once)
    has the document that holds it, and the rows after it are not looked
    at. *)
Theorem syncInvoices_partial_batch (env : Env) (company : Company.t) (db db1 : Db)
        (good rest : list QbInvoice.t) (bad : QbInvoice.t) (e : Error) (m : Z) :
  is_ok (fst (makeRequest env company query_Invoice db)) = true ->
  Spec.invoice_rows env = good ++ bad :: rest ->
  NoDup (map QbInvoice.Id good) ->
  syncInvoices_loop (now env) company good
                    (snd (makeRequest env company query_Invoice db)) 0
  = (db1, Ok m) ->
  Invoice_findOneAndUpdate (now env) (QbInvoice.Id bad, Company._id company)
                           (build_invoiceData company bad) db1 = Err e ->
  fst (syncInvoices env company db) = Err e
  /\ invoices (snd (syncInvoices env company db)) = invoices db1
  /\ Spec.lastSync_of (snd (syncInvoices env company db)) = Spec.lastSync_of db
  /\ forall r, In r good ->
       exists d,
         Spec.Invoice_find (Company._id company) r
                           (snd (syncInvoices env company db)) = Some d
         /\ Spec.Invoice_upserted (now env) (Company._id company) r
              (Spec.Invoice_find (Company._id company) r db) (nextId db) d.
Proof.
  intros Hreq Hrows Hnd Hgood Hbad.
  pose proof (SyncMarker.syncInvoices_marker_failure env company db) as Hmark.
  destruct (TokenLifecycle.makeRequest_frame env company query_Invoice db)
    as [Hi [_ [Hn _]]].
  unfold syncInvoices in *.
  destruct (makeRequest env company query_Invoice db) as [[response|e0] db0] eqn:Em;
    [|discriminate Hreq].
  cbn [snd] in Hi, Hn, Hgood.
  rewrite (SyncMarker.makeRequest_response _ _ _ _ _ _ Em) in *.
  unfold Spec.invoice_rows in Hrows. rewrite Hrows in *.
  rewrite syncInvoices_loop_app, Hgood in *. cbn [syncInvoices_loop] in *.
  rewrite Hbad in *. cbn [fst snd is_ok] in *.
  split; [reflexivity|]. split; [reflexivity|]. split; [apply Hmark; reflexivity|].
  destruct (Idempotence.syncInvoices_loop_first _ _ _ _ _ _ _ Hnd Hgood) as [_ H].
  intros r Hin. destruct (H r Hin) as [d [Hf [Hu _]]].
  exists d. split; [exact Hf|].
  rewrite <- (Idempotence.Invoice_find_ext _ r db db0 Hi), <- Hn. exact Hu.
Qed.

Lemma syncInvoices_partial_batch_witness :
  let env := Scenario.env_100
               (Some [Scenario.invoice_77;
                      QbInvoice.mk (Some "78") (Some "INV-78") None None None
                                   (Some (Scenario.days 5)) (Some (Scenario.days 35))
                                   (Some 10%Q) None;
                      Scenario.invoice_77]) None in
  fst (syncInvoices env Scenario.acme Scenario.db_acme) = Err (CastError "totalPaid")
  /\ invoices (snd (syncInvoices env Scenario.acme Scenario.db_acme))
     = [Scenario.stored_77].
Proof.
  cbv zeta.
  destruct (syncInvoices_partial_batch
              (Scenario.env_100
                 (Some [Scenario.invoice_77;
                        QbInvoice.mk (Some "78") (Some "INV-78") None None None
                                     (Some (Scenario.days 5)) (Some (Scenario.days 35))
                                     (Some 10%Q) None;
                        Scenario.invoice_77]) None)
              Scenario.acme Scenario.db_acme
              (QuickBooks.mkDb [Scenario.acme] [Scenario.stored_77] [] 1001)
              [Scenario.invoice_77] [Scenario.invoice_77]
              (QbInvoice.mk (Some "78") (Some "INV-78") None None None
                            (Some (Scenario.days 5)) (Some (Scenario.days 35))
                            (Some 10%Q) None)
              (CastError "totalPaid") 1)
    as [H1 [H2 _]].
  - reflexivity.
  - reflexivity.
  - constructor; [intros [] | constructor].
  - reflexivity.
  - reflexivity.
  - split; [exact H1 | exact H2].
Defined.

(** X13. Which ledger rows can be stored.  An invoice row passes the cast
    exactly when it carries a valid [TxnDate], a valid [DueDate] and a
    [TotalAmt] (a row without [TotalAmt] gets amount 0 but a [NaN] as
    [totalPaid]); a missing [Balance], customer, currency or line list does
    not matter.  A payment row passes exactly when its [TxnDate] is valid. *)
Theorem castable_rows (company : Company.t) (db : Db) (qbInv : QbInvoice.t)
        (qbPmt : QbPayment.t) :
  is_ok (cast_invoiceData (build_invoiceData company qbInv))
  = Passes.is_some (QbInvoice.TxnDate qbInv) && Passes.is_some (QbInvoice.DueDate qbInv)
    && Passes.is_some (QbInvoice.TotalAmt qbInv)
  /\ is_ok (cast_paymentData (build_paymentData company qbPmt db))
     = Passes.is_some (QbPayment.TxnDate qbPmt).
Proof.
  unfold cast_invoiceData, cast_paymentData, build_invoiceData, build_paymentData.
  cbn. split.
  - destruct (QbInvoice.TxnDate qbInv), (QbInvoice.DueDate qbInv),
      (QbInvoice.TotalAmt qbInv); reflexivity.
  - destruct (QbPayment.TxnDate qbPmt); reflexivity.
Qed.

(** *** Writes stay inside the tenant *)

Lemma syncInvoices_loop_outside (now : Z) (company : Company.t)
      (rows : list QbInvoice.t) (db : Db) (n : Z) :
  filter (Passes.foreign_invoice (Company._id company))
         (invoices (fst (syncInvoices_loop now company rows db n)))
  = filter (Passes.foreign_invoice (Company._id company)) (invoices db).
Proof.
  revert db n. induction rows as [|r rest IH]; intros db n;
    cbn [syncInvoices_loop fst]; [reflexivity|].
  destruct (Invoice_findOneAndUpdate now _ _ db) as [db1|e] eqn:Ew; [|reflexivity].
  rewrite IH.
  destruct (Ingestion.Invoice_upsert_ok _ _ _ _ _ Ew) as [u [Hc [_ [-> _]]]].
  cbn [invoices with_invoices].
  destruct (Ingestion.cast_invoiceData_data _ _ Hc) as [Hd _].
  apply (upsert_outside Invoice_matches (Invoice_apply now (nextId db))
           (Invoice_fresh now) (Passes.foreign_invoice (Company._id company))
           (QbInvoice.Id r, Company._id company) u (invoices db, _)).
  - intros d Hm. unfold Invoice_matches in Hm. apply andb_prop in Hm as [_ Hco].
    cbn [snd] in Hco. unfold Passes.foreign_invoice. rewrite Hco. reflexivity.
  - intros d. unfold Passes.foreign_invoice, Invoice_apply. cbn [Invoice.company].
    rewrite Hd. cbn [i_company build_invoiceData]. rewrite Z.eqb_refl. reflexivity.
Qed.

Lemma syncPayments_loop_outside (now : Z) (company : Company.t)
      (rows : list QbPayment.t) (db : Db) (n : Z) :
  filter (Passes.foreign_payment (Company._id company))
         (payments (fst (syncPayments_loop now company rows db n)))
  = filter (Passes.foreign_payment (Company._id company)) (payments db).
Proof.
  revert db n. induction rows as [|r rest IH]; intros db n;
    cbn [syncPayments_loop fst]; [reflexivity|].
  destruct (Payment_findOneAndUpdate now _ _ db) as [db1|e] eqn:Ew; [|reflexivity].
  rewrite IH.
  destruct (Ingestion.Payment_upsert_ok _ _ _ _ _ Ew) as [u [Hc [_ [-> _]]]].
  cbn [payments with_payments].
  destruct (Ingestion.cast_payment_build _ _ _ _ Hc) as [Hu _].
  apply (upsert_outside Payment_matches (Payment_apply now) (Payment_fresh now)
           (Passes.foreign_payment (Company._id company))
           (QbPayment.Id r, Company._id company) u (payments db, nextId db)).
  - intros d Hm. unfold Payment_matches in Hm. apply andb_prop in Hm as [_ Hco].
    cbn [snd] in Hco. unfold Passes.foreign_payment. rewrite Hco. reflexivity.
  - intros d. rewrite Hu. unfold Passes.foreign_payment, Payment_apply.
    cbn [Payment.company ps_data p_company build_paymentData].
    rewrite Z.eqb_refl. reflexivity.
Qed.

(** X14. Writes stay inside the tenant.  Whatever the ledger answers and
    however the call ends, [fullSync] for one tenant leaves the invoices and
    the payments of every other tenant exactly as they were, in number,
    order and content. *)
Theorem fullSync_writes_own_tenant (env : Env) (company : Company.t) (db : Db) :
  let db' := snd (fullSync env company db) in
  filter (Passes.foreign_invoice (Company._id company)) (invoices db')
  = filter (Passes.foreign_invoice (Company._id company)) (invoices db)
  /\ filter (Passes.foreign_payment (Company._id company)) (payments db')
     = filter (Passes.foreign_payment (Company._id company)) (payments db).
Proof.
  cbv zeta.
  assert (HI : forall db0,
             filter (Passes.foreign_invoice (Company._id company))
                    (invoices (snd (syncInvoices env company db0)))
             = filter (Passes.foreign_invoice (Company._id company)) (invoices db0)
             /\ payments (snd (syncInvoices env company db0)) = payments db0).
  { intros db0. unfold syncInvoices.
    destruct (TokenLifecycle.makeRequest_frame env company query_Invoice db0)
      as [Hi [Hp _]].
    destruct (makeRequest env company query_Invoice db0) as [[response|e] db1];
      cbn [snd] in *; [|rewrite Hi; auto].
    set (rows := match Invoice_rows response with Some l => l | None => [] end).
    pose proof (syncInvoices_loop_outside (now env) company rows db1 0) as Ho.
    destruct (SyncMarker.syncInvoices_loop_frame (now env) company rows db1 0) as [_ Hpay].
    destruct (syncInvoices_loop (now env) company rows db1 0) as [db2 [m|e]];
      cbn [fst snd invoices payments with_companies] in *;
      rewrite Ho, Hi, Hpay, Hp; auto. }
  assert (HP : forall db0,
             filter (Passes.foreign_payment (Company._id company))
                    (payments (snd (syncPayments env company db0)))
             = filter (Passes.foreign_payment (Company._id company)) (payments db0)
             /\ invoices (snd (syncPayments env company db0)) = invoices db0).
  { intros db0. unfold syncPayments.
    destruct (TokenLifecycle.makeRequest_frame env company query_Payment db0)
      as [Hi [Hp _]].
    destruct (makeRequest env company query_Payment db0) as [[response|e] db1];
      cbn [snd] in *; [|rewrite Hp; auto].
    set (rows := match Payment_rows response with Some l => l | None => [] end).
    pose proof (syncPayments_loop_outside (now env) company rows db1 0) as Ho.
    destruct (SyncMarker.syncPayments_loop_frame (now env) company rows db1 0) as [_ Hinv].
    destruct (syncPayments_loop (now env) company rows db1 0) as [db2 [m|e]];
      cbn [fst snd] in *; rewrite Ho, Hp, Hinv, Hi; auto. }
  rewrite Idempotence.fullSync_snd.
  destruct (HI db) as [HI1 HI2].
  destruct (is_ok (fst (syncInvoices env company db))).
  - destruct (HP (snd (syncInvoices env company db))) as [HP1 HP2].
    rewrite HP1, HP2, HI1, HI2. auto.
  - rewrite HI1, HI2. auto.
Qed.

End SyncFacts.

(** ** What a write keeps *)

Module WriteFacts.

Import QuickBooks.

(** X15. Re-syncing a stored payment.  When a ledger payment with a valid
    date is synced and its document exists, the write is let through by the
    unique index when the document holds the payment id already or no
    document holds it: then that document is updated in place (no new
    document, the id counter stays), keeps its id and its reconciliation
    and notes paths, and its invoice link is the invoice the lookup finds
    now, or, when the lookup finds none or the row no longer links, the
    link it had before.  Otherwise (the document holds another payment id
    and the new one is taken) the write fails with a duplicate key. *)
Theorem payment_resync_keeps_link (now : Z) (company : Company.t)
        (qbPmt : QbPayment.t) (db : Db) (d0 : Payment.t) (date : Z) :
  QbPayment.TxnDate qbPmt = Some date ->
  find (Payment_matches (QbPayment.Id qbPmt, Company._id company)) (payments db)
  = Some d0 ->
  let data := build_paymentData company qbPmt db in
  let write :=
    Payment_findOneAndUpdate now (QbPayment.Id qbPmt, Company._id company) data db in
  let accepted :=
    Payment.paymentId d0 = p_paymentId data
    \/ forall e, In e (payments db) -> Payment.paymentId e <> p_paymentId data in
  (accepted ->
   exists db' d,
     write = Ok db'
     /\ find (Payment_matches (QbPayment.Id qbPmt, Company._id company)) (payments db')
        = Some d
     /\ Payment._id d = Payment._id d0
     /\ Payment.reconciled d = Payment.reconciled d0
     /\ Payment.notes d = Payment.notes d0
     /\ Payment.invoiceId d
        = match linked_invoice qbPmt db with
          | Some i => Some i
          | None => Payment.invoiceId d0
          end
     /\ List.length (payments db') = List.length (payments db)
     /\ nextId db' = nextId db)
  /\ (~ accepted -> write = Err (DuplicateKey "paymentId")).
Proof.
  intros Hdate Hfind. cbv zeta.
  set (k := (QbPayment.Id qbPmt, Company._id company)) in *.
  set (u := mkPaymentSet (build_paymentData company qbPmt db) date).
  assert (Hcast : cast_paymentData (build_paymentData company qbPmt db) = Ok u).
  { unfold cast_paymentData. cbn [p_paymentDate build_paymentData].
    rewrite Hdate. reflexivity. }
  assert (Hn : Payment.paymentId (Payment_apply now u d0)
               = p_paymentId (build_paymentData company qbPmt db)) by reflexivity.
  split.
  - intros Hidx.
    assert (Hrej : Payment_id_rejected (Some d0) (Payment_apply now u d0) (payments db)
                   = false).
    { unfold Payment_id_rejected. rewrite Hn.
      destruct Hidx as [E|Hfree].
      - rewrite E, String.eqb_refl. reflexivity.
      - apply andb_false_intro2.
        destruct (existsb _ (payments db)) eqn:Ex; [|reflexivity].
        apply existsb_exists in Ex as [x [Hin Hx]]. apply String.eqb_eq in Hx.
        exfalso. exact (Hfree x Hin Hx). }
    destruct (upsert_hit Payment_matches (Payment_apply now) (Payment_fresh now) k u
                (payments db, nextId db) d0 Hfind) as [pre [post [Epre [Hpre Hup]]]].
    cbn [fst snd] in Epre, Hup.
    assert (Hw : Payment_findOneAndUpdate now k (build_paymentData company qbPmt db) db
                 = Ok (with_payments (pre ++ Payment_apply now u d0 :: post, nextId db)
                                     db)).
    { unfold Payment_findOneAndUpdate. rewrite Hcast. cbv zeta.
      rewrite Hfind, Hrej, Hup. reflexivity. }
    exists (with_payments (pre ++ Payment_apply now u d0 :: post, nextId db) db),
      (Payment_apply now u d0).
    split; [exact Hw|].
    destruct (Ingestion.Payment_upsert_ok _ _ _ _ _ Hw) as [u' [Hc' [_ [_ Hf]]]].
    rewrite Hcast in Hc'. injection Hc' as <-.
    unfold Spec.Payment_find in Hf. fold k in Hf. rewrite Hfind in Hf.
    split; [exact Hf|].
    cbn [payments nextId with_payments fst snd].
    repeat split.
    rewrite Epre, !length_app. reflexivity.
  - intros Hno.
    unfold Payment_findOneAndUpdate. rewrite Hcast. cbv zeta. rewrite Hfind.
    replace (Payment_id_rejected (Some d0) (Payment_apply now u d0) (payments db))
      with true; [reflexivity|].
    symmetry. unfold Payment_id_rejected. rewrite Hn. apply andb_true_intro. split.
    + apply negb_true_iff, String.eqb_neq. intros E. apply Hno. left. exact E.
    + destruct (existsb _ (payments db)) eqn:Ex; [reflexivity|].
      exfalso. apply Hno. right. intros e Hin E.
      assert (Ht : existsb
                     (fun e0 => String.eqb (Payment.paymentId e0)
                                  (p_paymentId (build_paymentData company qbPmt db)))
                     (payments db) = true)
        by (apply existsb_exists; exists e; split;
            [exact Hin | apply String.eqb_eq; exact E]).
      rewrite Ht in Ex. discriminate Ex.
Qed.

Lemma payment_resync_keeps_link_witness :
  let db1 := snd (syncPayments (Scenario.env_100 None (Some [Scenario.payment_P1]))
                               Scenario.acme Scenario.db_foreign) in
  let db0 := QuickBooks.mkDb (companies db1) [] (payments db1) (nextId db1) in
  exists db' d,
    Payment_findOneAndUpdate (Scenario.days 101) (Some "P1", 1)
      (build_paymentData Scenario.acme Scenario.payment_P1 db0) db0 = Ok db'
    /\ find (Payment_matches (Some "P1", 1)) (payments db') = Some d
    /\ Payment.invoiceId d = Some 500.
Proof.
  cbv zeta.
  destruct (payment_resync_keeps_link (Scenario.days 101) Scenario.acme
              Scenario.payment_P1
              (QuickBooks.mkDb
                 (companies (snd (syncPayments
                                    (Scenario.env_100 None (Some [Scenario.payment_P1]))
                                    Scenario.acme Scenario.db_foreign)))
                 []
                 (payments (snd (syncPayments
                                   (Scenario.env_100 None (Some [Scenario.payment_P1]))
                                   Scenario.acme Scenario.db_foreign)))
                 (nextId (snd (syncPayments
                                 (Scenario.env_100 None (Some [Scenario.payment_P1]))
                                 Scenario.acme Scenario.db_foreign))))
              (Payment.mk 1000 1 "QB-P1" (Some 500) (Some "C7") (Some "Customer 7")
                          250%Q "USD" (Scenario.days 90) (Some ach) completed
                          (Some "REF-1") (Some "quickbooks") (Some "P1") false None
                          (Scenario.days 100) (Scenario.days 100))
              (Scenario.days 90) eq_refl eq_refl)
    as [Hyes _].
  destruct (Hyes (or_introl eq_refl)) as [db' [d [H1 [H2 [_ [_ [_ [H3 _]]]]]]]].
  exists db', d. split; [exact H1|]. split; [exact H2|]. exact H3.
Defined.

(** X16. The save hook of an invoice.  A save sets the balance to the
    double nearest to amount less total paid and derives the status from
    it: paid when the balance is at most zero, else partial when something
    was paid, else overdue when past due, else the status it had.  A
    settled invoice (balance at most zero) is paid and has a paid date,
    which is the one it had if it had one; an unsettled invoice keeps its
    paid date as it was.  Saving again at the same instant changes
    nothing. *)
Theorem Invoice_pre_save_settles (now : Z) (d : Invoice.t) :
  let d' := Invoice.pre_save now d in
  Invoice.balance d' = Js.round64 (Invoice.amount d - Invoice.totalPaid d)
  /\ Invoice.status d'
     = (if Js.le (Invoice.balance d') 0 then IS_paid
        else if Js.gt (Invoice.totalPaid d) 0 then IS_partial
        else if Invoice.dueDate d <? now then IS_overdue
        else Invoice.status d)
  /\ (if Js.le (Invoice.balance d') 0
      then Invoice.status d' = IS_paid
           /\ Invoice.paidDate d'
              = Some (match Invoice.paidDate d with Some p => p | None => now end)
      else Invoice.paidDate d' = Invoice.paidDate d)
  /\ Invoice.pre_save now d' = d'.
Proof.
  cbv zeta. split; [reflexivity|].
  unfold Invoice.pre_save.
  cbn [Invoice.status Invoice.balance Invoice.amount Invoice.totalPaid
       Invoice.dueDate Invoice.paidDate Invoice._id Invoice.company
       Invoice.invoiceNumber Invoice.customerId Invoice.customerName
       Invoice.currency Invoice.issueDate Invoice.lineItems Invoice.sourceSystem
       Invoice.quickbooksId Invoice.reconciled Invoice.notes Invoice.createdAt
       Invoice.updatedAt].
  set (bal := Js.sub (Invoice.amount d) (Invoice.totalPaid d)).
  destruct (Js.le bal 0) eqn:E.
  - split; [reflexivity|].
    split; [split; [reflexivity | destruct (Invoice.paidDate d); reflexivity]|].
    destruct (Invoice.paidDate d); reflexivity.
  - assert (Eb : Js.gt bal 0 = true)
      by (unfold Js.gt, Js.le in *; rewrite E; reflexivity).
    rewrite Eb, !andb_true_r.
    split; [reflexivity|]. split; [reflexivity|].
    destruct (Js.gt (Invoice.totalPaid d) 0); [reflexivity|].
    destruct (Invoice.dueDate d <? now); reflexivity.
Qed.

(** Where the save hook leaves the rule of the data model: a payment too
    small to move the amount leaves the balance at the amount, and the hook
    calls the invoice partial, which the rule ([0 < balance < amount])
    does not. *)
Lemma Invoice_pre_save_absorbs :
  let d' := Invoice.pre_save (Scenario.days 10) Scenario.invoice_dust in
  Js.gt (Invoice.totalPaid Scenario.invoice_dust) 0 = true
  /\ Invoice.balance d' = Invoice.amount d'
  /\ Invoice.status d' = IS_partial
  /\ Spec.derived_status IS_sent (Invoice.amount d') (Invoice.totalPaid d')
                         (Invoice.balance d') (Invoice.dueDate d') (Scenario.days 10)
     = IS_sent.
Proof. cbv zeta. repeat split; vm_compute; reflexivity. Qed.

End WriteFacts.

(** ** Access control *)

Module AccessFacts.

Import Rbac.

Lemma includes_incl (x : string) (l l' : list string) :
  forallb (fun y => includes y l') l = true ->
  includes x l = true -> includes x l' = true.
Proof.
  intros Hall Hx. unfold includes in Hx. apply existsb_exists in Hx as [y [Hy Hxy]].
  apply String.eqb_eq in Hxy. subst y.
  rewrite forallb_forall in Hall. apply Hall, Hy.
Qed.

(** X17. The permission matrix is a hierarchy: every permission an analyst
    holds a finance manager holds too, and an admin holds every permission,
    also names that appear nowhere in the matrix. *)
Theorem permission_hierarchy (permission : string) :
  (hasPermission "analyst" permission = Returns true ->
   hasPermission "finance_manager" permission = Returns true)
  /\ hasPermission "admin" permission = Returns true.
Proof.
  split; [|reflexivity].
  assert (Ea : forall p, hasPermission "analyst" p
                         = Returns (includes p analyst_permissions))
    by reflexivity.
  assert (Ef : forall p, hasPermission "finance_manager" p
                         = Returns (includes p finance_manager_permissions))
    by reflexivity.
  rewrite Ea, Ef. intros H. injection H as H.
  rewrite (includes_incl permission analyst_permissions finance_manager_permissions
             eq_refl H).
  reflexivity.
Qed.

Lemma permission_hierarchy_witness :
  hasPermission "finance_manager" "recovery:update" = Returns true.
Proof.
  destruct (permission_hierarchy "recovery:update") as [H _].
  apply H. reflexivity.
Defined.

(** X18. Roles outside the matrix.  A role that is no key of the matrix
    holds no permission, unless its name is one every object inherits (such
    as [constructor] or [toString]): there the lookup yields something that
    is no array and [hasPermission] throws. *)
Theorem unknown_roles (userRole permission : string) :
  userRole <> "admin" -> userRole <> "finance_manager" -> userRole <> "analyst" ->
  hasPermission userRole permission
  = if includes userRole inherited_names then Throws else Returns false.
Proof.
  intros H1 H2 H3. unfold hasPermission, PERMISSIONS.
  apply String.eqb_neq in H1, H2, H3. rewrite H1, H2, H3.
  destruct (includes userRole inherited_names); reflexivity.
Qed.

Lemma unknown_roles_witness :
  hasPermission "viewer" "leaks:view" = Returns false
  /\ hasPermission "constructor" "leaks:view" = Throws.
Proof.
  split.
  - apply (unknown_roles "viewer" "leaks:view"); discriminate.
  - apply (unknown_roles "constructor" "leaks:view"); discriminate.
Defined.

Lemma some_permission_true (userRole : string) (requiredPermissions : list string) :
  some_permission userRole requiredPermissions = Returns true ->
  exists permission,
    In permission requiredPermissions
    /\ hasPermission userRole permission = Returns true.
Proof.
  induction requiredPermissions as [|p rest IH]; cbn [some_permission];
    [discriminate|].
  destruct (hasPermission userRole p) as [[|]|] eqn:E; try discriminate.
  - intros _. exists p. split; [left; reflexivity | exact E].
  - intros H. destruct (IH H) as [q [Hq Hhas]]. exists q. split; [right|]; assumption.
Qed.

(** X19. [authorize] never lets a request through without ground: when it
    calls [next], the request carries a user whose role holds one of the
    required permissions.  In particular a route guarded by [authorize()]
    with no permission at all answers 403 to every user, admins included,
    while an admin passes every non-empty list. *)
Theorem authorize_sound (requiredPermissions : list string) (req : Request) :
  (authorize requiredPermissions req = next ->
   exists u permission,
     user req = Some u /\ In permission requiredPermissions
     /\ hasPermission (role u) permission = Returns true)
  /\ (forall u, user req = Some u -> authorize [] req = status 403)
  /\ (forall u, user req = Some u -> role u = "admin" ->
                requiredPermissions <> [] ->
                authorize requiredPermissions req = next).
Proof.
  split; [|split].
  - unfold authorize. destruct (user req) as [u|]; [|discriminate].
    destruct (some_permission (role u) requiredPermissions) as [[|]|] eqn:E;
      try discriminate.
    intros _. destruct (some_permission_true _ _ E) as [p [Hp Hhas]].
    exists u, p. auto.
  - intros u Hu. unfold authorize. rewrite Hu. reflexivity.
  - intros u Hu Hrole Hne. unfold authorize. rewrite Hu, Hrole.
    destruct requiredPermissions as [|p rest]; [contradiction|]. reflexivity.
Qed.

Lemma authorize_sound_witness :
  (exists u permission,
     Some (mkUser "analyst" "a@acme.test" (Some "c1")) = Some u
     /\ In permission ["leaks:delete"; "leaks:view"]
     /\ hasPermission (role u) permission = Returns true)
  /\ authorize [] (mkRequest (Some (mkUser "admin" "root@acme.test" (Some "c1")))
                             None None None) = status 403.
Proof.
  split.
  - destruct (authorize_sound ["leaks:delete"; "leaks:view"]
                (mkRequest (Some (mkUser "analyst" "a@acme.test" (Some "c1")))
                           None None None)) as [H _].
    apply H. reflexivity.
  - destruct (authorize_sound []
                (mkRequest (Some (mkUser "admin" "root@acme.test" (Some "c1")))
                           None None None)) as [_ [H _]].
    apply (H (mkUser "admin" "root@acme.test" (Some "c1"))). reflexivity.
Defined.

(** X20. [sameCompany] decides on the first company id it finds, in the
    order route parameter, body, query string.  For a user who is no admin
    and belongs to company [own]: a route parameter equal to [own] lets the
    request pass whatever company the body and the query string name; a
    route parameter naming another company is answered 403; a request that
    names no company anywhere passes; and without a route parameter and
    without a parsed body the middleware throws.  An admin passes always. *)
Theorem sameCompany_first_id (u : User) (own : string)
        (params : option string) (body0 : option (option string))
        (query : option string) :
  company_id u = Some own ->
  let req := mkRequest (Some u) params body0 query in
  (role u = "admin" -> sameCompany req = next)
  /\ (role u <> "admin" ->
      (truthy params = true ->
       sameCompany req = if Js.ostring_eqb params (Some own) then next else status 403)
      /\ (truthy params = false -> body0 = None -> sameCompany req = throws)
      /\ (truthy params = false -> forall b, body0 = Some b -> truthy b = false ->
          truthy query = false -> sameCompany req = next)).
Proof.
  intros Hown. cbv zeta. unfold sameCompany. cbn [user params_companyId body
    query_company]. split.
  - intros ->. reflexivity.
  - intros Hrole. apply String.eqb_neq in Hrole. rewrite Hrole.
    split; [|split].
    + intros Hp. rewrite Hp, Hp, Hown.
      destruct (Js.ostring_eqb params (Some own)); reflexivity.
    + intros Hp ->. rewrite Hp. reflexivity.
    + intros Hp b -> Hb Hq. rewrite Hp, Hb, Hq. reflexivity.
Qed.

Lemma sameCompany_first_id_witness :
  sameCompany (mkRequest (Some (mkUser "analyst" "a@acme.test" (Some "c1")))
                         (Some "c1") (Some (Some "c2")) (Some "c3"))
  = next.
Proof.
  destruct (sameCompany_first_id (mkUser "analyst" "a@acme.test" (Some "c1")) "c1"
              (Some "c1") (Some (Some "c2")) (Some "c3") eq_refl) as [_ H].
  destruct (H ltac:(discriminate)) as [H1 _].
  apply H1. reflexivity.
Defined.

End AccessFacts.

(** ** Authentication *)

Module AuthFacts.

Import AuthMiddleware.

Lemma split_spaces_nonempty (s : string) : split_spaces s <> [].
Proof.
  induction s as [|c rest IH]; cbn [split_spaces]; [discriminate|].
  destruct (Ascii.eqb c " "); [discriminate|].
  destruct (split_spaces rest); [contradiction | discriminate].
Qed.

Lemma split_spaces_word (t rest : string) :
  Passes.no_space t = true ->
  split_spaces (t ++ String " " rest)%string = t :: split_spaces rest.
Proof.
  induction t as [|c t IH]; cbn [Passes.no_space String.append split_spaces].
  - intros _. reflexivity.
  - intros H. apply andb_prop in H as [Hc Ht]. apply negb_true_iff in Hc.
    rewrite Hc, (IH Ht). reflexivity.
Qed.

Lemma split_spaces_last (t : string) :
  Passes.no_space t = true -> split_spaces t = [t].
Proof.
  induction t as [|c t IH]; cbn [Passes.no_space split_spaces]; [reflexivity|].
  intros H. apply andb_prop in H as [Hc Ht]. apply negb_true_iff in Hc.
  rewrite Hc, (IH Ht). reflexivity.
Qed.

(** X21. The bearer token.  From a header [Bearer <token>] the middleware
    takes the token back unchanged when it contains no space; anything
    after a further space is ignored. *)
Theorem bearer_token_extracted (token rest : string) :
  Passes.no_space token = true ->
  token_of ("Bearer " ++ token)%string = Some token
  /\ token_of ("Bearer " ++ token ++ String " " rest)%string = Some token
  /\ has_bearer (Some ("Bearer " ++ token)%string) = true.
Proof.
  intros H. unfold token_of. split; [|split].
  - change ("Bearer " ++ token)%string with ("Bearer" ++ String " " token)%string.
    rewrite (split_spaces_word "Bearer" token eq_refl), (split_spaces_last _ H).
    reflexivity.
  - change ("Bearer " ++ token ++ String " " rest)%string
      with ("Bearer" ++ String " " (token ++ String " " rest))%string.
    rewrite (split_spaces_word "Bearer" (token ++ String " " rest)%string eq_refl).
    rewrite (split_spaces_word _ _ H). reflexivity.
  - cbn. destruct token; reflexivity.
Qed.

Lemma bearer_token_extracted_witness :
  token_of ("Bearer " ++ "abc.def.ghi")%string = Some "abc.def.ghi"
  /\ token_of ("Bearer " ++ "abc.def.ghi" ++ String " " "trailing")%string
    = Some "abc.def.ghi"
  /\ has_bearer (Some ("Bearer " ++ "abc.def.ghi")%string) = true.
Proof.
  apply (bearer_token_extracted "abc.def.ghi" "trailing"). reflexivity.
Defined.

(** X22. [authenticate] attaches a user only on full ground: when it calls
    [next], the header starts with [Bearer ], the token it carries was
    verified, the user the token names was found, is active and is not
    locked, and that user is the one attached. *)
Theorem authenticate_sound (deps : Deps) (authHeader : option string)
        (req_user : option User) :
  authenticate deps authHeader = next req_user ->
  exists header token userId u,
    authHeader = Some header
    /\ String.prefix "Bearer " header = true
    /\ token_of header = Some token
    /\ jwt_verify deps token = decoded userId
    /\ User_findById deps userId = found u
    /\ isActive u = true /\ locked u = false
    /\ req_user = Some u.
Proof.
  unfold authenticate. destruct authHeader as [h|]; [|discriminate].
  destruct (has_bearer (Some h)) eqn:Hb; [|discriminate].
  unfold has_bearer in Hb. apply andb_prop in Hb as [_ Hp].
  unfold verify. destruct (token_of h) as [t|] eqn:Ht; [|discriminate].
  destruct (jwt_verify deps t) as [uid| | |] eqn:Hv; try discriminate.
  destruct (User_findById deps uid) as [u| |] eqn:Hf; try discriminate.
  destruct (isActive u) eqn:Ha; cbn [negb]; [|discriminate].
  destruct (locked u) eqn:Hl; [discriminate|].
  intros H. injection H as <-. exists h, t, uid, u.
  repeat split; assumption || reflexivity.
Qed.

Lemma authenticate_sound_witness :
  exists header token userId u,
    Some "Bearer t1" = Some header
    /\ String.prefix "Bearer " header = true
    /\ token_of header = Some token
    /\ jwt_verify (mkDeps (fun _ => decoded (Some "u1"))
                          (fun _ => found (mkUser "u1" true false))) token
       = decoded userId
    /\ User_findById (mkDeps (fun _ => decoded (Some "u1"))
                             (fun _ => found (mkUser "u1" true false))) userId
       = found u
    /\ isActive u = true /\ locked u = false
    /\ Some (mkUser "u1" true false) = Some u.
Proof.
  apply (authenticate_sound
           (mkDeps (fun _ => decoded (Some "u1"))
                   (fun _ => found (mkUser "u1" true false)))
           (Some "Bearer t1") (Some (mkUser "u1" true false))).
  reflexivity.
Defined.

(** X23. [optionalAuth] against [authenticate].  [optionalAuth] always calls
    [next]; it attaches every user [authenticate] would attach, never an
    inactive one, but it does not ask whether the account is locked: a
    request that [authenticate] turns down because the account is locked
    goes through [optionalAuth] with that user attached. *)
Theorem optionalAuth_skips_lock (deps : Deps) (authHeader : option string) :
  (exists req_user, optionalAuth deps authHeader = next req_user)
  /\ (forall u, optionalAuth deps authHeader = next (Some u) -> isActive u = true)
  /\ (forall u, authenticate deps authHeader = next (Some u) ->
                optionalAuth deps authHeader = next (Some u))
  /\ (authenticate deps authHeader
      = json 403 "Your account is locked due to multiple failed login attempts." ->
      exists u, optionalAuth deps authHeader = next (Some u)
                /\ locked u = true /\ isActive u = true).
Proof.
  unfold optionalAuth, authenticate.
  destruct authHeader as [h|];
    [|repeat split; try discriminate; eexists; reflexivity].
  destruct (has_bearer (Some h));
    [|repeat split; try discriminate; eexists; reflexivity].
  destruct (verify deps (token_of h)) as [uid| | |];
    try (repeat split; try discriminate; eexists; reflexivity).
  destruct (User_findById deps uid) as [u| |];
    try (repeat split; try discriminate; eexists; reflexivity).
  destruct (isActive u) eqn:Ha, (locked u) eqn:Hl; cbn [negb];
    (split; [eexists; reflexivity|]);
    (split; [intros u' H; try discriminate H; injection H as <-; exact Ha|]);
    (split; [intros u' H; try discriminate H; exact H|]);
    intros H; try discriminate H.
  exists u. auto.
Qed.

Lemma optionalAuth_skips_lock_witness :
  exists u,
    optionalAuth (mkDeps (fun _ => decoded (Some "u1"))
                         (fun _ => found (mkUser "u1" true true)))
                 (Some "Bearer t1") = next (Some u)
    /\ locked u = true /\ isActive u = true.
Proof.
  destruct (optionalAuth_skips_lock
              (mkDeps (fun _ => decoded (Some "u1"))
                      (fun _ => found (mkUser "u1" true true)))
              (Some "Bearer t1")) as [_ [_ [_ H]]].
  apply H. reflexivity.
Defined.

End AuthFacts.

(** ** Mapping helpers *)

Module MappingFacts.

Import QuickBooks.

Lemma toLowerCase_app (a b : string) :
  Js.toLowerCase (a ++ b) = (Js.toLowerCase a ++ Js.toLowerCase b)%string.
Proof.
  induction a as [|c a IH]; cbn [String.append Js.toLowerCase]; [reflexivity|].
  rewrite IH. reflexivity.
Qed.

Lemma prefix_app (w b : string) : String.prefix w (w ++ b) = true.
Proof.
  induction w as [|c w IH]; cbn [String.append String.prefix].
  - destruct b; reflexivity.
  - destruct (ascii_dec c c) as [_|H]; [exact IH | contradiction].
Qed.

Lemma includes_here (w b : string) : Js.includes w (w ++ b) = true.
Proof.
  destruct (w ++ b)%string eqn:E; cbn [Js.includes];
    rewrite <- E, prefix_app; reflexivity.
Qed.

Lemma includes_app (a w b : string) : Js.includes w (a ++ w ++ b) = true.
Proof.
  induction a as [|c a IH]; cbn [String.append]; [apply includes_here|].
  cbn [Js.includes]. rewrite IH. destruct (String.prefix w _); reflexivity.
Qed.

(** X24. [mapPaymentMethod] looks for its words anywhere in the method name
    and in any letter case, in a fixed order: a name containing [ach] or
    [bank] is [ach] whatever else it contains (a "Bank Wire" is [ach], not
    [wire]); a missing or empty name is [other]. *)
Theorem mapPaymentMethod_words (before word after : string) :
  Js.toLowerCase word = "ach" \/ Js.toLowerCase word = "bank" ->
  mapPaymentMethod (Some (before ++ word ++ after)%string) = ach
  /\ mapPaymentMethod None = other
  /\ mapPaymentMethod (Some "") = other.
Proof.
  intros H. split; [|split; reflexivity].
  unfold mapPaymentMethod. rewrite !toLowerCase_app.
  destruct H as [-> | ->]; rewrite includes_app; [reflexivity|].
  rewrite orb_true_r. reflexivity.
Qed.

Lemma mapPaymentMethod_words_witness :
  mapPaymentMethod (Some ("Chase " ++ "Bank" ++ " Wire")%string) = ach
  /\ mapPaymentMethod None = other
  /\ mapPaymentMethod (Some "") = other.
Proof.
  apply (mapPaymentMethod_words "Chase " "Bank" " Wire").
  right. reflexivity.
Defined.

End MappingFacts.

(** ** Detectors: what is reported *)

Module Reports.

Import LeakDetection.

(** The verdict of the under-billing loop: it fails at the first contract
    that is past the threshold test and has no open leak. *)
Lemma detectUnderBilling_verdict (w : World) (companyId : Z) (s : Leak.Store) :
  let settled contract :=
    negb (Js.gt_num (underBilledPercent w companyId contract) 5)
    || match Leak.findOne_open companyId under_billing Leak.by_contractId
                               (Some (Contract.contractNumber contract)) s with
       | Some _ => true
       | None => false
       end in
  detectUnderBilling w companyId s
  = (if forallb settled (activeContracts_query companyId w)
     then mkResult true None 0
     else mkResult false (Some "Validation failed at path sourceSystem") 0,
     s).
Proof.
  cbv zeta. unfold detectUnderBilling.
  rewrite (DetectorFacts.for_each_verdict _
             (fun contract =>
                negb (Js.gt_num (underBilledPercent w companyId contract) 5)
                || match Leak.findOne_open companyId under_billing Leak.by_contractId
                                           (Some (Contract.contractNumber contract)) s with
                   | Some _ => true
                   | None => false
                   end)
             (ValidationError "sourceSystem")).
  - unfold finish. cbn [fst snd]. destruct (forallb _ _); reflexivity.
  - intros contract. unfold underBilling_body.
    destruct (Js.gt_num (underBilledPercent w companyId contract) 5);
      cbn [negb orb]; [|reflexivity].
    destruct (Leak.findOne_open _ _ _ _ s); [reflexivity|].
    unfold create_counted.
    rewrite Detectors.create_manual_rejected by reflexivity. reflexivity.
Qed.

(** X25. What [detectUnderBilling] can return.  Whatever the contracts and
    the invoices are, and however the threshold test comes out, it stores no
    leak and counts none: it returns either success with count 0 or the
    failure of the schema validation with count 0, and it returns success
    when every active contract of the tenant has an open under-billing leak
    (so a failure means that some active contract has none). *)
Theorem detectUnderBilling_result (w : World) (companyId : Z) (s : Leak.Store) :
  snd (detectUnderBilling w companyId s) = s
  /\ (fst (detectUnderBilling w companyId s) = mkResult true None 0
      \/ fst (detectUnderBilling w companyId s)
         = mkResult false (Some (message (ValidationError "sourceSystem"))) 0)
  /\ ((forall contract,
         In contract (activeContracts_query companyId w) ->
         Leak.findOne_open companyId under_billing Leak.by_contractId
                           (Some (Contract.contractNumber contract)) s <> None) ->
      fst (detectUnderBilling w companyId s) = mkResult true None 0).
Proof.
  pose proof (detectUnderBilling_verdict w companyId s) as H. cbv zeta in H.
  rewrite H. cbn [fst snd]. split; [reflexivity|]. split.
  - destruct (forallb _ _); [left | right]; reflexivity.
  - intros Hall.
    assert (Hf : forallb
                   (fun contract =>
                      negb (Js.gt_num (underBilledPercent w companyId contract) 5)
                      || match Leak.findOne_open companyId under_billing
                                 Leak.by_contractId
                                 (Some (Contract.contractNumber contract)) s with
                         | Some _ => true
                         | None => false
                         end)
                   (activeContracts_query companyId w) = true).
    { apply forallb_forall. intros contract Hin. specialize (Hall contract Hin).
      destruct (Leak.findOne_open _ _ _ _ s); [apply orb_true_r | contradiction]. }
    rewrite Hf. reflexivity.
Qed.

Lemma detectUnderBilling_result_witness :
  fst (detectUnderBilling Scenario.world_B 1 Scenario.store_underbilled)
  = mkResult true None 0.
Proof.
  destruct (detectUnderBilling_result Scenario.world_B 1 Scenario.store_underbilled)
    as [_ [_ H]].
  apply H. intros contract [<-|[]]. discriminate.
Defined.

(** *** Counts against what was stored *)

Lemma keyed_step_count {A : Type} (c : Z) (ty : LeakType) (p : Leak.RefPath)
      (now : Z) (body : A -> Leak.Store -> Res (Leak.Store * Z)) :
  Passes.keyed_body c ty p now body ->
  forall x s s' k,
    body x s = Ok (s', k) ->
    Z.of_nat (List.length (Leak.docs s')) = Z.of_nat (List.length (Leak.docs s)) + k
    /\ 0 <= k.
Proof.
  intros Hk x s s' k H.
  destruct (Hk x) as [Hpass|[r [i [_ [_ [_ [_ Hs]]]]]]].
  - rewrite Hpass in H. injection H as <- <-. lia.
  - destruct (Hs s) as [Hnone Hsome].
    destruct (Leak.findOne_open c ty p r s) as [existing|] eqn:E.
    + destruct Hsome as [s1 [Hb [Hlen _]]]; [discriminate|].
      rewrite Hb in H. injection H as <- <-. lia.
    + rewrite (Hnone eq_refl) in H. unfold create_counted in H.
      destruct (Leak.create now i s) as [s1|e] eqn:Ecr; [|discriminate].
      injection H as <- <-.
      destruct (SecondPass.create_appends _ _ _ _ Ecr) as [_ ->].
      cbn [Leak.docs]. rewrite length_app. cbn [List.length]. lia.
Qed.

Lemma for_each_growth {A : Type} (c : Z) (ty : LeakType) (p : Leak.RefPath)
      (now : Z) (body : A -> Leak.Store -> Res (Leak.Store * Z)) :
  Passes.keyed_body c ty p now body ->
  forall xs s n,
    let r := for_each body xs s n in
    Z.of_nat (List.length (Leak.docs s)) <= Z.of_nat (List.length (Leak.docs (fst r)))
    /\ forall m, snd r = Ok m ->
                 Z.of_nat (List.length (Leak.docs (fst r)))
                 = Z.of_nat (List.length (Leak.docs s)) + (m - n).
Proof.
  intros Hk xs. induction xs as [|x rest IH]; intros s n; cbv zeta;
    cbn [for_each].
  - cbn [fst snd]. split; [lia|]. intros m H. injection H as <-. lia.
  - destruct (body x s) as [[s1 k]|e] eqn:E.
    + destruct (keyed_step_count _ _ _ _ _ Hk _ _ _ _ E) as [Hlen Hk0].
      destruct (IH s1 (n + k)) as [Hge Heq]. split; [lia|].
      intros m Hm. rewrite (Heq m Hm). lia.
    + cbn [fst snd]. split; [lia | discriminate].
Qed.

Lemma detector_growth {A : Type} (c : Z) (ty : LeakType) (p : Leak.RefPath)
      (now : Z) (body : A -> Leak.Store -> Res (Leak.Store * Z)) (xs : list A)
      (s : Leak.Store) :
  Passes.keyed_body c ty p now body ->
  let r := finish (for_each body xs s 0) in
  0 <= count (fst r)
  /\ Z.of_nat (List.length (Leak.docs s)) + count (fst r)
     <= Z.of_nat (List.length (Leak.docs (snd r)))
  /\ (success (fst r) = true ->
      Z.of_nat (List.length (Leak.docs (snd r)))
      = Z.of_nat (List.length (Leak.docs s)) + count (fst r)).
Proof.
  intros Hk. cbv zeta.
  destruct (for_each_growth _ _ _ _ _ Hk xs s 0) as [Hge Heq].
  unfold finish. destruct (for_each body xs s 0) as [s' [m|e]]; cbn [fst snd] in *.
  - cbn [count success]. specialize (Heq m eq_refl). lia.
  - cbn [count success]. split; [lia|]. split; [lia | discriminate].
Qed.

(** X26. Counts against what was stored.  The total that [detectLeaks]
    reports never exceeds the number of leaks the run added to the
    collection, and equals it when all four detectors report success; a
    detector that fails after it stored leaks reports count 0 for them. *)
Theorem detectLeaks_counts_stored (w : World) (companyId : Z) (s : Leak.Store) :
  let d := detectLeaks w companyId s in
  0 <= Spec.total_of (returned d)
  /\ Z.of_nat (List.length (Leak.docs s)) + Spec.total_of (returned d)
     <= Z.of_nat (List.length (Leak.docs (store d)))
  /\ (success (fst (detectMissingPayments w companyId s)) = true ->
      success (fst (detectUnderBilling w companyId
                      (snd (detectMissingPayments w companyId s)))) = true ->
      success (fst (detectFailedRenewals w companyId
                      (snd (detectUnderBilling w companyId
                              (snd (detectMissingPayments w companyId s)))))) = true ->
      success (fst (detectAgingReceivables w companyId
                      (snd (detectFailedRenewals w companyId
                              (snd (detectUnderBilling w companyId
                                      (snd (detectMissingPayments w companyId s)))))))) = true ->
      Z.of_nat (List.length (Leak.docs (store d)))
      = Z.of_nat (List.length (Leak.docs s)) + Spec.total_of (returned d)).
Proof.
  cbv zeta.
  pose proof (Orchestration.detectLeaks_unfold w companyId s) as E.
  cbv zeta in E. rewrite E. cbn [store returned]. clear E.
  unfold Spec.total_of. cbn [Js.values map snd fold_left].
  rewrite !Orchestration.count_of_Result_value.
  set (r1 := detectMissingPayments w companyId s).
  set (r2 := detectUnderBilling w companyId (snd r1)).
  set (r3 := detectFailedRenewals w companyId (snd r2)).
  set (r4 := detectAgingReceivables w companyId (snd r3)).
  destruct (detector_growth _ _ _ _ _ (missingPayments_query companyId w) s
              (SecondPass.keyed_missingPayments w companyId)) as [A1 [B1 C1]].
  fold (detectMissingPayments w companyId s) in A1, B1, C1. fold r1 in A1, B1, C1.
  destruct (detector_growth _ _ _ _ _ (activeContracts_query companyId w) (snd r1)
              (SecondPass.keyed_underBilling w companyId)) as [A2 [B2 C2]].
  fold (detectUnderBilling w companyId (snd r1)) in A2, B2, C2.
  fold r2 in A2, B2, C2.
  destruct (detector_growth _ _ _ _ _ (expiredContracts_query companyId w) (snd r2)
              (SecondPass.keyed_failedRenewals w companyId)) as [A3 [B3 C3]].
  fold (detectFailedRenewals w companyId (snd r2)) in A3, B3, C3.
  fold r3 in A3, B3, C3.
  destruct (detector_growth _ _ _ _ _ (agingReceivables_query companyId w) (snd r3)
              (SecondPass.keyed_agingReceivables w companyId)) as [A4 [B4 C4]].
  fold (detectAgingReceivables w companyId (snd r3)) in A4, B4, C4.
  fold r4 in A4, B4, C4.
  split; [lia|]. split; [lia|].
  intros S1 S2 S3 S4.
  specialize (C1 S1). specialize (C2 S2). specialize (C3 S3). specialize (C4 S4).
  lia.
Qed.

Lemma detectLeaks_counts_stored_witness :
  let d := detectLeaks (Scenario.world_C "quickbooks") 1 Scenario.no_leaks in
  Z.of_nat (List.length (Leak.docs (store d)))
  = Z.of_nat (List.length (Leak.docs Scenario.no_leaks)) + Spec.total_of (returned d).
Proof.
  destruct (detectLeaks_counts_stored (Scenario.world_C "quickbooks") 1
              Scenario.no_leaks) as [_ [_ H]].
  apply H; reflexivity.
Defined.

End Reports.

(** ** What an invoice upsert keeps *)

Module InvoiceWrites.

Import QuickBooks.

Lemma written_number (now first next : Z) (company : Company.t) (r : QbInvoice.t)
      (u : InvoiceSet) (before : option Invoice.t) :
  cast_invoiceData (build_invoiceData company r) = Ok u ->
  Invoice.invoiceNumber
    (Invoice_apply now first u
       (match before with
        | Some d0 => d0
        | None => Invoice_fresh now next (QbInvoice.Id r, Company._id company)
        end))
  = Spec.carried (QbInvoice.DocNumber r) before Invoice.invoiceNumber.
Proof.
  intros Hc. destruct (Ingestion.cast_invoiceData_data _ _ Hc) as [Hd _].
  unfold Invoice_apply. cbn. rewrite Hd. cbn.
  destruct (QbInvoice.DocNumber r), before; reflexivity.
Qed.

Lemma number_rejected_iff (before : option Invoice.t) (written : Invoice.t)
      (docs : list Invoice.t) :
  Invoice_number_rejected before written docs = false
  <-> ((exists d0, before = Some d0
                   /\ Invoice.invoiceNumber d0 = Invoice.invoiceNumber written)
       \/ forall e, In e docs ->
                    Invoice.invoiceNumber e <> Invoice.invoiceNumber written).
Proof.
  unfold Invoice_number_rejected. split.
  - intros H. apply andb_false_iff in H as [H|H].
    + left. apply negb_false_iff in H. destruct before as [d0|]; [|discriminate].
      exists d0. split; [reflexivity | apply ostring_eqb_eq, H].
    + right. intros e Hin E.
      assert (Hx : existsb (fun e0 => Js.ostring_eqb (Invoice.invoiceNumber e0)
                                        (Invoice.invoiceNumber written)) docs = true).
      { apply existsb_exists. exists e. split; [exact Hin|].
        rewrite E. apply ostring_eqb_refl. }
      rewrite Hx in H. discriminate.
  - intros [[d0 [-> E]]|H].
    + rewrite E, ostring_eqb_refl. reflexivity.
    + apply andb_false_intro2.
      destruct (existsb _ docs) eqn:Ex; [|reflexivity].
      apply existsb_exists in Ex as [x [Hin Hx]]. apply ostring_eqb_eq in Hx.
      exfalso. exact (H x Hin Hx).
Qed.

(** X27. One invoice upsert.  A row that passes the cast is written exactly
    when the unique index accepts the invoice number its document gets (the
    row's document number, or the stored one when the row has none): the
    document holds that number already, or no document does; otherwise the
    write fails with a duplicate-key error.  A write that goes through
    either updates the stored invoice of that ledger id in place, keeping
    its document id, paid date, reconciliation flag, notes and creation
    stamp, or, when there is none, appends one new document with a fresh
    id, no paid date (also when its status is paid: the save hook does not
    run) and [reconciled = false]. *)
Theorem invoice_upsert_keeps (now : Z) (company : Company.t) (qbInv : QbInvoice.t)
        (db : Db) :
  let k := (QbInvoice.Id qbInv, Company._id company) in
  let before := find (Invoice_matches k) (invoices db) in
  let number := Spec.carried (QbInvoice.DocNumber qbInv) before Invoice.invoiceNumber in
  let accepted :=
    (exists d0, before = Some d0 /\ Invoice.invoiceNumber d0 = number)
    \/ forall e, In e (invoices db) -> Invoice.invoiceNumber e <> number in
  let write := Invoice_findOneAndUpdate now k (build_invoiceData company qbInv) db in
  (is_ok (cast_invoiceData (build_invoiceData company qbInv)) = true ->
   accepted -> is_ok write = true)
  /\ (is_ok (cast_invoiceData (build_invoiceData company qbInv)) = true ->
      ~ accepted -> write = Err (DuplicateKey "invoiceNumber"))
  /\ forall db',
       write = Ok db' ->
       exists d,
         find (Invoice_matches k) (invoices db') = Some d
         /\ Invoice.invoiceNumber d = number
         /\ match before with
            | Some d0 =>
                Invoice._id d = Invoice._id d0
                /\ Invoice.paidDate d = Invoice.paidDate d0
                /\ Invoice.reconciled d = Invoice.reconciled d0
                /\ Invoice.notes d = Invoice.notes d0
                /\ Invoice.createdAt d = Invoice.createdAt d0
                /\ List.length (invoices db') = List.length (invoices db)
            | None =>
                nextId db <= Invoice._id d
                /\ Invoice.paidDate d = None
                /\ Invoice.reconciled d = false
                /\ Invoice.notes d = None
                /\ Invoice.createdAt d = now
                /\ invoices db' = invoices db ++ [d]
            end.
Proof.
  cbv zeta.
  set (k := (QbInvoice.Id qbInv, Company._id company)).
  set (next := nextId db
               + Z.of_nat (List.length (i_lineItems (build_invoiceData company qbInv)))).
  assert (Hcases : forall u,
             cast_invoiceData (build_invoiceData company qbInv) = Ok u ->
             Invoice_findOneAndUpdate now k (build_invoiceData company qbInv) db
             = if Invoice_number_rejected (find (Invoice_matches k) (invoices db))
                    (Invoice_apply now (nextId db) u
                       (match find (Invoice_matches k) (invoices db) with
                        | Some d0 => d0
                        | None => Invoice_fresh now next k
                        end)) (invoices db)
               then Err (DuplicateKey "invoiceNumber")
               else Ok (with_invoices
                          (upsert Invoice_matches (Invoice_apply now (nextId db))
                                  (Invoice_fresh now) k u (invoices db, next)) db)).
  { intros u Hc. unfold Invoice_findOneAndUpdate. rewrite Hc. reflexivity. }
  split; [|split].
  - intros Hok Hadm.
    destruct (cast_invoiceData (build_invoiceData company qbInv)) as [u|e] eqn:Hc;
      [|discriminate Hok].
    rewrite (Hcases u eq_refl).
    assert (Hrej : Invoice_number_rejected (find (Invoice_matches k) (invoices db))
                     (Invoice_apply now (nextId db) u
                        (match find (Invoice_matches k) (invoices db) with
                         | Some d0 => d0
                         | None => Invoice_fresh now next k
                         end)) (invoices db) = false).
    { apply number_rejected_iff. rewrite (written_number _ _ _ _ _ _ _ Hc). exact Hadm. }
    rewrite Hrej. reflexivity.
  - intros Hok Hadm.
    destruct (cast_invoiceData (build_invoiceData company qbInv)) as [u|e] eqn:Hc;
      [|discriminate Hok].
    rewrite (Hcases u eq_refl).
    destruct (Invoice_number_rejected _ _ (invoices db)) eqn:Hrej; [reflexivity|].
    exfalso. apply Hadm. apply number_rejected_iff in Hrej.
    rewrite (written_number _ _ _ _ _ _ _ Hc) in Hrej. exact Hrej.
  - intros db' Hw.
    destruct (Ingestion.Invoice_upsert_ok _ _ _ _ _ Hw) as [u [Hc [_ [Edb Hf]]]].
    cbv zeta in Edb, Hf. unfold Spec.Invoice_find in Hf. fold k next in Edb, Hf.
    eexists. split; [exact Hf|].
    split; [apply (written_number _ _ _ _ _ _ _ Hc)|].
    destruct (find (Invoice_matches k) (invoices db)) as [d0|] eqn:Eb.
    + destruct (upsert_hit Invoice_matches (Invoice_apply now (nextId db))
                  (Invoice_fresh now) k u (invoices db, next) d0 Eb)
        as [pre [post [Epre [_ Hup]]]].
      cbn [fst] in Epre. rewrite Edb, Hup.
      cbn [invoices with_invoices fst]. rewrite Epre, !length_app.
      repeat split.
    + rewrite Edb,
        (upsert_miss Invoice_matches (Invoice_apply now (nextId db))
           (Invoice_fresh now) k u (invoices db, next) Eb).
      cbn [invoices with_invoices fst snd]. repeat split. cbn. unfold next. lia.
Qed.

Lemma invoice_upsert_keeps_witness :
  Invoice_findOneAndUpdate (Scenario.days 100) (Some "9", 1)
    (build_invoiceData Scenario.acme (Scenario.numbered "9" "INV-500"))
    Scenario.db_foreign
  = Err (DuplicateKey "invoiceNumber")
  /\ is_ok (Invoice_findOneAndUpdate (Scenario.days 100) (Some "77", 1)
              (build_invoiceData Scenario.acme Scenario.invoice_77)
              Scenario.db_foreign) = true.
Proof.
  split.
  - destruct (invoice_upsert_keeps (Scenario.days 100) Scenario.acme
                (Scenario.numbered "9" "INV-500") Scenario.db_foreign) as [_ [H _]].
    apply H; [reflexivity|].
    intros [[d0 [E _]]|Hfree]; [discriminate E|].
    apply (Hfree Scenario.foreign_invoice); [left; reflexivity | reflexivity].
  - destruct (invoice_upsert_keeps (Scenario.days 100) Scenario.acme
                Scenario.invoice_77 Scenario.db_foreign) as [H _].
    apply H; [reflexivity|].
    right. intros e [<-|[]]. discriminate.
Defined.

End InvoiceWrites.
